(** * Deterministic pushdown automata and their complement

    A shallow embedding of [automata/ap.py], [automata/apd.py] and
    [automata/apdc.py].

    - Python [set]s are [gset]s and the transition [dict] is a [gmap]; the
      order in which the source iterates over them is not fixed by their
      contents, so every loop over a container goes through [IterOrder], an
      arbitrary enumeration, and the results hold for each of them.
    - A Python [str] is a sequence of characters (code points); it is a
      [string] holding the UTF-8 encoding of the text, and wherever the
      source indexes, slices, iterates over or measures a [str] the
      bytes are cut at the character boundaries ([uncons], [chars],
      [len]): a character is a first byte and the continuation bytes it
      announces.  (A [str] with a lone surrogate has no such encoding
      and is not covered.)
    - A stack is a [list string] whose last element is the top, as in the
      source.
    - Methods that can raise return a [result]; the mutated object is the
      returned automaton.
    - Where sharing between objects matters, the same methods are read
      once more as programs on a heap of sets, dicts and objects
      ([Module Heap]). *)

From Stdlib Require Import Ascii String.
From stdpp Require Import gmap strings list fin_maps pretty.

Open Scope string_scope.
Open Scope list_scope.
Open Scope nat_scope.
Open Scope stdpp_scope.

Set Warnings "-clear-no-such-hyp".

(** ** Exceptions *)

(** The source raises [ValueError] with five different messages and, from
    [set.remove], [KeyError]. *)
Inductive value_error :=
  | state_already_present      (* "El estado ... ya pertenece al autómata." *)
  | state_not_present          (* "El estado ... no pertenece al autómata." *)
  | transition_exists          (* "Ya existe una transición para ..." *)
  | lambda_transition_exists   (* "Ya existe una transicion lambda desde ..." *)
  | symbol_transition_exists.  (* "Ya existe transición con símbolo desde ..." *)

Inductive exn :=
  | ValueError (why : value_error)
  | KeyError.

(** The error kinds of the specification, as classes of raised exceptions. *)
Definition DuplicateStateError (e : exn) : Prop :=
  e = ValueError state_already_present.
Definition UnknownStateError (e : exn) : Prop :=
  e = ValueError state_not_present.
Definition NonDeterministicConflictError (e : exn) : Prop :=
  e = ValueError transition_exists ∨
  e = ValueError lambda_transition_exists ∨
  e = ValueError symbol_transition_exists.

Inductive result (A : Type) :=
  | Ok (a : A)
  | Raise (e : exn).
Arguments Ok {A} a.
Arguments Raise {A} e.

Global Instance result_ret : MRet result := λ A a, Ok a.
Global Instance result_bind : MBind result := λ A B f r,
  match r with Ok a => f a | Raise e => Raise e end.

(** [for x in xs: body] where [body] may raise. *)
Fixpoint for_each {A S : Type} (body : A → S → result S) (xs : list A) (s : S)
    : result S :=
  match xs with
  | [] => Ok s
  | x :: xs' => s' ← body x s; for_each body xs' s'
  end.

(** ** Iteration order of sets and dicts *)

Class IterOrder := {
  set_iter : ∀ `{Countable A}, gset A → list A;
  set_iter_perm : ∀ `{Countable A} (X : gset A), set_iter X ≡ₚ elements X;
  dict_iter : ∀ `{Countable K} {V : Type}, gmap K V → list (K * V);
  dict_iter_perm : ∀ `{Countable K} {V : Type} (m : gmap K V),
      dict_iter m ≡ₚ map_to_list m
}.

(** One possible order: the one of stdpp's enumerations. *)
Definition canonical_order : IterOrder :=
  {| set_iter := λ A _ _ X, elements X;
     set_iter_perm := λ A _ _ X, reflexivity (elements X);
     dict_iter := λ K _ _ V m, map_to_list m;
     dict_iter_perm := λ K _ _ V m, reflexivity (map_to_list m) |}.

(** Another one: the same enumerations, backwards. *)
Definition reversed_order : IterOrder :=
  {| set_iter := λ A _ _ X, reverse (elements X);
     set_iter_perm := λ A _ _ X, reverse_Permutation (elements X);
     dict_iter := λ K _ _ V m, reverse (map_to_list m);
     dict_iter_perm := λ K _ _ V m, reverse_Permutation (map_to_list m) |}.

(** ** Strings *)

(** The number of bytes of the character whose encoding starts with the
    byte [a], read off its leading bits: [0xxxxxxx] is a character of
    its own, [110xxxxx], [1110xxxx] and [11110xxx] announce one, two and
    three continuation bytes.  (The last constructor argument of
    [Ascii] is the most significant bit.) *)
Definition utf8_width (a : ascii) : nat :=
  match a with
  | Ascii _ _ _ _ _ _ _ false => 1
  | Ascii _ _ _ _ _ _ false true => 1
  | Ascii _ _ _ _ _ false true true => 2
  | Ascii _ _ _ _ false true true true => 3
  | Ascii _ _ _ _ true true true true => 4
  end.

(** The first [n] bytes of [s] and the bytes after them. *)
Fixpoint split_bytes (n : nat) (s : string) : string * string :=
  match n with
  | O => (EmptyString, s)
  | S n' =>
      match s with
      | EmptyString => (EmptyString, EmptyString)
      | String a s' => let '(c, r) := split_bytes n' s' in (String a c, r)
      end
  end.

(** [(s[0], s[1:])] for a non-empty [str]: its first character, as a
    one-character [str], and what follows it. *)
Definition uncons (s : string) : option (string * string) :=
  match s with
  | EmptyString => None
  | String a s' =>
      let '(c, r) := split_bytes (utf8_width a - 1) s' in Some (String a c, r)
  end.

(** The characters of [s], at most [fuel] of them. *)
Fixpoint chars_from (fuel : nat) (s : string) : list string :=
  match fuel with
  | O => []
  | S fuel' =>
      match uncons s with
      | None => []
      | Some (c, r) => c :: chars_from fuel' r
      end
  end.

(** [for symbol in s] / [list(s)] / [reversed(s)] for a [str]: its
    one-character strings.  A character has at least one byte, so the
    number of bytes is fuel enough ([chars_uncons]). *)
Definition chars (s : string) : list string := chars_from (String.length s) s.

(** [len(s)] for a [str]: the number of its characters. *)
Definition len (s : string) : nat := length (chars s).

(** ** The automaton: [AP.__init__], [APD.__init__] *)

Module SpecialStackSymbol.
(** ["⊥"], the one character U+22A5; its encoding is E2 8A A5. *)
Definition EMPTY : string :=
  String "226"%char (String "138"%char (String "165"%char EmptyString)).
End SpecialStackSymbol.

(** The key of the transition [dict],
    [(estado, símbolo_entrada, símbolo_pila)]; the input symbol is [None]
    for a lambda transition ([SIMBOLO_LAMBDA = None]). *)
Abbreviation tkey Q := (Q * option string * string)%type.

(** A configuration: current state, remaining input, stack (top last). *)
Abbreviation config Q := (Q * string * list string)%type.

(** The states of the complement are the tuples [(q, 0)], [(q, 1)],
    [(q, 2)]. *)
Abbreviation cstate Q := (Q * nat)%type.

Section automaton.
Context {Q : Type} `{Countable Q}.

Record AP := mkAP {
  states : gset Q;
  initial_state : option Q;
  final_states : gset Q;
  transitions : gmap (tkey Q) (Q * string);
  input_alphabet : gset string;
  stack_alphabet : gset string;
  initial_stack_symbol : string
}.

Definition new_AP : AP :=
  {| states := ∅; initial_state := None; final_states := ∅;
     transitions := ∅; input_alphabet := ∅; stack_alphabet := ∅;
     initial_stack_symbol := SpecialStackSymbol.EMPTY |}.

Definition size (M : AP) : nat := stdpp.base.size (states M).

(** [AP.add_state] *)
Definition add_state (state : Q) (final : bool) (M : AP) : result AP :=
  if bool_decide (state ∈ states M) then
    Raise (ValueError state_already_present)
  else
    Ok {| states := states M ∪ {[state]};
          initial_state := initial_state M;
          final_states :=
            if final then final_states M ∪ {[state]} else final_states M;
          transitions := transitions M;
          input_alphabet := input_alphabet M;
          stack_alphabet := stack_alphabet M;
          initial_stack_symbol := initial_stack_symbol M |}.

(** [AP.mark_initial_state] *)
Definition mark_initial_state (state : Q) (M : AP) : result AP :=
  if bool_decide (state ∈ states M) then
    Ok {| states := states M;
          initial_state := Some state;
          final_states := final_states M;
          transitions := transitions M;
          input_alphabet := input_alphabet M;
          stack_alphabet := stack_alphabet M;
          initial_stack_symbol := initial_stack_symbol M |}
  else Raise (ValueError state_not_present).

(** [AP.set_initial_stack_symbol] *)
Definition set_initial_stack_symbol (symbol : string) (M : AP) : AP :=
  {| states := states M;
     initial_state := initial_state M;
     final_states := final_states M;
     transitions := transitions M;
     input_alphabet := input_alphabet M;
     stack_alphabet := stack_alphabet M ∪ {[symbol]};
     initial_stack_symbol := symbol |}.

Context `{IterOrder}.

(** The loop [for symbol in self.input_alphabet] of [add_transition]:
    does some symbol of the alphabet carry a transition from
    [(state, stack_top)]? *)
Definition symbol_transition_in_alphabet
    (M : AP) (state : Q) (stack_top : string) : bool :=
  existsb
    (λ symbol, bool_decide (is_Some (transitions M !! (state, Some symbol, stack_top))))
    (set_iter (input_alphabet M)).

(** The tail of [add_transition] ("Agregar transición", "Actualizar
    alfabetos"). *)
Definition store_transition (state new_state : Q) (input_symbol : option string)
    (stack_top stack_push : string) (M : AP) : AP :=
  {| states := states M;
     initial_state := initial_state M;
     final_states := final_states M;
     transitions :=
       <[(state, input_symbol, stack_top) := (new_state, stack_push)]> (transitions M);
     input_alphabet :=
       match input_symbol with
       | Some a => input_alphabet M ∪ {[a]}
       | None => input_alphabet M
       end;
     stack_alphabet :=
       stack_alphabet M ∪ {[stack_top]} ∪ list_to_set (chars stack_push);
     initial_stack_symbol := initial_stack_symbol M |}.

(** [APD.add_transition] *)
Definition add_transition (state new_state : Q) (input_symbol : option string)
    (stack_top stack_push : string) (M : AP) : result AP :=
  if negb (bool_decide (state ∈ states M)) then
    Raise (ValueError state_not_present)
  else if negb (bool_decide (new_state ∈ states M)) then
    Raise (ValueError state_not_present)
  else if bool_decide (is_Some (transitions M !! (state, input_symbol, stack_top))) then
    Raise (ValueError transition_exists)
  else
    match input_symbol with
    | Some _ =>
        if bool_decide (is_Some (transitions M !! (state, None, stack_top))) then
          Raise (ValueError lambda_transition_exists)
        else Ok (store_transition state new_state input_symbol stack_top stack_push M)
    | None =>
        if symbol_transition_in_alphabet M state stack_top then
          Raise (ValueError symbol_transition_exists)
        else Ok (store_transition state new_state input_symbol stack_top stack_push M)
    end.

(** [APD.get_transition] *)
Definition get_transition (M : AP) (state : Q) (input_symbol : option string)
    (stack_top : string) : option (Q * string) :=
  transitions M !! (state, input_symbol, stack_top).

(** ** Execution: [APD.step] and [APD.accepts] *)

(** [stack[:-1]] followed by the pushes of [reversed(stack_string)]. *)
Definition replace_top (stack : list string) (stack_string : string)
    : list string :=
  removelast stack ++ rev (chars stack_string).

(** The lambda half of [step]. *)
Definition step_lambda (M : AP) (state : Q) (remaining_input : string)
    (stack : list string) (stack_top : string)
    : option (Q * string * list string) :=
  match get_transition M state None stack_top with
  | Some (new_state, stack_string) =>
      Some (new_state, remaining_input, replace_top stack stack_string)
  | None => None
  end.

(** [APD.step]; [None] is the source's [None] (no move). *)
Definition step (M : AP) (state : Q) (remaining_input : string)
    (stack : list string) : option (Q * string * list string) :=
  match last stack with
  | None => None
  | Some stack_top =>
      match uncons remaining_input with
      | Some (input_symbol, rest) =>
          match get_transition M state (Some input_symbol) stack_top with
          | Some (new_state, stack_string) =>
              Some (new_state, rest, replace_top stack stack_string)
          | None => step_lambda M state remaining_input stack stack_top
          end
      | None => step_lambda M state remaining_input stack stack_top
      end
  end.

(** [not remaining_input] *)
Definition consumed (remaining_input : string) : bool :=
  match remaining_input with EmptyString => true | _ => false end.

(** [not stack] *)
Definition is_empty (stack : list string) : bool :=
  match stack with [] => true | _ => false end.

(** The test at the head of the loop body: does the loop return [True]
    here? *)
Definition accepts_now (M : AP) (acceptance_mode : string) (state : Q)
    (remaining_input : string) (stack : list string) : bool :=
  if consumed remaining_input then
    if bool_decide (acceptance_mode = "final_state") then
      bool_decide (state ∈ final_states M)
    else if bool_decide (acceptance_mode = "empty_stack") then
      is_empty stack
    else false
  else false.

(** The code after the loop ("Verificar condiciones finales"). *)
Definition final_check (M : AP) (acceptance_mode : string) (state : Q)
    (remaining_input : string) (stack : list string) : bool :=
  if consumed remaining_input then
    if bool_decide (acceptance_mode = "final_state") then
      bool_decide (state ∈ final_states M)
    else if bool_decide (acceptance_mode = "empty_stack") then
      is_empty stack
    else false
  else false.

(** [while steps < max_steps], with [fuel = max_steps - steps]. *)
Fixpoint accepts_loop (M : AP) (acceptance_mode : string) (fuel : nat)
    (state : Q) (remaining_input : string) (stack : list string) : bool :=
  match fuel with
  | O => final_check M acceptance_mode state remaining_input stack
  | S fuel' =>
      if accepts_now M acceptance_mode state remaining_input stack then true
      else
        match step M state remaining_input stack with
        | None => final_check M acceptance_mode state remaining_input stack
        | Some (state', remaining_input', stack') =>
            accepts_loop M acceptance_mode fuel' state' remaining_input' stack'
        end
  end.

(** [max_steps = len(word) * 100 + 1000] *)
Definition max_steps (word : string) : nat := len word * 100 + 1000.

(** [APD.accepts].  With no initial state marked the source runs from
    the state [None], which is no state of type [Q]: it is in no set of
    states and the source of no transition, so the run rejects at once. *)
Definition accepts (M : AP) (word acceptance_mode : string) : bool :=
  match initial_state M with
  | Some q0 =>
      accepts_loop M acceptance_mode (max_steps word) q0 word
        [initial_stack_symbol M]
  | None => false
  end.

(** [APD.is_deterministic] *)
Definition is_deterministic (M : AP) : bool :=
  forallb
    (λ '((state, input_sym, stack_sym), _),
       match input_sym with
       | None =>
           forallb
             (λ symbol,
                negb (bool_decide
                        (is_Some (transitions M !! (state, Some symbol, stack_sym)))))
             (set_iter (input_alphabet M))
       | Some _ => true
       end)
    (dict_iter (transitions M)).

(** ** Invariants of the transition table *)

(** The determinism invariant: a lambda transition and a symbol
    transition never share a (state, stack-top) pair.  (That a key has
    at most one transition is built into the dictionary.) *)
Definition deterministic (M : AP) : Prop :=
  ∀ q X, is_Some (transitions M !! (q, None, X)) →
         ∀ a, transitions M !! (q, Some a, X) = None.

(** Every input symbol that labels a transition is in the input
    alphabet, and every stack symbol a transition reads is in the stack
    alphabet: [add_transition] records them. *)
Definition alphabet_closed (M : AP) : Prop :=
  ∀ q o X, is_Some (transitions M !! (q, o, X)) →
           X ∈ stack_alphabet M ∧ ∀ a, o = Some a → a ∈ input_alphabet M.

(** Both endpoints of every transition are registered states. *)
Definition endpoints_registered (M : AP) : Prop :=
  ∀ q o X p s, transitions M !! (q, o, X) = Some (p, s) →
               q ∈ states M ∧ p ∈ states M.

(** What the registry operations maintain. *)
Definition registry_ok (M : AP) : Prop :=
  final_states M ⊆ states M ∧
  (∀ q0, initial_state M = Some q0 → q0 ∈ states M).

(** The three ways in which a new transition conflicts with the table,
    in the words of the specification. *)
Definition conflict (M : AP) (state : Q) (input_symbol : option string)
    (stack_top : string) : Prop :=
  is_Some (transitions M !! (state, input_symbol, stack_top)) ∨
  (is_Some input_symbol ∧ is_Some (transitions M !! (state, None, stack_top))) ∨
  (input_symbol = None ∧
   ∃ a, is_Some (transitions M !! (state, Some a, stack_top))).

(** ** The run of the automaton, as the specification speaks of it *)

Definition step_config (M : AP) (c : config Q) : option (config Q) :=
  let '(state, remaining_input, stack) := c in
  step M state remaining_input stack.

(** The configuration reached after exactly [n] moves, if the run gets
    that far. *)
Fixpoint run_steps (M : AP) (n : nat) (c : config Q) : option (config Q) :=
  match n with
  | O => Some c
  | S n' =>
      match step_config M c with
      | Some c' => run_steps M n' c'
      | None => None
      end
  end.

(** "input fully consumed AND current state in the accepting set" /
    "input fully consumed AND stack is empty". *)
Definition acceptance_predicate (M : AP) (mode : string) (c : config Q) : Prop :=
  let '(state, remaining_input, stack) := c in
  remaining_input = "" ∧
  ((mode = "final_state" ∧ state ∈ final_states M) ∨
   (mode = "empty_stack" ∧ stack = [])).

(** The initial configuration for a word. *)
Definition initial_config (M : AP) (q0 : Q) (word : string) : config Q :=
  (q0, word, [initial_stack_symbol M]).

(** ** Continuity, the precondition of the complement theorem *)

(** [word] is a word over the input alphabet. *)
Definition word_over (M : AP) (word : string) : Prop :=
  ∀ a, a ∈ chars word → a ∈ input_alphabet M.

(** "Every reachable configuration has at least one applicable
    transition for its current stack-top symbol, whether or not input
    remains": the stack is not empty and, for the current state and
    stack top, there is a lambda transition or there are transitions,
    one for every input symbol. *)
Definition continuous (M : AP) : Prop :=
  ∀ q0 word n q r stack,
    initial_state M = Some q0 → word_over M word →
    run_steps M n (initial_config M q0 word) = Some (q, r, stack) →
    ∃ X, last stack = Some X ∧
         (is_Some (transitions M !! (q, None, X)) ∨
          ((∃ a, a ∈ input_alphabet M) ∧
           ∀ a, a ∈ input_alphabet M →
                is_Some (transitions M !! (q, Some a, X)))).

(** Stack symbols are single characters: [len(X) == 1]. *)
Definition single_character_stack_symbols (M : AP) : Prop :=
  ∀ X, X ∈ stack_alphabet M → len X = 1.

(** No configuration of the run from [c], up to the one after [n]
    moves, is accepting by final state. *)
Definition no_acceptance_within (M : AP) (n : nat) (c : config Q) : Prop :=
  ∀ k c', k ≤ n → run_steps M k c = Some c' →
          ¬ acceptance_predicate M "final_state" c'.

(** What a call [M.accepts(word, acceptance_mode)] does: the method
    contains no [raise] and calls only [step] and [get_transition],
    which contain none either, so it returns its boolean. *)
Definition accepts_outcome (M : AP) (word acceptance_mode : string)
    : result bool :=
  Ok (accepts M word acceptance_mode).

(** ** Calls of the builder *)

Inductive builder_call :=
  | AddState (state : Q) (final : bool)
  | MarkInitialState (state : Q)
  | SetInitialStackSymbol (symbol : string)
  | AddTransition (state new_state : Q) (input_symbol : option string)
      (stack_top stack_push : string).

Definition perform (call : builder_call) (M : AP) : result AP :=
  match call with
  | AddState state final => add_state state final M
  | MarkInitialState state => mark_initial_state state M
  | SetInitialStackSymbol symbol => Ok (set_initial_stack_symbol symbol M)
  | AddTransition state new_state input_symbol stack_top stack_push =>
      add_transition state new_state input_symbol stack_top stack_push M
  end.

(** A script of calls on a fresh automaton; it stops at the first call
    that raises. *)
Definition build (calls : list builder_call) : result AP :=
  for_each perform calls new_AP.

(** What the builder maintains. *)
Definition builder_invariant (M : AP) : Prop :=
  registry_ok M ∧ endpoints_registered M ∧ alphabet_closed M ∧ deterministic M.

(** The number of [add_state] calls in a script. *)
Definition is_add_state (call : builder_call) : bool :=
  match call with AddState _ _ => true | _ => false end.

Definition add_state_calls (calls : list builder_call) : nat :=
  length (List.filter is_add_state calls).

(** [M'] has everything [M] has: states, accepting states, transitions
    and symbols. *)
Definition grows (M M' : AP) : Prop :=
  states M ⊆ states M' ∧ final_states M ⊆ final_states M' ∧
  transitions M ⊆ transitions M' ∧
  input_alphabet M ⊆ input_alphabet M' ∧ stack_alphabet M ⊆ stack_alphabet M'.

(** Every symbol that a transition pushes is in the stack alphabet:
    [add_transition] records the characters of [stack_push]. *)
Definition pushes_recorded (M : AP) : Prop :=
  ∀ k p s, transitions M !! k = Some (p, s) →
           ∀ X, X ∈ chars s → X ∈ stack_alphabet M.

End automaton.

Arguments AP Q {_ _}.
Arguments builder_call Q : clear implicits.

(** ** The complement: [APDC.crear_automata_complemento] *)

Section complement.
Context {Q : Type} `{Countable Q} `{IterOrder}.

(** [1 if p in self.final_states else 0] *)
Definition final_index (P : AP Q) (p : Q) : nat :=
  if bool_decide (p ∈ final_states P) then 1 else 0.

(** Body of the first loop: the three copies of a state. *)
Definition add_copies (q : Q) (C : AP (cstate Q)) : result (AP (cstate Q)) :=
  C ← add_state (q, 0) false C;
  C ← add_state (q, 1) false C;
  add_state (q, 2) true C.

(** The choice of the initial state.  Without a marked initial state the
    source asks for [(None, 0)] or [(None, 1)], which is none of the
    tuples added before, and [mark_initial_state] raises. *)
Definition mark_initial_copy (P : AP Q) (C : AP (cstate Q)) : result (AP (cstate Q)) :=
  match initial_state P with
  | Some q0 =>
      if bool_decide (q0 ∈ final_states P) then mark_initial_state (q0, 1) C
      else mark_initial_state (q0, 0) C
  | None => Raise (ValueError state_not_present)
  end.

(** [C.input_alphabet = self.input_alphabet.copy()],
    [C.stack_alphabet = self.stack_alphabet.copy()],
    [C.set_initial_stack_symbol(self.initial_stack_symbol)]. *)
Definition copy_alphabets (P : AP Q) (C : AP (cstate Q)) : AP (cstate Q) :=
  set_initial_stack_symbol (initial_stack_symbol P)
    {| states := states C;
       initial_state := initial_state C;
       final_states := final_states C;
       transitions := transitions C;
       input_alphabet := input_alphabet P;
       stack_alphabet := stack_alphabet P;
       initial_stack_symbol := initial_stack_symbol C |}.

(** Body of the loop of rule (i). *)
Definition rule_i (P : AP Q) (t : tkey Q * (Q * string)) (C : AP (cstate Q))
    : result (AP (cstate Q)) :=
  let '((q, input_symbol, stack_symbol), (p, stack_push)) := t in
  match input_symbol with
  | None => Ok C
  | Some _ =>
      let i := final_index P p in
      C ← add_transition (q, 1) (p, i) input_symbol stack_symbol stack_push C;
      add_transition (q, 2) (p, i) input_symbol stack_symbol stack_push C
  end.

(** Body of the loop of rule (ii). *)
Definition rule_ii (P : AP Q) (t : tkey Q * (Q * string)) (C : AP (cstate Q))
    : result (AP (cstate Q)) :=
  let '((q, input_symbol, stack_symbol), (p, stack_push)) := t in
  match input_symbol with
  | Some _ => Ok C
  | None =>
      let i := final_index P p in
      C ← add_transition (q, 1) (p, 1) None stack_symbol stack_push C;
      add_transition (q, 0) (p, i) None stack_symbol stack_push C
  end.

(** Body of the inner loop of rule (iii). *)
Definition rule_iii (P : AP Q) (q : Q) (stack_symbol : string) (C : AP (cstate Q))
    : result (AP (cstate Q)) :=
  let has_lambda_transition :=
    bool_decide (is_Some (transitions P !! (q, None, stack_symbol))) in
  if negb has_lambda_transition then
    add_transition (q, 0) (q, 2) None stack_symbol stack_symbol C
  else Ok C.

Definition crear_automata_complemento (P : AP Q) : result (AP (cstate Q)) :=
  C ← for_each add_copies (set_iter (states P)) new_AP;
  C ← mark_initial_copy P C;
  let C := copy_alphabets P C in
  C ← for_each (rule_i P) (dict_iter (transitions P)) C;
  C ← for_each (rule_ii P) (dict_iter (transitions P)) C;
  for_each
    (λ q C, for_each (rule_iii P q) (set_iter (stack_alphabet P)) C)
    (set_iter (states P)) C.

(** ** The state of the construction after its first loop *)

(** The automaton has the three copies of the states in [qs], no
    transition and no initial state yet. *)
Definition copies_of (qs : list Q) (C : AP (cstate Q)) : Prop :=
  (∀ q i, (q, i) ∈ states C ↔ q ∈ qs ∧ i < 3) ∧
  (∀ q i, (q, i) ∈ final_states C ↔ q ∈ qs ∧ i = 2) ∧
  initial_state C = None ∧ transitions C = ∅.

(** ** The state of the construction inside its later loops *)

Definition in_table (P : AP Q) (k : tkey Q) (v : Q * string) : Prop :=
  transitions P !! k = Some v.

Definition in_list (l : list (tkey Q * (Q * string))) (k : tkey Q)
    (v : Q * string) : Prop :=
  (k, v) ∈ l.

(** The transitions that rule (i), (ii) or (iii) has produced once the
    loop has handled the part [D] of the table of [P] (the pairs [S] of
    a state and a stack symbol, for rule (iii)). *)
Definition from_rule_i (P : AP Q) (D : tkey Q → Q * string → Prop)
    (k : tkey (cstate Q)) (v : cstate Q * string) : Prop :=
  ∃ q a X p s,
    D (q, Some a, X) (p, s) ∧ v = ((p, final_index P p), s) ∧
    (k = ((q, 1), Some a, X) ∨ k = ((q, 2), Some a, X)).

Definition from_rule_ii (P : AP Q) (D : tkey Q → Q * string → Prop)
    (k : tkey (cstate Q)) (v : cstate Q * string) : Prop :=
  ∃ q X p s,
    D (q, None, X) (p, s) ∧
    ((k = ((q, 1), None, X) ∧ v = ((p, 1), s)) ∨
     (k = ((q, 0), None, X) ∧ v = ((p, final_index P p), s))).

Definition from_rule_iii (P : AP Q) (S : Q → string → Prop)
    (k : tkey (cstate Q)) (v : cstate Q * string) : Prop :=
  ∃ q X,
    S q X ∧ transitions P !! (q, None, X) = None ∧
    k = ((q, 0), None, X) ∧ v = ((q, 2), X).

Definition rules_i_ii (P : AP Q) (k : tkey (cstate Q)) (v : cstate Q * string) : Prop :=
  from_rule_i P (in_table P) k v ∨ from_rule_ii P (in_table P) k v.

Definition table_is (C : AP (cstate Q))
    (R : tkey (cstate Q) → cstate Q * string → Prop) : Prop :=
  ∀ k v, transitions C !! k = Some v ↔ R k v.

Definition same_registry (C0 C : AP (cstate Q)) : Prop :=
  states C = states C0 ∧ initial_state C = initial_state C0 ∧
  final_states C = final_states C0 ∧
  initial_stack_symbol C = initial_stack_symbol C0.

(** The pairs rule (iii) ranges over. *)
Definition all_pairs (P : AP Q) (q : Q) (X : string) : Prop :=
  q ∈ states P ∧ X ∈ stack_alphabet P.

Definition done_pairs (P : AP Q) (done : list Q) (q : Q) (X : string) : Prop :=
  q ∈ done ∧ X ∈ stack_alphabet P.

(** The invariants of the three loops. *)
Definition inv_i (P : AP Q) (C0 : AP (cstate Q))
    (done : list (tkey Q * (Q * string))) (C : AP (cstate Q)) : Prop :=
  same_registry C0 C ∧ table_is C (from_rule_i P (in_list done)).

Definition inv_ii (P : AP Q) (C0 : AP (cstate Q))
    (done : list (tkey Q * (Q * string))) (C : AP (cstate Q)) : Prop :=
  same_registry C0 C ∧
  table_is C (λ k v, from_rule_i P (in_table P) k v ∨
                     from_rule_ii P (in_list done) k v).

Definition inv_iii (P : AP Q) (C0 : AP (cstate Q))
    (S : Q → string → Prop) (C : AP (cstate Q)) : Prop :=
  same_registry C0 C ∧
  table_is C (λ k v, rules_i_ii P k v ∨ from_rule_iii P S k v).

(** ** The three rules, in the words of the specification *)

(** [generated P k v]: rules (i)-(iii) put the transition [k ↦ v] into
    the complement of [P]. *)
Inductive generated (P : AP Q) : tkey (cstate Q) → cstate Q * string → Prop :=
  | gen_i_1 q a X p s :
      transitions P !! (q, Some a, X) = Some (p, s) →
      generated P ((q, 1), Some a, X) ((p, final_index P p), s)
  | gen_i_2 q a X p s :
      transitions P !! (q, Some a, X) = Some (p, s) →
      generated P ((q, 2), Some a, X) ((p, final_index P p), s)
  | gen_ii_1 q X p s :
      transitions P !! (q, None, X) = Some (p, s) →
      generated P ((q, 1), None, X) ((p, 1), s)
  | gen_ii_0 q X p s :
      transitions P !! (q, None, X) = Some (p, s) →
      generated P ((q, 0), None, X) ((p, final_index P p), s)
  | gen_iii q X :
      q ∈ states P → X ∈ stack_alphabet P →
      transitions P !! (q, None, X) = None →
      generated P ((q, 0), None, X) ((q, 2), X).

(** What the specification says of the result [C] for the source [P]:
    its states, accepting states, initial state, initial stack symbol
    and transition table. *)
Definition is_complement_of (P : AP Q) (C : AP (cstate Q)) : Prop :=
  (∀ q i, (q, i) ∈ states C ↔ q ∈ states P ∧ i < 3) ∧
  (∀ q i, (q, i) ∈ final_states C ↔ q ∈ states P ∧ i = 2) ∧
  (∃ q0, initial_state P = Some q0 ∧ q0 ∈ states P ∧
         initial_state C = Some (q0, final_index P q0)) ∧
  initial_stack_symbol C = initial_stack_symbol P ∧
  (∀ k v, transitions C !! k = Some v ↔ generated P k v).

(** What the marker of a state of the complement records about the
    configuration of the source it stands for. *)
Definition marker_ok (P : AP Q) (q : Q) (m : nat) (stack : list string) : Prop :=
  (m = 0 → q ∉ final_states P) ∧
  (m = 2 → (q ∉ final_states P) ∧
           (∀ X, last stack = Some X → transitions P !! (q, None, X) = None)).

(** The markers from which the complement can still follow a rejecting
    run of the source to the sink. *)
Definition marker_live (P : AP Q) (q : Q) (m : nat) (r : string)
    (stack : list string) : Prop :=
  m = 0 ∨ (m = 1 ∧ r ≠ "") ∨
  (m = 2 ∧ ∀ X, last stack = Some X → transitions P !! (q, None, X) = None).

End complement.

(** ** Renaming of states *)

Section renaming.
Context {Q : Type} `{Countable Q} `{IterOrder}.

(** [APD._rename_state_in_transitions]: the new dictionary is filled
    entry by entry, a later entry overwriting an earlier one with the
    same new key. *)
Definition _rename_state_in_transitions (old_name new_name : Q) (M : AP Q)
    : gmap (tkey Q) (Q * string) :=
  foldl
    (λ new_transitions '((state, input_sym, stack_sym), (target_state, stack_string)),
       let new_state := if bool_decide (state = old_name) then new_name else state in
       let new_target :=
         if bool_decide (target_state = old_name) then new_name else target_state in
       <[(new_state, input_sym, stack_sym) := (new_target, stack_string)]>
         new_transitions)
    ∅ (dict_iter (transitions M)).

(** [AP._rename_state]; [set.remove] raises [KeyError] on a missing
    element. *)
Definition _rename_state (old_name new_name : Q) (M : AP Q) : result (AP Q) :=
  if bool_decide (old_name ≠ new_name) then
    if bool_decide (old_name ∈ states M) then
      Ok {| states := states M ∖ {[old_name]} ∪ {[new_name]};
            initial_state :=
              if bool_decide (initial_state M = Some old_name) then Some new_name
              else initial_state M;
            final_states :=
              if bool_decide (old_name ∈ final_states M) then
                final_states M ∖ {[old_name]} ∪ {[new_name]}
              else final_states M;
            transitions := _rename_state_in_transitions old_name new_name M;
            input_alphabet := input_alphabet M;
            stack_alphabet := stack_alphabet M;
            initial_stack_symbol := initial_stack_symbol M |}
    else Raise KeyError
  else Ok M.

(** [M'] is [M] with every state [q] relabelled [f q], distinct states
    keeping distinct labels. *)
Definition relabelled (f : Q → Q) (M M' : AP Q) : Prop :=
  (∀ p q, p ∈ states M → q ∈ states M → f p = f q → p = q) ∧
  states M' = set_map f (states M) ∧
  initial_state M' = f <$> initial_state M ∧
  final_states M' = set_map f (final_states M) ∧
  (∀ q o X, q ∈ states M →
     transitions M' !! (f q, o, X)
     = (λ '(p, s), (f p, s)) <$> transitions M !! (q, o, X)) ∧
  (∀ q' o X, is_Some (transitions M' !! (q', o, X)) →
     ∃ q, q ∈ states M ∧ q' = f q) ∧
  input_alphabet M' = input_alphabet M ∧
  stack_alphabet M' = stack_alphabet M ∧
  initial_stack_symbol M' = initial_stack_symbol M.

(** Renaming one state. *)
Definition rename_one (old_name new_name : Q) (q : Q) : Q :=
  if bool_decide (q = old_name) then new_name else q.

Definition rename_key (f : Q → Q) (k : tkey Q) : tkey Q :=
  (f k.1.1, k.1.2, k.2).

Definition rename_target (f : Q → Q) (v : Q * string) : Q * string :=
  (f v.1, v.2).

End renaming.

(** A state is any hashable Python object; the strings among them are
    told apart, because [normalize_states] produces strings and tests
    [isinstance(state, str)]. *)
Inductive hashable (A : Type) :=
  | Str (s : string)
  | Obj (o : A).
Arguments Str {A} s.
Arguments Obj {A} o.

Global Instance hashable_eq_dec `{EqDecision A} : EqDecision (hashable A).
Proof. solve_decision. Defined.

Global Instance hashable_countable `{Countable A} : Countable (hashable A).
Proof.
  apply (inj_countable'
           (λ h, match h with Str s => inl s | Obj o => inr o end)
           (λ x, match x with inl s => Str s | inr o => Obj o end)).
  by intros [].
Defined.

(** [f"q{i}"] *)
Definition q_name (i : nat) : string := "q" +:+ pretty i.

(** [f"temp:{new_name}"], [k] times. *)
Fixpoint temp_name (k : nat) (new_name : string) : string :=
  match k with
  | O => new_name
  | S k' => "temp:" +:+ temp_name k' new_name
  end.

(** [s.split(":")] *)
Fixpoint split_colon (s : string) : list string :=
  match s with
  | EmptyString => [EmptyString]
  | String a s' =>
      if Ascii.eqb a ":"%char then EmptyString :: split_colon s'
      else
        match split_colon s' with
        | segment :: segments => String a segment :: segments
        | [] => [String a EmptyString]
        end
  end.

(** [s.split(":")[-1]] *)
Definition last_segment (s : string) : string :=
  List.last (split_colon s) EmptyString.

Section normalize.
Context {A : Type} `{Countable A} `{IterOrder}.

Abbreviation state := (hashable A).

(** [new_names] before the loop: the initial state, if any, gets "q0". *)
Definition initial_names (M : AP state) : list (state * string) :=
  match initial_state M with
  | Some q0 => [(q0, q_name 0)]
  | None => []
  end.

(** [self.states - {self.initial_state}] *)
Definition other_states (M : AP state) : gset state :=
  match initial_state M with
  | Some q0 => states M ∖ {[q0]}
  | None => states M
  end.

(** The first loop: [new_names], a dictionary in insertion order. *)
Definition planned_names (M : AP state) : list (state * string) :=
  foldl
    (λ new_names '(i, st),
       if bool_decide (st ∈ new_names.*1) then new_names
       else new_names ++ [(st, q_name (i + 1))])
    (initial_names M)
    (imap (λ i st, (i, st)) (set_iter (other_states M))).

(** [old_name == new_name or new_name not in new_names.keys()] *)
Definition can_rename_now (new_names : list (state * string))
    (entry : state * string) : bool :=
  bool_decide (entry.1 = Str entry.2) ||
  negb (bool_decide (Str entry.2 ∈ new_names.*1)).

(** [del new_names[old_name]] *)
Definition dict_del (old_name : state) (new_names : list (state * string))
    : list (state * string) :=
  filter (λ entry, entry.1 ≠ old_name) new_names.

(** The [while len(new_names) > 0] loop; [None] when [fuel] iterations
    do not empty [new_names]. *)
Fixpoint order_renames (fuel : nat) (new_names : list (state * string))
    : option (list (state * string * bool)) :=
  match new_names with
  | [] => Some []
  | first :: _ =>
      match fuel with
      | O => None
      | S fuel' =>
          let '(old_name, new_name, use_temp) :=
            match find (can_rename_now new_names) new_names with
            | Some entry => (entry.1, entry.2, false)
            | None => (first.1, first.2, true)
            end in
          rest ← order_renames fuel' (dict_del old_name new_names);
          Some ((old_name, new_name, use_temp) :: rest)
      end
  end.

(** [while new_name in self.states: new_name = f"temp:{new_name}"];
    [None] when [fuel] iterations do not end the loop. *)
Fixpoint fresh_temp (fuel : nat) (sts : gset state) (new_name : string)
    : option string :=
  if bool_decide (Str new_name ∈ sts) then
    match fuel with
    | O => None
    | S fuel' => fresh_temp fuel' sts ("temp:" +:+ new_name)
    end
  else Some new_name.

(** A loop whose body may raise or, for lack of fuel, not return. *)
Fixpoint for_each_fuel {B S : Type} (body : B → S → option (result S))
    (xs : list B) (s : S) : option (result S) :=
  match xs with
  | [] => Some (Ok s)
  | x :: xs' =>
      match body x s with
      | Some (Ok s') => for_each_fuel body xs' s'
      | Some (Raise e) => Some (Raise e)
      | None => None
      end
  end.

(** Body of the second loop ("Realizamos el renombre"). *)
Definition apply_rename (entry : state * string * bool) (M : AP state)
    : option (result (AP state)) :=
  let '(old_name, new_name, use_temp) := entry in
  new_name ←
    (if use_temp then fresh_temp (S (stdpp.base.size (states M))) (states M) new_name
     else Some new_name);
  Some (_rename_state old_name (Str new_name) M).

(** Body of the third loop ("Eliminamos los nombres temporales"). *)
Definition strip_temp (st : state) (M : AP state) : result (AP state) :=
  match st with
  | Str s =>
      if String.prefix "temp:" s then _rename_state st (Str (last_segment s)) M
      else Ok M
  | Obj _ => Ok M
  end.

(** [AP.normalize_states].  The two [while] loops run on fuel, as many
    iterations as [new_names] has entries and one more than there are
    states; [None] stands for a loop that has not ended by then. *)
Definition normalize_states (M : AP state) : option (result (AP state)) :=
  let new_names := planned_names M in
  ordered_new_names ← order_renames (length new_names) new_names;
  renamed ← for_each_fuel apply_rename ordered_new_names M;
  match renamed with
  | Ok M' => Some (for_each strip_temp (set_iter (states M')) M')
  | Raise e => Some (Raise e)
  end.

(** *** What the loops of [normalize_states] maintain *)

(** The plan gives every state exactly one name, no name twice, and
    only names of the form q<i>. *)
Definition plan_ok (M : AP state) (names : list (state * string)) : Prop :=
  NoDup names.*1 ∧ NoDup names.*2 ∧
  (∀ q, q ∈ names.*1 ↔ q ∈ states M) ∧
  (∀ q t, (q, t) ∈ names → ∃ i, t = q_name i).

(** A rename without placeholder is a no-op or aims at a name that no
    state still to be renamed carries. *)
Fixpoint well_ordered (ordered : list (state * string * bool)) : Prop :=
  match ordered with
  | [] => True
  | (old_name, new_name, use_temp) :: rest =>
      (use_temp = false →
       old_name = Str new_name ∨ Str new_name ∉ old_name :: rest.*1.*1) ∧
      well_ordered rest
  end.

(** During the second loop: the states still [pending] carry their old
    names, the others their new name behind some placeholder
    prefixes. *)
Definition renaming_inv (M : AP state) (names : list (state * string))
    (pending : list (state * string * bool)) (M' : AP state) : Prop :=
  ∃ f, relabelled f M M' ∧
       (∀ q, q ∈ pending.*1.*1 → f q = q) ∧
       (∀ q t, (q, t) ∈ names → q ∉ pending.*1.*1 →
               ∃ k, f q = Str (temp_name k t)).

(** During the third loop: the labels already visited have lost their
    placeholder prefixes, the others are as the second loop left
    them ([f2]). *)
Definition stripping_inv (M : AP state) (names : list (state * string))
    (f2 : state → state) (visited : list state) (M' : AP state) : Prop :=
  ∃ f, relabelled f M M' ∧
       ∀ q t, (q, t) ∈ names →
              (f2 q ∈ visited → f q = Str t) ∧ (f2 q ∉ visited → f q = f2 q).

(** The number of the first name that [normalize_states] gives: "q0" is
    for the initial state. *)
Definition first_index (M : AP state) : nat :=
  match initial_state M with Some _ => 0 | None => 1 end.

(** ** Sessions with the builder *)

(** What a caller does to an automaton between its creation and its use:
    the four operations of the builder and [normalize_states]. *)
Inductive builder_step :=
  | Call (call : builder_call state)
  | NormalizeStates.

Definition perform_step (s : builder_step) (M : AP state)
    : option (result (AP state)) :=
  match s with
  | Call call => Some (perform call M)
  | NormalizeStates => normalize_states M
  end.

(** The steps in turn, up to the first one that raises. *)
Fixpoint run_session (steps : list builder_step) (M : AP state)
    : option (result (AP state)) :=
  match steps with
  | [] => Some (Ok M)
  | s :: rest =>
      match perform_step s M with
      | Some (Ok M') => run_session rest M'
      | other => other
      end
  end.

End normalize.

(** * The automata as objects *)

(** Above, a method takes the automaton and returns the automaton after
    the call.  In the source an automaton is an object whose attributes
    refer to two sets of states, a dict and two sets of symbols, and the
    methods change these in place.  Here is that reading: a heap of sets,
    dicts and objects, references into it, and the methods as programs
    that read and write the heap through the attributes of [self]. *)

(** The states on the heap: names, and the tuples [(q, i)] that the
    complement makes of them. *)
Inductive pyval :=
  | PyStr (s : string)
  | PyTuple (q : pyval) (i : nat).

Fixpoint pyval_encode (v : pyval) : string * list nat :=
  match v with
  | PyStr s => (s, [])
  | PyTuple q i => let '(s, l) := pyval_encode q in (s, i :: l)
  end.

Fixpoint pyval_decode (s : string) (l : list nat) : pyval :=
  match l with
  | [] => PyStr s
  | i :: l' => PyTuple (pyval_decode s l') i
  end.

Global Instance pyval_eq_dec : EqDecision pyval.
Proof. solve_decision. Defined.

Global Instance pyval_countable : Countable pyval.
Proof.
  apply (inj_countable' pyval_encode (λ '(s, l), pyval_decode s l)).
  intros v. induction v as [s|q IH i]; simpl; [done|].
  destruct (pyval_encode q) as [s l]. simpl. by rewrite IH.
Defined.

Module Heap.

Definition loc := nat.

(** The attributes of an automaton: references for the containers, values
    for [initial_state] and [initial_stack_symbol]. *)
Record object := mkObject {
  ref_states : loc;
  attr_initial_state : option pyval;
  ref_final_states : loc;
  ref_transitions : loc;
  ref_input_alphabet : loc;
  ref_stack_alphabet : loc;
  attr_initial_stack_symbol : string
}.

Global Instance object_inhabited : Inhabited object :=
  populate (mkObject 0 None 0 0 0 0 "").

(** The heap: the sets of states, the sets of symbols, the dicts and the
    automata that have been allocated, each kind in the order of its
    allocation; a reference is a position in its list. *)
Record heap := mkHeap {
  state_sets : list (gset pyval);
  symbol_sets : list (gset string);
  dicts : list (gmap (tkey pyval) (pyval * string));
  objects : list object
}.

Definition empty_heap : heap := mkHeap [] [] [] [].

(** A program: from a heap to a result, or an exception, and the heap as
    the program leaves it. *)
Definition hm (A : Type) : Type := heap → result A * heap.

Global Instance hm_ret : MRet hm := λ A a h, (Ok a, h).
Global Instance hm_bind : MBind hm := λ A B f m h,
  match m h with
  | (Ok a, h') => f a h'
  | (Raise e, h') => (Raise e, h')
  end.

Definition raise {A} (e : exn) : hm A := λ h, (Raise e, h).

(** [for x in xs: body] *)
Fixpoint for_ {A} (xs : list A) (body : A → hm unit) : hm unit :=
  match xs with
  | [] => mret ()
  | x :: xs' => body x ;; for_ xs' body
  end.

(** [set()] *)
Definition new_state_set : hm loc := λ h,
  (Ok (length (state_sets h)),
   mkHeap (state_sets h ++ [∅]) (symbol_sets h) (dicts h) (objects h)).

(** [set()], and [s.copy()] for a set [s] of symbols *)
Definition new_symbol_set (s : gset string) : hm loc := λ h,
  (Ok (length (symbol_sets h)),
   mkHeap (state_sets h) (symbol_sets h ++ [s]) (dicts h) (objects h)).

(** [{}] *)
Definition new_dict : hm loc := λ h,
  (Ok (length (dicts h)),
   mkHeap (state_sets h) (symbol_sets h) (dicts h ++ [∅]) (objects h)).

Definition new_object (o : object) : hm loc := λ h,
  (Ok (length (objects h)),
   mkHeap (state_sets h) (symbol_sets h) (dicts h) (objects h ++ [o])).

Definition get_states (l : loc) : hm (gset pyval) := λ h,
  (Ok (state_sets h !!! l), h).
Definition put_states (l : loc) (s : gset pyval) : hm unit := λ h,
  (Ok (), mkHeap (<[l := s]> (state_sets h)) (symbol_sets h) (dicts h) (objects h)).

Definition get_symbols (l : loc) : hm (gset string) := λ h,
  (Ok (symbol_sets h !!! l), h).
Definition put_symbols (l : loc) (s : gset string) : hm unit := λ h,
  (Ok (), mkHeap (state_sets h) (<[l := s]> (symbol_sets h)) (dicts h) (objects h)).

Definition get_dict (l : loc) : hm (gmap (tkey pyval) (pyval * string)) := λ h,
  (Ok (dicts h !!! l), h).
Definition put_dict (l : loc) (d : gmap (tkey pyval) (pyval * string))
    : hm unit := λ h,
  (Ok (), mkHeap (state_sets h) (symbol_sets h) (<[l := d]> (dicts h)) (objects h)).

Definition get_object (self : loc) : hm object := λ h,
  (Ok (objects h !!! self), h).
Definition put_object (self : loc) (o : object) : hm unit := λ h,
  (Ok (), mkHeap (state_sets h) (symbol_sets h) (dicts h) (<[self := o]> (objects h))).

(** [self.attribute], read *)
Definition attr {A} (attribute : object → A) (self : loc) : hm A :=
  o ← get_object self; mret (attribute o).

(** [self.initial_state = state] *)
Definition set_initial_state (self : loc) (state : pyval) : hm unit :=
  o ← get_object self;
  put_object self
    (mkObject (ref_states o) (Some state) (ref_final_states o)
       (ref_transitions o) (ref_input_alphabet o) (ref_stack_alphabet o)
       (attr_initial_stack_symbol o)).

(** [self.initial_stack_symbol = symbol] *)
Definition set_initial_stack_symbol_attr (self : loc) (symbol : string)
    : hm unit :=
  o ← get_object self;
  put_object self
    (mkObject (ref_states o) (attr_initial_state o) (ref_final_states o)
       (ref_transitions o) (ref_input_alphabet o) (ref_stack_alphabet o) symbol).

(** [self.input_alphabet = <the set at l>] *)
Definition set_input_alphabet (self : loc) (l : loc) : hm unit :=
  o ← get_object self;
  put_object self
    (mkObject (ref_states o) (attr_initial_state o) (ref_final_states o)
       (ref_transitions o) l (ref_stack_alphabet o)
       (attr_initial_stack_symbol o)).

(** [self.stack_alphabet = <the set at l>] *)
Definition set_stack_alphabet (self : loc) (l : loc) : hm unit :=
  o ← get_object self;
  put_object self
    (mkObject (ref_states o) (attr_initial_state o) (ref_final_states o)
       (ref_transitions o) (ref_input_alphabet o) l
       (attr_initial_stack_symbol o)).

(** [APDC()]: [AP.__init__], then [APD.__init__], which binds
    [transitions] to a second empty dict. *)
Definition __init__ : hm loc :=
  states ← new_state_set;
  final_states ← new_state_set;
  _ ← new_dict;
  input_alphabet ← new_symbol_set ∅;
  stack_alphabet ← new_symbol_set ∅;
  transitions ← new_dict;
  new_object
    (mkObject states None final_states transitions input_alphabet
       stack_alphabet SpecialStackSymbol.EMPTY).

(** [AP.add_state] *)
Definition add_state (self : loc) (state : pyval) (final : bool) : hm unit :=
  l ← attr ref_states self;
  states ← get_states l;
  if bool_decide (state ∈ states) then
    raise (ValueError state_already_present)
  else
    l ← attr ref_states self;
    states ← get_states l;
    put_states l (states ∪ {[state]});;
    if final then
      l ← attr ref_final_states self;
      final_states ← get_states l;
      put_states l (final_states ∪ {[state]})
    else mret ().

(** [AP.mark_initial_state] *)
Definition mark_initial_state (self : loc) (state : pyval) : hm unit :=
  l ← attr ref_states self;
  states ← get_states l;
  if bool_decide (state ∈ states) then set_initial_state self state
  else raise (ValueError state_not_present).

(** [AP.set_initial_stack_symbol] *)
Definition set_initial_stack_symbol (self : loc) (symbol : string) : hm unit :=
  set_initial_stack_symbol_attr self symbol;;
  l ← attr ref_stack_alphabet self;
  stack_alphabet ← get_symbols l;
  put_symbols l (stack_alphabet ∪ {[symbol]}).

Section methods.
Context `{IterOrder}.

(** [self.stack_alphabet.add(symbol)] *)
Definition add_stack_symbol (self : loc) (symbol : string) : hm unit :=
  l ← attr ref_stack_alphabet self;
  stack_alphabet ← get_symbols l;
  put_symbols l (stack_alphabet ∪ {[symbol]}).

(** [APD.add_transition] *)
Definition add_transition (self : loc) (state new_state : pyval)
    (input_symbol : option string) (stack_top stack_push : string) : hm unit :=
  l ← attr ref_states self;
  states ← get_states l;
  if negb (bool_decide (state ∈ states)) then
    raise (ValueError state_not_present)
  else
    l ← attr ref_states self;
    states ← get_states l;
    if negb (bool_decide (new_state ∈ states)) then
      raise (ValueError state_not_present)
    else
      t ← attr ref_transitions self;
      transitions ← get_dict t;
      if bool_decide (is_Some (transitions !! (state, input_symbol, stack_top)))
      then raise (ValueError transition_exists)
      else
        match input_symbol with
        | Some _ =>
            t ← attr ref_transitions self;
            transitions ← get_dict t;
            if bool_decide (is_Some (transitions !! (state, None, stack_top)))
            then raise (ValueError lambda_transition_exists)
            else mret ()
        | None =>
            a ← attr ref_input_alphabet self;
            input_alphabet ← get_symbols a;
            t ← attr ref_transitions self;
            transitions ← get_dict t;
            if existsb
                 (λ symbol,
                    bool_decide
                      (is_Some (transitions !! (state, Some symbol, stack_top))))
                 (set_iter input_alphabet)
            then raise (ValueError symbol_transition_exists)
            else mret ()
        end;;
        t ← attr ref_transitions self;
        transitions ← get_dict t;
        put_dict t
          (<[(state, input_symbol, stack_top) := (new_state, stack_push)]>
             transitions);;
        match input_symbol with
        | Some symbol =>
            a ← attr ref_input_alphabet self;
            input_alphabet ← get_symbols a;
            put_symbols a (input_alphabet ∪ {[symbol]})
        | None => mret ()
        end;;
        add_stack_symbol self stack_top;;
        for_ (chars stack_push) (add_stack_symbol self).

(** [APD.get_transition] *)
Definition get_transition (self : loc) (state : pyval)
    (input_symbol : option string) (stack_top : string)
    : hm (option (pyval * string)) :=
  t ← attr ref_transitions self;
  transitions ← get_dict t;
  mret (transitions !! (state, input_symbol, stack_top)).

(** The lambda half of [APD.step]. *)
Definition step_lambda (self : loc) (state : pyval) (remaining_input : string)
    (stack : list string) (stack_top : string) : hm (option (config pyval)) :=
  transition ← get_transition self state None stack_top;
  match transition with
  | Some (new_state, stack_string) =>
      mret (Some (new_state, remaining_input, replace_top stack stack_string))
  | None => mret None
  end.

(** [APD.step]; the new stack is a new list ([stack[:-1]]), the caller's
    is not touched. *)
Definition step (self : loc) (state : pyval) (remaining_input : string)
    (stack : list string) : hm (option (config pyval)) :=
  match last stack with
  | None => mret None
  | Some stack_top =>
      match uncons remaining_input with
      | Some (input_symbol, rest) =>
          transition ← get_transition self state (Some input_symbol) stack_top;
          match transition with
          | Some (new_state, stack_string) =>
              mret (Some (new_state, rest, replace_top stack stack_string))
          | None => step_lambda self state remaining_input stack stack_top
          end
      | None => step_lambda self state remaining_input stack stack_top
      end
  end.

(** The acceptance test, at the head of the loop and after it. *)
Definition accepting (self : loc) (acceptance_mode : string) (state : pyval)
    (remaining_input : string) (stack : list string) : hm bool :=
  if consumed remaining_input then
    if bool_decide (acceptance_mode = "final_state") then
      l ← attr ref_final_states self;
      final_states ← get_states l;
      mret (bool_decide (state ∈ final_states))
    else if bool_decide (acceptance_mode = "empty_stack") then
      mret (is_empty stack)
    else mret false
  else mret false.

Fixpoint accepts_loop (self : loc) (acceptance_mode : string) (fuel : nat)
    (state : pyval) (remaining_input : string) (stack : list string)
    : hm bool :=
  match fuel with
  | O => accepting self acceptance_mode state remaining_input stack
  | S fuel' =>
      now ← accepting self acceptance_mode state remaining_input stack;
      if now : bool then mret true
      else
        result ← step self state remaining_input stack;
        match result with
        | None => accepting self acceptance_mode state remaining_input stack
        | Some (state', remaining_input', stack') =>
            accepts_loop self acceptance_mode fuel' state' remaining_input' stack'
        end
  end.

(** [APD.accepts]; without an initial state the run starts in [None] and
    rejects, as above. *)
Definition accepts (self : loc) (word acceptance_mode : string) : hm bool :=
  state ← attr attr_initial_state self;
  symbol ← attr attr_initial_stack_symbol self;
  match state with
  | Some q0 =>
      accepts_loop self acceptance_mode (max_steps word) q0 word [symbol]
  | None => mret false
  end.

(** [APDC.crear_automata_complemento] after its first line: the states,
    alphabets and transitions of the new automaton [C].  The attributes
    of [self] are read where the source reads them; each [for] loop goes
    through the container as it is when the loop starts. *)
Definition fill_complement (self C : loc) : hm loc :=
  l ← attr ref_states self;
  states ← get_states l;
  for_ (set_iter states) (λ q,
    add_state C (PyTuple q 0) false;;
    add_state C (PyTuple q 1) false;;
    add_state C (PyTuple q 2) true);;
  initial_state ← attr attr_initial_state self;
  l ← attr ref_final_states self;
  final_states ← get_states l;
  match initial_state with
  | Some q0 =>
      if bool_decide (q0 ∈ final_states) then
        mark_initial_state C (PyTuple q0 1)
      else mark_initial_state C (PyTuple q0 0)
  | None => raise (ValueError state_not_present)
  end;;
  a ← attr ref_input_alphabet self;
  input_alphabet ← get_symbols a;
  copy ← new_symbol_set input_alphabet;
  set_input_alphabet C copy;;
  a ← attr ref_stack_alphabet self;
  stack_alphabet ← get_symbols a;
  copy ← new_symbol_set stack_alphabet;
  set_stack_alphabet C copy;;
  symbol ← attr attr_initial_stack_symbol self;
  set_initial_stack_symbol C symbol;;
  t ← attr ref_transitions self;
  transitions ← get_dict t;
  for_ (dict_iter transitions)
    (λ '((q, input_symbol, stack_symbol), (p, stack_push)),
       match input_symbol with
       | None => mret ()
       | Some _ =>
           l ← attr ref_final_states self;
           final_states ← get_states l;
           let i := if bool_decide (p ∈ final_states) then 1 else 0 in
           add_transition C (PyTuple q 1) (PyTuple p i) input_symbol
             stack_symbol stack_push;;
           add_transition C (PyTuple q 2) (PyTuple p i) input_symbol
             stack_symbol stack_push
       end);;
  t ← attr ref_transitions self;
  transitions ← get_dict t;
  for_ (dict_iter transitions)
    (λ '((q, input_symbol, stack_symbol), (p, stack_push)),
       match input_symbol with
       | Some _ => mret ()
       | None =>
           l ← attr ref_final_states self;
           final_states ← get_states l;
           let i := if bool_decide (p ∈ final_states) then 1 else 0 in
           add_transition C (PyTuple q 1) (PyTuple p 1) None
             stack_symbol stack_push;;
           add_transition C (PyTuple q 0) (PyTuple p i) None
             stack_symbol stack_push
       end);;
  l ← attr ref_states self;
  states ← get_states l;
  for_ (set_iter states) (λ q,
    a ← attr ref_stack_alphabet self;
    stack_alphabet ← get_symbols a;
    for_ (set_iter stack_alphabet) (λ stack_symbol,
      t ← attr ref_transitions self;
      transitions ← get_dict t;
      if negb (bool_decide (is_Some (transitions !! (q, None, stack_symbol))))
      then
        add_transition C (PyTuple q 0) (PyTuple q 2) None
          stack_symbol stack_symbol
      else mret ()));;
  mret C.

(** [APDC.crear_automata_complemento] *)
Definition crear_automata_complemento (self : loc) : hm loc :=
  C ← __init__;
  fill_complement self C.

(** A call of the builder on the object [self]. *)
Definition perform (self : loc) (call : builder_call pyval) : hm unit :=
  match call with
  | AddState state final => add_state self state final
  | MarkInitialState state => mark_initial_state self state
  | SetInitialStackSymbol symbol => set_initial_stack_symbol self symbol
  | AddTransition state new_state input_symbol stack_top stack_push =>
      add_transition self state new_state input_symbol stack_top stack_push
  end.

(** Calls of the builder on [self], one after the other; the caller goes
    on after a call that raised. *)
Fixpoint session (self : loc) (calls : list (builder_call pyval)) (h : heap)
    : heap :=
  match calls with
  | [] => h
  | call :: rest => session self rest (perform self call h).2
  end.

End methods.

(** The automaton that the attributes of [self] describe. *)
Definition view (h : heap) (self : loc) : AP pyval :=
  let o := objects h !!! self in
  {| states := state_sets h !!! ref_states o;
     initial_state := attr_initial_state o;
     final_states := state_sets h !!! ref_final_states o;
     transitions := dicts h !!! ref_transitions o;
     input_alphabet := symbol_sets h !!! ref_input_alphabet o;
     stack_alphabet := symbol_sets h !!! ref_stack_alphabet o;
     initial_stack_symbol := attr_initial_stack_symbol o |}.

(** [self] is an automaton of the heap: an allocated object whose
    attributes refer to allocated containers. *)
Definition allocated (h : heap) (self : loc) : Prop :=
  self < length (objects h) ∧
  ref_states (objects h !!! self) < length (state_sets h) ∧
  ref_final_states (objects h !!! self) < length (state_sets h) ∧
  ref_transitions (objects h !!! self) < length (dicts h) ∧
  ref_input_alphabet (objects h !!! self) < length (symbol_sets h) ∧
  ref_stack_alphabet (objects h !!! self) < length (symbol_sets h).

(** [self] is an automaton of the heap with five containers of its own:
    its two sets of states are two sets, and so are its two alphabets. *)
Definition well_formed (h : heap) (self : loc) : Prop :=
  allocated h self ∧
  ref_states (objects h !!! self) ≠ ref_final_states (objects h !!! self) ∧
  ref_input_alphabet (objects h !!! self)
  ≠ ref_stack_alphabet (objects h !!! self).

(** Everything allocated in [h] is in [h'] what it is in [h]. *)
Definition extends (h h' : heap) : Prop :=
  state_sets h `prefix_of` state_sets h' ∧
  symbol_sets h `prefix_of` symbol_sets h' ∧
  dicts h `prefix_of` dicts h' ∧
  objects h `prefix_of` objects h'.

(** The containers of [o] were allocated after [h]. *)
Definition fresh_refs (h : heap) (o : object) : Prop :=
  length (state_sets h) ≤ ref_states o ∧
  length (state_sets h) ≤ ref_final_states o ∧
  length (dicts h) ≤ ref_transitions o ∧
  length (symbol_sets h) ≤ ref_input_alphabet o ∧
  length (symbol_sets h) ≤ ref_stack_alphabet o.

(** [h'] is a heap after [h] in which the object [C] and its containers
    are new. *)
Definition separate (h : heap) (C : loc) (h' : heap) : Prop :=
  extends h h' ∧ length (objects h) ≤ C ∧ fresh_refs h (objects h' !!! C).

(** Two automata without a container in common. *)
Definition disjoint_objects (h : heap) (a b : loc) : Prop :=
  let oa := objects h !!! a in
  let ob := objects h !!! b in
  a ≠ b ∧
  ref_states oa ≠ ref_states ob ∧ ref_states oa ≠ ref_final_states ob ∧
  ref_final_states oa ≠ ref_states ob ∧
  ref_final_states oa ≠ ref_final_states ob ∧
  ref_transitions oa ≠ ref_transitions ob ∧
  ref_input_alphabet oa ≠ ref_input_alphabet ob ∧
  ref_input_alphabet oa ≠ ref_stack_alphabet ob ∧
  ref_stack_alphabet oa ≠ ref_input_alphabet ob ∧
  ref_stack_alphabet oa ≠ ref_stack_alphabet ob.

(** A program that leaves the heap as it finds it. *)
Definition reads {A} (m : hm A) : Prop := ∀ h, (m h).2 = h.

(** A program that raises nothing. *)
Definition never_raises {A} (m : hm A) : Prop :=
  ∀ h e h', m h ≠ (Raise e, h').

(** A program that, when it raises, has changed nothing. *)
Definition all_or_nothing {A} (m : hm A) : Prop :=
  ∀ h e h', m h = (Raise e, h') → h' = h.

(** A program keeps [I], and the value it returns satisfies [Φ]. *)
Definition spec {A} (I : heap → Prop) (m : hm A) (Φ : A → Prop) : Prop :=
  ∀ h, I h → I (m h).2 ∧ ∀ a, (m h).1 = Ok a → Φ a.

End Heap.

(** ** The automata of the test files *)

Module Examples.
Local Existing Instance canonical_order.

Definition unwrap {Q} `{Countable Q} (r : result (AP Q)) : AP Q :=
  match r with Ok M => M | Raise _ => new_AP end.

Definition returns {A} (r : result A) : bool :=
  match r with Ok _ => true | Raise _ => false end.

(** [test_complemento_lenguaje_simple]: { a^n b | n >= 1 } with a trap
    state. *)
Definition anb_calls : list (builder_call string) :=
  [ AddState "q0" false; AddState "q1" false; AddState "q2" true;
    AddState "trap" false;
    MarkInitialState "q0";
    SetInitialStackSymbol "Z";
    AddTransition "q0" "q1" (Some "a") "Z" "AZ";
    AddTransition "q1" "q1" (Some "a") "Z" "AZ";
    AddTransition "q1" "q1" (Some "a") "A" "AA";
    AddTransition "q1" "q2" (Some "b") "Z" "Z";
    AddTransition "q1" "q2" (Some "b") "A" "A";
    AddTransition "q0" "trap" (Some "b") "Z" "Z";
    AddTransition "q2" "trap" (Some "a") "Z" "Z";
    AddTransition "q2" "trap" (Some "b") "Z" "Z";
    AddTransition "q2" "trap" (Some "a") "A" "A";
    AddTransition "q2" "trap" (Some "b") "A" "A";
    AddTransition "trap" "trap" (Some "a") "Z" "Z";
    AddTransition "trap" "trap" (Some "b") "Z" "Z";
    AddTransition "trap" "trap" (Some "a") "A" "A";
    AddTransition "trap" "trap" (Some "b") "A" "A" ].

Definition anb : AP string := unwrap (build anb_calls).

Definition anb_complement : AP (string * nat) :=
  unwrap (crear_automata_complemento anb).

(** [test_apdc] without its call to [mark_initial_state]. *)
Definition unmarked_calls : list (builder_call string) :=
  [ AddState "q0" false; AddState "q1" false; AddState "qf" true;
    SetInitialStackSymbol "Z";
    AddTransition "q0" "q0" (Some "a") "Z" "AZ";
    AddTransition "q0" "q0" (Some "a") "A" "AA";
    AddTransition "q0" "q1" (Some "b") "A" "";
    AddTransition "q1" "q1" (Some "b") "A" "";
    AddTransition "q1" "qf" None "Z" "Z" ].

Definition unmarked : AP string := unwrap (build unmarked_calls).

(** A continuous automaton without lambda loops whose run on the empty
    word makes 1024 lambda moves before it halts: it pushes "0", then
    replaces each digit by two copies of the next one, and pops the
    "9"s.  It accepts the words a, aa, aaa, ... *)
Definition doubling_calls : list (builder_call string) :=
  [ AddState "q0" false; AddState "q1" true;
    MarkInitialState "q0";
    SetInitialStackSymbol "Z";
    AddTransition "q0" "q0" None "Z" "0Y";
    AddTransition "q0" "q0" None "0" "11";
    AddTransition "q0" "q0" None "1" "22";
    AddTransition "q0" "q0" None "2" "33";
    AddTransition "q0" "q0" None "3" "44";
    AddTransition "q0" "q0" None "4" "55";
    AddTransition "q0" "q0" None "5" "66";
    AddTransition "q0" "q0" None "6" "77";
    AddTransition "q0" "q0" None "7" "88";
    AddTransition "q0" "q0" None "8" "99";
    AddTransition "q0" "q0" None "9" "";
    AddTransition "q0" "q1" (Some "a") "Y" "Y";
    AddTransition "q1" "q1" (Some "a") "Y" "Y" ].

Definition doubling : AP string := unwrap (build doubling_calls).

Definition doubling_complement : AP (string * nat) :=
  unwrap (crear_automata_complemento doubling).

(** A continuous automaton for the language { a } whose initial stack
    symbol has two characters. *)
Definition two_char_calls : list (builder_call string) :=
  [ AddState "q0" false; AddState "q1" true; AddState "trap" false;
    MarkInitialState "q0";
    SetInitialStackSymbol "Z0";
    AddTransition "q0" "q1" (Some "a") "Z0" "Y";
    AddTransition "q1" "trap" (Some "a") "Y" "Y";
    AddTransition "trap" "trap" (Some "a") "Y" "Y" ].

Definition two_char : AP string := unwrap (build two_char_calls).

Definition two_char_complement : AP (string * nat) :=
  unwrap (crear_automata_complemento two_char).

(** An automaton that keeps the default initial stack symbol "⊥" and
    reads the letter "é" (U+00E9): it accepts the word "é" and falls
    into a trap state on longer words. *)
Definition accented_calls : list (builder_call string) :=
  [ AddState "q0" false; AddState "q1" true; AddState "trap" false;
    MarkInitialState "q0";
    AddTransition "q0" "q1" (Some "é")
      SpecialStackSymbol.EMPTY SpecialStackSymbol.EMPTY;
    AddTransition "q1" "trap" (Some "é")
      SpecialStackSymbol.EMPTY SpecialStackSymbol.EMPTY;
    AddTransition "trap" "trap" (Some "é")
      SpecialStackSymbol.EMPTY SpecialStackSymbol.EMPTY ].

Definition accented : AP string := unwrap (build accented_calls).

Definition accented_complement : AP (string * nat) :=
  unwrap (crear_automata_complemento accented).

(** The configurations the run of [doubling] passes through. *)
Definition digits : list string :=
  ["0"; "1"; "2"; "3"; "4"; "5"; "6"; "7"; "8"; "9"].

Definition doubling_reach (c : config string) : Prop :=
  let '(q, _, stack) := c in
  (q = "q0" ∧ stack = ["Z"]) ∨
  (q = "q0" ∧ ∃ ds, stack = "Y" :: ds ∧ Forall (λ d, d ∈ digits) ds) ∨
  (q = "q1" ∧ stack = ["Y"]).

(** The configurations the run of [two_char] passes through. *)
Definition two_char_reach (c : config string) : Prop :=
  let '(q, _, stack) := c in
  (q = "q0" ∧ stack = ["Z0"]) ∨ (q = "q1" ∧ stack = ["Y"]) ∨
  (q = "trap" ∧ stack = ["Y"]).

(** The automaton of [test_anbn] (a^n b^n, n >= 1) under state names
    that make [normalize_states] meet a cycle and an occupied
    placeholder: the initial state is called "q1", another state "q0"
    and the accepting state "temp:q0". *)
Definition cycle_calls : list (builder_call (hashable nat)) :=
  [ AddState (Str "q1") false; AddState (Str "q0") false;
    AddState (Str "temp:q0") true;
    MarkInitialState (Str "q1");
    SetInitialStackSymbol "Z";
    AddTransition (Str "q1") (Str "q1") (Some "a") "Z" "AZ";
    AddTransition (Str "q1") (Str "q1") (Some "a") "A" "AA";
    AddTransition (Str "q1") (Str "q0") (Some "b") "A" "";
    AddTransition (Str "q0") (Str "q0") (Some "b") "A" "";
    AddTransition (Str "q0") (Str "temp:q0") None "Z" "Z" ].

Definition cycle : AP (hashable nat) := unwrap (build cycle_calls).

(** A session that builds [cycle] and normalizes it. *)
Definition cycle_session : list (@builder_step nat) :=
  (Call <$> cycle_calls) ++ [NormalizeStates].

Definition unwrap_session {Q} `{Countable Q} (r : option (result (AP Q)))
    : AP Q :=
  match r with Some (Ok M) => M | _ => new_AP end.

Definition completes {A} (r : option (result A)) : bool :=
  match r with Some (Ok _) => true | _ => false end.

Definition cycle_normalized : AP (hashable nat) :=
  unwrap_session (run_session cycle_session new_AP).

(** The automaton [anb] as an object: the calls of [anb_calls] on a new
    automaton, the first object of an empty heap. *)
Definition to_py (call : builder_call string) : builder_call pyval :=
  match call with
  | AddState state final => AddState (PyStr state) final
  | MarkInitialState state => MarkInitialState (PyStr state)
  | SetInitialStackSymbol symbol => SetInitialStackSymbol symbol
  | AddTransition state new_state input_symbol stack_top stack_push =>
      AddTransition (PyStr state) (PyStr new_state) input_symbol stack_top
        stack_push
  end.

Definition anb_heap : Heap.heap :=
  Heap.session 0 (to_py <$> anb_calls) (Heap.__init__ Heap.empty_heap).2.

(** [anb] before its transitions, and with the first of them. *)
Definition anb_registry : AP string := unwrap (build (take 6 anb_calls)).

Definition anb_one_transition : AP string :=
  unwrap (add_transition "q0" "q1" (Some "a") "Z" "AZ" anb_registry).

(** The complement of [anb], built going through the sets and the dict
    backwards. *)
Definition anb_complement_reversed : AP (string * nat) :=
  unwrap (@crear_automata_complemento _ _ _ reversed_order anb).

(** The stacks of [anb]: "Z" under some "A"s. *)
Definition anb_stack (k : nat) : list string := "Z" :: replicate k "A".

Definition anb_states : list string := ["q0"; "q1"; "q2"; "trap"].

(** [test_anbn]: the automaton for { a^n b^n | n >= 1 }. *)
Definition anbn_calls : list (builder_call string) :=
  [ AddState "q0" false; AddState "q1" false; AddState "qf" true;
    MarkInitialState "q0";
    SetInitialStackSymbol "Z";
    AddTransition "q0" "q0" (Some "a") "Z" "AZ";
    AddTransition "q0" "q0" (Some "a") "A" "AA";
    AddTransition "q0" "q1" (Some "b") "A" "";
    AddTransition "q1" "q1" (Some "b") "A" "";
    AddTransition "q1" "qf" None "Z" "Z" ].

Definition anbn : AP string := unwrap (build anbn_calls).

(** The word of [n] symbols [c]. *)
Fixpoint power (c : ascii) (n : nat) : string :=
  match n with
  | O => EmptyString
  | S n' => String c (power c n')
  end.

(** The configurations of the run of [anbn] on the word [word]: reading
    the "a"s in q0, reading the "b"s in q1, done in qf. *)
Definition anbn_reach (word : string) (c : config string) : Prop :=
  let '(q, r, stack) := c in
  (q = "q0" ∧ ∃ i, word = power "a" i +:+ r ∧ stack = anb_stack i) ∨
  (q = "q1" ∧ ∃ i j, 1 ≤ j ∧
     word = power "a" (i + j) +:+ power "b" j +:+ r ∧ stack = anb_stack i) ∨
  (q = "qf" ∧ ∃ i, 1 ≤ i ∧
     word = power "a" i +:+ power "b" i +:+ r ∧ stack = anb_stack 0).

End Examples.

(** * Properties *)

(** ** Characters *)

Section characters.
Implicit Types (s c r : string) (a : ascii).

Lemma append_empty_r s : s +:+ "" = s.
Proof.
  induction s as [|a s IH]; [done|].
  change (String a s +:+ "") with (String a (s +:+ "")). by rewrite IH.
Qed.

Lemma split_bytes_spec n s c r :
  split_bytes n s = (c, r) →
  s = c +:+ r ∧ String.length s = String.length c + String.length r.
Proof.
  revert s c r. induction n as [|n IH]; intros s c r Hs; simpl in Hs.
  - by simplify_eq.
  - destruct s as [|a s']; [by simplify_eq|].
    destruct (split_bytes n s') as [c' r'] eqn:Hs'. simplify_eq.
    destruct (IH _ _ _ Hs') as [-> Hlen]. split; [done|].
    simpl. by rewrite Hlen.
Qed.

Lemma split_bytes_all n s c r :
  split_bytes n s = (c, r) → split_bytes n c = (c, "").
Proof.
  revert s c r. induction n as [|n IH]; intros s c r Hs; simpl in Hs.
  - by simplify_eq.
  - destruct s as [|a s']; [by simplify_eq|].
    destruct (split_bytes n s') as [c' r'] eqn:Hs'. simplify_eq.
    simpl. by rewrite (IH _ _ _ Hs').
Qed.

Lemma uncons_None s : uncons s = None ↔ s = "".
Proof.
  destruct s as [|a s']; simpl; [done|].
  by destruct (split_bytes _ s').
Qed.

Lemma uncons_empty : uncons "" = None.
Proof. done. Qed.

(** The first character and the rest make up the string; the character
    is not empty. *)
Lemma uncons_Some s c r :
  uncons s = Some (c, r) →
  s = c +:+ r ∧ c ≠ "" ∧ String.length r < String.length s.
Proof.
  destruct s as [|a s']; simpl; [done|].
  destruct (split_bytes _ s') as [c' r'] eqn:Hs'. intros ?; simplify_eq.
  destruct (split_bytes_spec _ _ _ _ Hs') as [-> Hlen].
  split_and!; [done|done|]. simpl. lia.
Qed.

(** The first character of a string is a string of one character. *)
Lemma uncons_character s c r : uncons s = Some (c, r) → uncons c = Some (c, "").
Proof.
  destruct s as [|a s']; simpl; [done|].
  destruct (split_bytes _ s') as [c' r'] eqn:Hs'. intros ?; simplify_eq.
  simpl. by rewrite (split_bytes_all _ _ _ _ Hs').
Qed.

Lemma uncons_String a s : ∃ c r, uncons (String a s) = Some (String a c, r).
Proof. simpl. destruct (split_bytes _ s) as [c r]. eauto. Qed.

(** A byte that announces no continuation byte, as every byte below 128
    does, is a character of its own. *)
Lemma uncons_ascii a s :
  utf8_width a = 1 → uncons (String a s) = Some (String a "", s).
Proof. intros Hw. simpl. by rewrite Hw. Qed.

Lemma uncons_ascii_inv a s r : uncons s = Some (String a "", r) → s = String a r.
Proof. by intros (-> & _ & _)%uncons_Some. Qed.

Lemma chars_from_enough fuel s :
  String.length s ≤ fuel → chars_from fuel s = chars s.
Proof.
  unfold chars.
  enough (∀ n fuel1 fuel2 s, String.length s ≤ n → n ≤ fuel1 → n ≤ fuel2 →
            chars_from fuel1 s = chars_from fuel2 s) as Hgen.
  { intros Hle. by apply (Hgen (String.length s)). }
  clear. induction n as [|n IH]; intros fuel1 fuel2 s Hs H1 H2.
  - destruct s; [|simpl in Hs; lia]. by destruct fuel1, fuel2.
  - destruct fuel1 as [|fuel1]; [lia|]. destruct fuel2 as [|fuel2]; [lia|].
    simpl. destruct (uncons s) as [[c r]|] eqn:Hu; [|done].
    f_equal. apply uncons_Some in Hu as (_ & _ & Hlt). apply IH; lia.
Qed.

(** The equations of [chars]. *)
Lemma chars_empty : chars "" = [].
Proof. done. Qed.

Lemma chars_uncons s c r : uncons s = Some (c, r) → chars s = c :: chars r.
Proof.
  intros Hu. unfold chars at 1.
  destruct (String.length s) as [|n] eqn:Hlen.
  { destruct s; [done|simpl in Hlen; lia]. }
  simpl. rewrite Hu. f_equal. apply chars_from_enough.
  apply uncons_Some in Hu as (_ & _ & Hlt). lia.
Qed.

Lemma chars_ascii a s :
  utf8_width a = 1 → chars (String a s) = String a "" :: chars s.
Proof. intros Hw. by apply chars_uncons, uncons_ascii. Qed.

Lemma chars_nil s : chars s = [] ↔ s = "".
Proof.
  split; [|by intros ->].
  destruct (uncons s) as [[c r]|] eqn:Hu.
  - by rewrite (chars_uncons _ _ _ Hu).
  - intros _. by apply uncons_None.
Qed.

Lemma len_empty : len "" = 0.
Proof. done. Qed.

Lemma len_uncons s c r : uncons s = Some (c, r) → len s = S (len r).
Proof. intros Hu. unfold len. by rewrite (chars_uncons _ _ _ Hu). Qed.

Lemma len_ascii a s : utf8_width a = 1 → len (String a s) = S (len s).
Proof. intros Hw. by apply (len_uncons _ (String a "")), uncons_ascii. Qed.

(** A string of one character is that character. *)
Lemma chars_single X : len X = 1 → chars X = [X].
Proof.
  unfold len. destruct (uncons X) as [[c r]|] eqn:Hu.
  - rewrite (chars_uncons _ _ _ Hu). simpl. intros [= Hr].
    apply length_zero_iff_nil, chars_nil in Hr. subst r.
    apply uncons_Some in Hu as (-> & _ & _).
    rewrite chars_empty. f_equal. symmetry. apply append_empty_r.
  - apply uncons_None in Hu as ->. done.
Qed.

(** Every character of a string is a string of one character. *)
Lemma chars_characters s c : c ∈ chars s → uncons c = Some (c, "").
Proof.
  remember (String.length s) as n eqn:Hn. revert s Hn.
  induction n as [n IH] using lt_wf_ind. intros s -> Hc.
  destruct (uncons s) as [[c' r]|] eqn:Hu.
  - rewrite (chars_uncons _ _ _ Hu) in Hc.
    apply elem_of_cons in Hc as [-> | Hc].
    + by apply (uncons_character _ _ _ Hu).
    + apply uncons_Some in Hu as (_ & _ & Hlt). by apply (IH _ Hlt r).
  - apply uncons_None in Hu as ->. by apply elem_of_nil in Hc.
Qed.

Lemma chars_len_one s c : c ∈ chars s → len c = 1.
Proof.
  intros Hu%chars_characters. by rewrite (len_uncons _ _ _ Hu).
Qed.

(** Characters of one, two, three and four bytes. *)
Lemma chars_mixed :
  chars "aé€😀b" = ["a"; "é"; "€"; "😀"; "b"] ∧ len "aé€😀b" = 5.
Proof. split; vm_compute; reflexivity. Qed.

(** The default stack symbol is one character. *)
Lemma EMPTY_character :
  chars SpecialStackSymbol.EMPTY = [SpecialStackSymbol.EMPTY] ∧
  len SpecialStackSymbol.EMPTY = 1.
Proof. done. Qed.

End characters.

(** ** The execution engine *)

Section engine.
Context {Q : Type} `{Countable Q}.
Implicit Types (M : AP Q) (c : config Q).

Lemma last_snoc' {A} (l : list A) x : last (l ++ [x]) = Some x.
Proof. apply last_snoc. Qed.

Lemma replace_top_snoc (rest_stack : list string) top push :
  replace_top (rest_stack ++ [top]) push = rest_stack ++ rev (chars push).
Proof. unfold replace_top. by rewrite removelast_last. Qed.

(** *** C7 *)

(** C7. [step] returns no move on an empty stack; with [top] the last
    stack element, a transition on the first character of the input,
    when there is input and such a transition, replaces [top] by the
    characters of the push string with its first character on top and
    consumes that one character; failing that, a lambda transition does
    the same without consuming; failing that, no move.  With push string
    "AZ" on top "Z" the new top is "A" and "Z" lies beneath it; a push
    string of one character, such as the default stack symbol, puts one
    symbol on the stack. *)
Theorem step_spec M state remaining_input :
  step M state remaining_input [] = None ∧
  (∀ rest_stack top,
     (∀ input_symbol rest new_state push,
        uncons remaining_input = Some (input_symbol, rest) →
        get_transition M state (Some input_symbol) top = Some (new_state, push) →
        step M state remaining_input (rest_stack ++ [top])
        = Some (new_state, rest, rest_stack ++ rev (chars push)) ∧
        remaining_input = input_symbol +:+ rest ∧ len input_symbol = 1 ∧
        len remaining_input = S (len rest) ∧
        length (rest_stack ++ rev (chars push)) = length rest_stack + len push) ∧
     (remaining_input = "" ∨
      (∃ input_symbol rest,
         uncons remaining_input = Some (input_symbol, rest) ∧
         get_transition M state (Some input_symbol) top = None) →
      (∀ new_state push,
         get_transition M state None top = Some (new_state, push) →
         step M state remaining_input (rest_stack ++ [top])
         = Some (new_state, remaining_input, rest_stack ++ rev (chars push))) ∧
      (get_transition M state None top = None →
       step M state remaining_input (rest_stack ++ [top]) = None))) ∧
  (∀ rest_stack input_symbol rest new_state,
     uncons remaining_input = Some (input_symbol, rest) →
     get_transition M state (Some input_symbol) "Z" = Some (new_state, "AZ") →
     ∃ stack',
       step M state remaining_input (rest_stack ++ ["Z"])
       = Some (new_state, rest, stack') ∧
       last stack' = Some "A" ∧ last (removelast stack') = Some "Z" ∧
       stack' = rest_stack ++ ["Z"; "A"]) ∧
  (∀ rest_stack top input_symbol rest new_state,
     uncons remaining_input = Some (input_symbol, rest) →
     get_transition M state (Some input_symbol) top
     = Some (new_state, SpecialStackSymbol.EMPTY) →
     step M state remaining_input (rest_stack ++ [top])
     = Some (new_state, rest, rest_stack ++ [SpecialStackSymbol.EMPTY])).
Proof.
  split; [done|]. split_and!.
  - intros rest_stack top. split.
    + intros input_symbol rest new_state push Hu Ht. split_and!.
      * unfold step. rewrite last_snoc, Hu, Ht. by rewrite replace_top_snoc.
      * by apply uncons_Some in Hu as (-> & _ & _).
      * by rewrite (len_uncons _ _ _ (uncons_character _ _ _ Hu)).
      * by apply len_uncons in Hu.
      * by rewrite length_app, length_rev.
    + intros Hno. split.
      * intros new_state push Ht. unfold step, step_lambda.
        rewrite last_snoc.
        destruct Hno as [-> | (a & rest & Hu & Hc)].
        -- rewrite uncons_empty, Ht. by rewrite replace_top_snoc.
        -- rewrite Hu, Hc, Ht. by rewrite replace_top_snoc.
      * intros Ht. unfold step, step_lambda. rewrite last_snoc.
        destruct Hno as [-> | (a & rest & Hu & Hc)].
        -- by rewrite uncons_empty, Ht.
        -- by rewrite Hu, Hc, Ht.
  - intros rest_stack a rest new_state Hu Ht.
    exists (rest_stack ++ ["Z"; "A"]). split_and!; [| | |done].
    + unfold step. rewrite last_snoc, Hu, Ht. by rewrite replace_top_snoc.
    + change (rest_stack ++ ["Z"; "A"]) with (rest_stack ++ [ "Z" ] ++ ["A"]).
      by rewrite app_assoc, last_snoc.
    + change (rest_stack ++ ["Z"; "A"]) with (rest_stack ++ [ "Z" ] ++ ["A"]).
      by rewrite app_assoc, removelast_last, last_snoc.
  - intros rest_stack top a rest new_state Hu Ht.
    unfold step. rewrite last_snoc, Hu, Ht. by rewrite replace_top_snoc.
Qed.

(** *** The acceptance loop *)

Lemma accepts_now_iff M mode state remaining_input stack :
  accepts_now M mode state remaining_input stack = true ↔
  acceptance_predicate M mode (state, remaining_input, stack).
Proof.
  unfold accepts_now, acceptance_predicate.
  destruct remaining_input as [|a r]; simpl; [|naive_solver].
  destruct (decide (mode = "final_state")) as [->|H1].
  { rewrite (bool_decide_true ("final_state" = _)) by done.
    rewrite bool_decide_eq_true. naive_solver. }
  rewrite (bool_decide_false (mode = _)) by done.
  destruct (decide (mode = "empty_stack")) as [->|H2].
  { rewrite (bool_decide_true ("empty_stack" = _)) by done.
    destruct stack; simpl; naive_solver. }
  rewrite (bool_decide_false (mode = _)) by done. naive_solver.
Qed.

Lemma final_check_iff M mode state remaining_input stack :
  final_check M mode state remaining_input stack = true ↔
  acceptance_predicate M mode (state, remaining_input, stack).
Proof. apply accepts_now_iff. Qed.

Lemma acceptance_predicate_dec M mode c :
  Decision (acceptance_predicate M mode c).
Proof.
  destruct c as [[q r] st].
  destruct (accepts_now M mode q r st) eqn:E.
  - left. by apply accepts_now_iff.
  - right. intros Hp%accepts_now_iff. congruence.
Qed.

(** The loop answers [True] exactly when one of the configurations of
    the run, up to the one reached after [fuel] moves, satisfies the
    acceptance predicate. *)
Lemma accepts_loop_true_iff M mode fuel state remaining_input stack :
  accepts_loop M mode fuel state remaining_input stack = true ↔
  ∃ n c, n ≤ fuel ∧ run_steps M n (state, remaining_input, stack) = Some c ∧
         acceptance_predicate M mode c.
Proof.
  revert state remaining_input stack.
  induction fuel as [|fuel IH]; intros q r st; simpl.
  - rewrite final_check_iff. split.
    + intros Hp. exists 0, (q, r, st). by split_and!.
    + intros (n & c & Hn & Hrun & Hp).
      assert (n = 0) as -> by lia. simpl in Hrun. by simplify_eq.
  - destruct (accepts_now M mode q r st) eqn:Enow.
    + split; [|done]. intros _. exists 0, (q, r, st).
      split_and!; [lia|done|by apply accepts_now_iff].
    + assert (¬ acceptance_predicate M mode (q, r, st)) as Hnot.
      { intros Hp%accepts_now_iff. congruence. }
      destruct (step M q r st) as [[[q' r'] st']|] eqn:Estep.
      * rewrite IH. split.
        -- intros (n & c & Hn & Hrun & Hp). exists (S n), c.
           split_and!; [lia| |done]. simpl. by rewrite Estep.
        -- intros (n & c & Hn & Hrun & Hp). destruct n as [|n].
           ++ simpl in Hrun. by simplify_eq.
           ++ simpl in Hrun. rewrite Estep in Hrun.
              exists n, c. split_and!; [lia|done|done].
      * rewrite final_check_iff. split; [done|].
        intros (n & c & Hn & Hrun & Hp). destruct n as [|n].
        -- simpl in Hrun. by simplify_eq.
        -- simpl in Hrun. by rewrite Estep in Hrun.
Qed.

Lemma run_steps_halted M n m c c' :
  run_steps M n c = Some c' → step_config M c' = None →
  n < m → run_steps M m c = None.
Proof.
  revert m c. induction n as [|n IH]; intros m c Hrun Hhalt Hlt.
  - simpl in Hrun. simplify_eq. destruct m; [lia|]. simpl. by rewrite Hhalt.
  - destruct m as [|m]; [lia|]. simpl in *.
    destruct (step_config M c) as [c1|]; [|done].
    apply (IH m c1); [done|done|lia].
Qed.

(** *** C4 *)

(** C4. [accepts] tests the acceptance predicate of the chosen mode on
    every configuration of the run, the initial one included, and
    accepts at the first that satisfies it; when [step] has no move it
    tests the halting configuration and answers accordingly; and a word
    none of whose configurations within [len(word) * 100 + 1000] moves
    satisfies the predicate is rejected, however long the run goes on:
    the bound grows with the number of characters of the word, and a
    configuration that satisfies the predicate is found exactly if it
    is reached within that many moves. *)
Theorem accepts_checks_every_configuration M q0 word mode :
  initial_state M = Some q0 →
  (∀ n c, n ≤ len word * 100 + 1000 →
          run_steps M n (initial_config M q0 word) = Some c →
          acceptance_predicate M mode c →
          accepts M word mode = true) ∧
  (acceptance_predicate M mode (initial_config M q0 word) →
   accepts M word mode = true) ∧
  (∀ n c, n ≤ len word * 100 + 1000 →
          run_steps M n (initial_config M q0 word) = Some c →
          step_config M c = None →
          (∀ k c', k < n → run_steps M k (initial_config M q0 word) = Some c' →
                   ¬ acceptance_predicate M mode c') →
          (accepts M word mode = true ↔ acceptance_predicate M mode c)) ∧
  ((∀ n c, n ≤ len word * 100 + 1000 →
           run_steps M n (initial_config M q0 word) = Some c →
           ¬ acceptance_predicate M mode c) →
   accepts M word mode = false) ∧
  (accepts M word mode = true →
   ∃ n c, n ≤ len word * 100 + 1000 ∧
          run_steps M n (initial_config M q0 word) = Some c ∧
          acceptance_predicate M mode c).
Proof.
  intros Hq0. unfold accepts, max_steps. rewrite Hq0. split_and!.
  - intros n c Hn Hrun Hp. apply accepts_loop_true_iff. by exists n, c.
  - intros Hp. apply accepts_loop_true_iff.
    exists 0, (initial_config M q0 word). split_and!; [lia|done|done].
  - intros n c Hn Hrun Hhalt Hbefore. rewrite accepts_loop_true_iff. split.
    + intros (k & c' & Hk & Hrun' & Hp).
      destruct (decide (k < n)) as [Hlt|Hge].
      { by destruct (Hbefore k c' Hlt Hrun'). }
      destruct (decide (k = n)) as [->|Hne].
      { unfold initial_config in *. by simplify_eq. }
      rewrite (run_steps_halted M n k _ c) in Hrun'; [done|done|done|lia].
    + intros Hp. by exists n, c.
  - intros Hnone. apply not_true_is_false.
    intros (n & c & Hn & Hrun & Hp)%accepts_loop_true_iff.
    by apply (Hnone n c).
  - by intros Hacc%accepts_loop_true_iff.
Qed.

(** *** C5 *)

Lemma accepts_loop_unknown_mode M mode fuel state remaining_input stack :
  mode ≠ "final_state" → mode ≠ "empty_stack" →
  accepts_loop M mode fuel state remaining_input stack = false.
Proof.
  intros H1 H2. apply not_true_is_false.
  intros (n & [[q r] st] & _ & _ & Hp)%accepts_loop_true_iff.
  unfold acceptance_predicate in Hp. naive_solver.
Qed.

(** C5, amended. For a mode that is neither "final_state" nor
    "empty_stack", [accepts] raises nothing: it returns [False], for
    every automaton and every word. *)
Theorem accepts_unknown_mode_returns_false M word mode :
  mode ≠ "final_state" → mode ≠ "empty_stack" →
  accepts_outcome M word mode = Ok false.
Proof.
  intros H1 H2. unfold accepts_outcome, accepts. f_equal.
  destruct (initial_state M); [|done].
  by apply accepts_loop_unknown_mode.
Qed.

(** *** The two kinds of move *)

Lemma step_symbol_intro M q r a rest stack X p s :
  uncons r = Some (a, rest) →
  last stack = Some X →
  transitions M !! (q, Some a, X) = Some (p, s) →
  step M q r stack = Some (p, rest, replace_top stack s).
Proof. intros Hu HX Ht. unfold step, get_transition. by rewrite HX, Hu, Ht. Qed.

Lemma step_lambda_intro M q r stack X p s :
  last stack = Some X →
  transitions M !! (q, None, X) = Some (p, s) →
  (∀ a rest, uncons r = Some (a, rest) →
             transitions M !! (q, Some a, X) = None) →
  step M q r stack = Some (p, r, replace_top stack s).
Proof.
  intros HX Ht Hsym. unfold step, step_lambda, get_transition. rewrite HX.
  destruct (uncons r) as [[a rest]|] eqn:Hu.
  - by rewrite (Hsym a rest eq_refl), Ht.
  - by rewrite Ht.
Qed.

Lemma step_Some_inv M q r stack c' :
  step M q r stack = Some c' →
  ∃ X, last stack = Some X ∧
    ((∃ a rest p s, uncons r = Some (a, rest) ∧
        transitions M !! (q, Some a, X) = Some (p, s) ∧
        c' = (p, rest, replace_top stack s)) ∨
     (∃ p s, transitions M !! (q, None, X) = Some (p, s) ∧
        (∀ a rest, uncons r = Some (a, rest) →
                   transitions M !! (q, Some a, X) = None) ∧
        c' = (p, r, replace_top stack s))).
Proof.
  unfold step, step_lambda, get_transition. intros Hstep.
  destruct (last stack) as [X|]; [|done]. exists X. split; [done|].
  destruct (uncons r) as [[a rest]|] eqn:Hu.
  - destruct (transitions M !! (q, Some a, X)) as [[p s]|] eqn:Hs.
    + left. exists a, rest, p, s. by simplify_eq.
    + right. destruct (transitions M !! (q, None, X)) as [[p s]|]; [|done].
      exists p, s. split_and!; [done| |by simplify_eq].
      intros a' rest' [= <- <-]. done.
  - right. destruct (transitions M !! (q, None, X)) as [[p s]|]; [|done].
    exists p, s. by simplify_eq.
Qed.

Lemma step_None_intro M q stack X :
  transitions M !! (q, None, X) = None → last stack = Some X →
  step M q "" stack = None.
Proof.
  intros Ht HX. unfold step, step_lambda, get_transition. by rewrite HX, Ht.
Qed.

Lemma step_consumed_None_inv M q stack :
  step M q "" stack = None →
  ∀ X, last stack = Some X → transitions M !! (q, None, X) = None.
Proof.
  unfold step, step_lambda, get_transition. intros Hstep X HX.
  rewrite HX in Hstep.
  by destruct (transitions M !! (q, None, X)) as [[p s]|].
Qed.

Lemma replace_top_same stack X :
  last stack = Some X → len X = 1 → replace_top stack X = stack.
Proof.
  intros [rest ->]%last_Some HX. rewrite replace_top_snoc.
  by rewrite chars_single.
Qed.

Lemma run_steps_plus M n m c c1 :
  run_steps M n c = Some c1 →
  run_steps M (n + m) c = run_steps M m c1.
Proof.
  revert c. induction n as [|n IH]; intros c Hn; simpl in *.
  - by simplify_eq.
  - destruct (step_config M c) as [c'|]; [|done]. by apply IH.
Qed.

Lemma run_steps_S M n c c1 :
  step_config M c = Some c1 → run_steps M (S n) c = run_steps M n c1.
Proof. intros Hs. simpl. by rewrite Hs. Qed.

Lemma accepts_loop_false_iff M mode fuel q r stack :
  accepts_loop M mode fuel q r stack = false ↔
  ∀ n c, n ≤ fuel → run_steps M n (q, r, stack) = Some c →
         ¬ acceptance_predicate M mode c.
Proof.
  rewrite <-not_true_iff_false, accepts_loop_true_iff. split.
  - intros Hn n c Hle Hrun Hp. apply Hn. by exists n, c.
  - intros Hall (n & c & Hle & Hrun & Hp). by apply (Hall n c).
Qed.

Lemma step_target_registered M q r stack q' r' stack' :
  endpoints_registered M →
  step M q r stack = Some (q', r', stack') → q' ∈ states M.
Proof.
  intros Hend
    (X & _ & [(a & rest & p & s & _ & Ht & ?)|(p & s & Ht & _ & ?)])%step_Some_inv;
    simplify_eq; by destruct (Hend _ _ _ _ _ Ht).
Qed.

End engine.

(** ** Loops that may raise *)

Section for_each.
Context {A S : Type} (body : A → S → result S).

(** An invariant indexed by the items already handled (latest first). *)
Lemma for_each_inv (I : list A → S → Prop) xs s s' :
  for_each body xs s = Ok s' →
  I [] s →
  (∀ done x rest s1 s2,
     xs = reverse done ++ x :: rest → I done s1 → body x s1 = Ok s2 →
     I (x :: done) s2) →
  I (reverse xs) s'.
Proof.
  intros Hrun Hinit Hstep.
  enough (∀ rest done s1,
            xs = reverse done ++ rest → I done s1 →
            for_each body rest s1 = Ok s' → I (reverse rest ++ done) s') as Hgen.
  { specialize (Hgen xs [] s). rewrite app_nil_r in Hgen. by apply Hgen. }
  induction rest as [|x rest IH]; intros done s1 Hxs HI Hfe; simpl in *.
  - by simplify_eq.
  - destruct (body x s1) as [s2|e] eqn:Hb; simpl in Hfe; [|done].
    rewrite reverse_cons, <-app_assoc. simpl.
    apply (IH (x :: done) s2); [|by eapply Hstep|done].
    rewrite reverse_cons, <-app_assoc. done.
Qed.

Lemma for_each_total (I : list A → S → Prop) xs s :
  I [] s →
  (∀ done x rest s1,
     xs = reverse done ++ x :: rest → I done s1 →
     ∃ s2, body x s1 = Ok s2 ∧ I (x :: done) s2) →
  ∃ s', for_each body xs s = Ok s' ∧ I (reverse xs) s'.
Proof.
  intros Hinit Hstep.
  enough (∀ rest done s1,
            xs = reverse done ++ rest → I done s1 →
            ∃ s', for_each body rest s1 = Ok s' ∧ I (reverse rest ++ done) s')
    as Hgen.
  { specialize (Hgen xs [] s). rewrite app_nil_r in Hgen. by apply Hgen. }
  induction rest as [|x rest IH]; intros done s1 Hxs HI; simpl.
  - by exists s1.
  - destruct (Hstep done x rest s1 Hxs HI) as (s2 & Hb & HI2).
    rewrite Hb. simpl.
    destruct (IH (x :: done) s2) as (s' & Hfe & HI'); [|done|].
    { rewrite reverse_cons, <-app_assoc. done. }
    exists s'. split; [done|]. by rewrite reverse_cons, <-app_assoc.
Qed.

Lemma for_each_not_in_done `{EqDecision A} (xs done rest : list A) x :
  NoDup xs → xs = reverse done ++ x :: rest → x ∉ done.
Proof.
  intros Hnd -> Hin. apply NoDup_app in Hnd as (_ & Hnd & _).
  apply (Hnd x); [by apply elem_of_reverse|left].
Qed.

End for_each.

(** ** The builder *)

Section builder.
Context {Q : Type} `{Countable Q} `{IterOrder}.
Implicit Types (M : AP Q).

Lemma elem_of_set_iter `{Countable A} (X : gset A) x :
  x ∈ set_iter X ↔ x ∈ X.
Proof. by rewrite (set_iter_perm X), elem_of_elements. Qed.

Lemma NoDup_set_iter `{Countable A} (X : gset A) : NoDup (set_iter X).
Proof. rewrite (set_iter_perm X). apply NoDup_elements. Qed.

Lemma elem_of_dict_iter `{Countable K} {V} (m : gmap K V) k v :
  (k, v) ∈ dict_iter m ↔ m !! k = Some v.
Proof. by rewrite (dict_iter_perm m), elem_of_map_to_list. Qed.

Lemma NoDup_dict_iter_keys `{Countable K} {V} (m : gmap K V) :
  NoDup (dict_iter m).*1.
Proof. rewrite (dict_iter_perm m). apply NoDup_fst_map_to_list. Qed.

Lemma symbol_transition_in_alphabet_true M state stack_top :
  symbol_transition_in_alphabet M state stack_top = true ↔
  ∃ a, a ∈ input_alphabet M ∧
       is_Some (transitions M !! (state, Some a, stack_top)).
Proof.
  unfold symbol_transition_in_alphabet. rewrite existsb_exists.
  split; intros (a & Ha & Ht); exists a.
  - apply list_elem_of_In, elem_of_set_iter in Ha.
    by apply bool_decide_eq_true in Ht.
  - split; [by apply list_elem_of_In, elem_of_set_iter|].
    by apply bool_decide_eq_true.
Qed.

Lemma symbol_transition_in_alphabet_false M state stack_top :
  symbol_transition_in_alphabet M state stack_top = false ↔
  ∀ a, a ∈ input_alphabet M → transitions M !! (state, Some a, stack_top) = None.
Proof.
  rewrite <-not_true_iff_false, symbol_transition_in_alphabet_true. split.
  - intros Hn a Ha. apply eq_None_not_Some. intros Hs. apply Hn. eauto.
  - intros Hall (a & Ha & Hs). rewrite (Hall a Ha) in Hs. by destruct Hs.
Qed.

(** *** C6 *)

(** C6. With both endpoints registered, [add_transition] raises the
    non-determinism error exactly when the key is taken, or a symbol
    transition meets a lambda transition on the same (state, stack
    top), or a lambda transition meets some symbol transition there;
    otherwise the transition is stored.  The automaton is one whose
    alphabets record its transitions, as every automaton of the
    library does. *)
Theorem add_transition_conflict M state new_state input_symbol stack_top stack_push :
  alphabet_closed M →
  state ∈ states M → new_state ∈ states M →
  ((∃ e, add_transition state new_state input_symbol stack_top stack_push M = Raise e ∧
         NonDeterministicConflictError e) ↔
   conflict M state input_symbol stack_top) ∧
  (¬ conflict M state input_symbol stack_top →
   add_transition state new_state input_symbol stack_top stack_push M
   = Ok (store_transition state new_state input_symbol stack_top stack_push M)).
Proof.
  intros Hclosed Hs Hn. unfold add_transition, conflict.
  rewrite !bool_decide_true by done. simpl.
  case_bool_decide as Hkey.
  { split; [|tauto]. split; [tauto|]. intros _. eexists. split; [done|].
    unfold NonDeterministicConflictError. tauto. }
  destruct input_symbol as [a|].
  - case_bool_decide as Hlam.
    + split; [|intros []; eauto]. split; [eauto|]. intros _.
      eexists. split; [done|]. unfold NonDeterministicConflictError. tauto.
    + split; [|done]. split.
      * intros (e & ? & _). done.
      * intros [?|[[_ ?]|[? _]]]; done.
  - destruct (symbol_transition_in_alphabet M state stack_top) eqn:Esym.
    + apply symbol_transition_in_alphabet_true in Esym as (a & Ha & Ht).
      split; [|intros []; eauto 6]. split; [eauto 6|]. intros _.
      eexists. split; [done|]. unfold NonDeterministicConflictError. tauto.
    + split; [|done]. split.
      * intros (e & ? & _). done.
      * rewrite symbol_transition_in_alphabet_false in Esym.
        intros [?|[[[? ?] _]|[_ (a & Ha)]]]; [done|done|].
        rewrite Esym in Ha; [by destruct Ha|].
        by apply (Hclosed state (Some a) stack_top).
Qed.

(** *** What a successful [add_transition] does *)

Lemma add_transition_Ok_checks state new_state o X push M M' :
  add_transition state new_state o X push M = Ok M' →
  M' = store_transition state new_state o X push M ∧
  state ∈ states M ∧ new_state ∈ states M ∧
  transitions M !! (state, o, X) = None ∧
  match o with
  | Some _ => transitions M !! (state, None, X) = None
  | None => ∀ a, a ∈ input_alphabet M →
                 transitions M !! (state, Some a, X) = None
  end.
Proof.
  unfold add_transition. intros Hadd.
  case_bool_decide as Hs; simpl in Hadd; [|done].
  case_bool_decide as Hn; simpl in Hadd; [|done].
  case_bool_decide as Hk; [done|].
  apply eq_None_not_Some in Hk.
  destruct o as [a|].
  - case_bool_decide as Hl; [done|]. apply eq_None_not_Some in Hl.
    by simplify_eq.
  - destruct (symbol_transition_in_alphabet M state X) eqn:Hsym; [done|].
    rewrite symbol_transition_in_alphabet_false in Hsym. by simplify_eq.
Qed.

Lemma add_transition_Ok state new_state o X push M M' :
  add_transition state new_state o X push M = Ok M' →
  M' = store_transition state new_state o X push M ∧
  state ∈ states M ∧ new_state ∈ states M ∧
  transitions M !! (state, o, X) = None.
Proof. intros (? & ? & ? & ? & _)%add_transition_Ok_checks. done. Qed.

Lemma add_transition_succeeds state new_state o X push M :
  state ∈ states M → new_state ∈ states M →
  transitions M !! (state, o, X) = None →
  match o with
  | Some _ => transitions M !! (state, None, X) = None
  | None => ∀ a, transitions M !! (state, Some a, X) = None
  end →
  add_transition state new_state o X push M
  = Ok (store_transition state new_state o X push M).
Proof.
  intros Hs Hn Hk Ho. unfold add_transition.
  rewrite !bool_decide_true by done. simpl.
  rewrite bool_decide_false by (rewrite Hk; by intros []).
  destruct o as [a|].
  - rewrite bool_decide_false by (rewrite Ho; by intros []). done.
  - assert (symbol_transition_in_alphabet M state X = false) as ->; [|done].
    apply symbol_transition_in_alphabet_false. auto.
Qed.

Lemma store_transition_lookup state new_state o X push M k v :
  transitions M !! (state, o, X) = None →
  transitions (store_transition state new_state o X push M) !! k = Some v ↔
  (k = (state, o, X) ∧ v = (new_state, push)) ∨ transitions M !! k = Some v.
Proof.
  intros Hk. simpl. destruct (decide (k = (state, o, X))) as [->|Hne].
  - rewrite lookup_insert_eq, Hk. naive_solver.
  - rewrite lookup_insert_ne by done. naive_solver.
Qed.

(** *** [is_deterministic] and the invariant *)

Lemma is_deterministic_true M : deterministic M → is_deterministic M = true.
Proof.
  intros Hdet. unfold is_deterministic. apply forallb_forall.
  intros [[[q o] X] v] Hin%list_elem_of_In%elem_of_dict_iter.
  destruct o as [a|]; [done|]. apply forallb_forall. intros a _.
  apply negb_true_iff, bool_decide_eq_false.
  rewrite (Hdet q X); [by intros []|by eexists].
Qed.

Lemma is_deterministic_sound M :
  alphabet_closed M → is_deterministic M = true → deterministic M.
Proof.
  intros Hclosed Hdet q X [v Hv] a. apply eq_None_not_Some. intros Hs.
  unfold is_deterministic in Hdet. rewrite forallb_forall in Hdet.
  specialize (Hdet ((q, None, X), v)). simpl in Hdet.
  rewrite forallb_forall in Hdet.
  assert (a ∈ input_alphabet M) as Ha by by apply (Hclosed q (Some a) X).
  specialize (Hdet ltac:(by apply list_elem_of_In, elem_of_dict_iter) a
                   ltac:(by apply list_elem_of_In, elem_of_set_iter)).
  apply negb_true_iff, bool_decide_eq_false in Hdet. done.
Qed.

(** *** The invariant of the builder *)

Lemma new_AP_invariant : builder_invariant (new_AP (Q:=Q)).
Proof.
  split_and!.
  - split; [done|]. by intros q0.
  - intros q o X p s Ht. simpl in Ht. by rewrite lookup_empty in Ht.
  - intros q o X [v Hv]. simpl in Hv. by rewrite lookup_empty in Hv.
  - intros q X [v Hv]. simpl in Hv. by rewrite lookup_empty in Hv.
Qed.

Lemma add_state_invariant state final M M' :
  builder_invariant M → add_state state final M = Ok M' →
  builder_invariant M'.
Proof.
  intros ([Hfin Hini] & Hend & Hclosed & Hdet). unfold add_state.
  case_bool_decide; [done|]. intros [= <-]. split_and!.
  - split; simpl.
    + destruct final; set_solver.
    + intros q0 Hq0. apply elem_of_union. left. by apply Hini.
  - intros q o X p s Ht. simpl in *.
    destruct (Hend _ _ _ _ _ Ht). set_solver.
  - done.
  - done.
Qed.

Lemma mark_initial_state_invariant state M M' :
  builder_invariant M → mark_initial_state state M = Ok M' →
  builder_invariant M'.
Proof.
  intros ([Hfin Hini] & Hend & Hclosed & Hdet). unfold mark_initial_state.
  case_bool_decide; [|done]. intros [= <-]. split_and!; [|done..].
  split; [done|]. simpl. by intros q0 [= <-].
Qed.

Lemma set_initial_stack_symbol_invariant symbol M :
  builder_invariant M → builder_invariant (set_initial_stack_symbol symbol M).
Proof.
  intros ([Hfin Hini] & Hend & Hclosed & Hdet). split_and!; [done|done| |done].
  intros q o X Hs. destruct (Hclosed q o X Hs) as [HX Ha].
  split; [|done]. simpl. set_solver.
Qed.

Lemma add_transition_invariant state new_state o X push M M' :
  builder_invariant M →
  add_transition state new_state o X push M = Ok M' →
  builder_invariant M'.
Proof.
  intros ([Hfin Hini] & Hend & Hclosed & Hdet).
  intros (-> & Hs & Hn & Hk & Hchk)%add_transition_Ok_checks. split_and!.
  - done.
  - intros q o' X' p s. simpl. intros Ht.
    apply lookup_insert_Some in Ht as [[? ?]|[_ Ht]]; [by simplify_eq|].
    by eapply Hend.
  - intros q o' X' [v Hv]. simpl in *.
    apply lookup_insert_Some in Hv as [[? ?]|[_ Hv]].
    + simplify_eq. split; [set_solver|]. intros a ->. set_solver.
    + destruct (Hclosed q o' X') as [HX Ha]; [by eexists|].
      split; [set_solver|]. intros a ->. destruct o; set_solver.
  - intros q X' [v Hv] a. simpl in *.
    apply lookup_insert_Some in Hv as [[? ?]|[Hne Hv]].
    + simplify_eq. rewrite lookup_insert_ne by done.
      apply eq_None_not_Some. intros Hsome.
      destruct (Hclosed _ _ _ Hsome) as [_ Ha].
      rewrite (Hchk a) in Hsome; [by destruct Hsome|by apply Ha].
    + destruct (decide ((state, o, X) = (q, Some a, X'))) as [Heq|Hne'].
      * by simplify_eq.
      * rewrite lookup_insert_ne by done. apply Hdet. by eexists.
Qed.

Lemma perform_invariant call M M' :
  builder_invariant M → perform call M = Ok M' → builder_invariant M'.
Proof.
  intros Hinv. destruct call; simpl.
  - by apply add_state_invariant.
  - by apply mark_initial_state_invariant.
  - intros [= <-]. by apply set_initial_stack_symbol_invariant.
  - by apply add_transition_invariant.
Qed.

Lemma build_invariant calls M :
  build calls = Ok M → builder_invariant M.
Proof.
  unfold build. intros Hrun.
  apply (for_each_inv perform (λ _ M, builder_invariant M)) in Hrun; [done|..].
  - apply new_AP_invariant.
  - intros done call rest M1 M2 _ Hinv Hcall. by eapply perform_invariant.
Qed.

End builder.

(** ** The complement constructor *)

Section complement_construction.
Context {Q : Type} `{Countable Q} `{IterOrder}.
Implicit Types (P : AP Q) (C : AP (cstate Q)).

Lemma add_copies_total P :
  ∃ C, for_each add_copies (set_iter (states P)) new_AP = Ok C ∧
       copies_of (set_iter (states P)) C.
Proof.
  destruct (for_each_total add_copies copies_of (set_iter (states P)) new_AP)
    as (C & HC & Hinv).
  - unfold copies_of. simpl. split_and!; [|  |done|done].
    + intros q i. rewrite elem_of_nil. set_solver.
    + intros q i. rewrite elem_of_nil. set_solver.
  - intros done q rest C1 Hxs (Hst & Hfin & Hini & Htr).
    assert (q ∉ done) as Hq.
    { eapply for_each_not_in_done; [apply NoDup_set_iter|done]. }
    unfold add_copies, add_state.
    assert (∀ i, (q, i) ∉ states C1) as Hfresh.
    { intros i [? _]%Hst. done. }
    rewrite bool_decide_false by apply Hfresh. simpl.
    rewrite bool_decide_false by (pose proof (Hfresh 1); set_solver). simpl.
    rewrite bool_decide_false by (pose proof (Hfresh 2); set_solver).
    eexists. split; [done|]. unfold copies_of. simpl. split_and!; [| |done|done].
    + intros q' i. rewrite !elem_of_union, !elem_of_singleton, Hst, elem_of_cons.
      split.
      * intros [[[?|?]|?]|?]; simplify_eq; naive_solver lia.
      * intros [[-> | ?] Hi]; [|naive_solver].
        assert (i = 0 ∨ i = 1 ∨ i = 2) as Hi3 by lia.
        destruct Hi3 as [-> | [-> | ->]]; naive_solver.
    + intros q' i. rewrite elem_of_union, elem_of_singleton, Hfin, elem_of_cons.
      naive_solver.
  - exists C. split; [done|].
    destruct Hinv as (Hst & Hfin & ? & ?). split_and!; [| |done|done].
    + intros q i. rewrite Hst, elem_of_reverse. done.
    + intros q i. rewrite Hfin, elem_of_reverse. done.
Qed.

(** *** Rule (i) *)

Lemma same_registry_store C0 C q p o X s :
  same_registry C0 C → same_registry C0 (store_transition q p o X s C).
Proof. done. Qed.

Lemma rule_i_preserves P C0 C1 C2 done x :
  same_registry C0 C1 → table_is C1 (from_rule_i P (in_list done)) →
  rule_i P x C1 = Ok C2 →
  same_registry C0 C2 ∧ table_is C2 (from_rule_i P (in_list (x :: done))).
Proof.
  intros Hreg Htab Hrule. destruct x as [[[q o] X] [p s]].
  destruct o as [a|]; simpl in Hrule.
  - destruct (add_transition (q, 1) _ _ _ _ C1) as [C'|] eqn:E1;
      simpl in Hrule; [|done].
    apply add_transition_Ok in E1 as (-> & _ & _ & Hk1).
    apply add_transition_Ok in Hrule as (-> & _ & _ & Hk2).
    split; [done|]. intros k v.
    rewrite store_transition_lookup by done.
    rewrite store_transition_lookup by done.
    rewrite (Htab k v). unfold from_rule_i, in_list. split.
    + intros [[-> ->]|[[-> ->]|(q' & a' & X' & p' & s' & Hin & -> & Hk)]].
      * exists q, a, X, p, s. split_and!; [left|done|by right].
      * exists q, a, X, p, s. split_and!; [left|done|by left].
      * exists q', a', X', p', s'. split_and!; [by right|done|done].
    + intros (q' & a' & X' & p' & s' & Hin & -> & Hk).
      apply elem_of_cons in Hin as [Heq|Hin].
      * simplify_eq. destruct Hk as [-> | ->]; eauto.
      * right. right. exists q', a', X', p', s'. done.
  - simplify_eq. split; [done|]. intros k v. rewrite (Htab k v).
    unfold from_rule_i, in_list. split.
    + intros (q' & a' & X' & p' & s' & Hin & -> & Hk).
      exists q', a', X', p', s'. split_and!; [by right|done|done].
    + intros (q' & a' & X' & p' & s' & Hin & -> & Hk).
      apply elem_of_cons in Hin as [Heq|Hin]; [done|].
      exists q', a', X', p', s'. done.
Qed.

Lemma final_index_lt P p : final_index P p < 3.
Proof. unfold final_index. case_bool_decide; lia. Qed.

Lemma rule_i_succeeds P C1 done x :
  endpoints_registered P →
  (∀ q i, (q, i) ∈ states C1 ↔ q ∈ states P ∧ i < 3) →
  table_is C1 (from_rule_i P (in_list done)) →
  transitions P !! x.1 = Some x.2 → x.1 ∉ done.*1 →
  ∃ C2, rule_i P x C1 = Ok C2.
Proof.
  intros Hend Hst Htab Hx Hfresh. destruct x as [[[q o] X] [p s]].
  simpl in Hx, Hfresh. destruct (Hend _ _ _ _ _ Hx) as [Hq Hp].
  destruct o as [a|]; simpl; [|by eexists].
  assert (∀ m, transitions C1 !! ((q, m), Some a, X) = None) as Hkey.
  { intros m. apply eq_None_not_Some. intros [v Hv]. apply Htab in Hv.
    destruct Hv as (q' & a' & X' & p' & s' & Hin & _ & Hk).
    apply Hfresh. apply list_elem_of_fmap. eexists. split; [|exact Hin].
    destruct Hk; by simplify_eq. }
  assert (∀ m, transitions C1 !! ((q, m), None, X) = None) as Hl.
  { intros m. apply eq_None_not_Some. intros [v Hv]. apply Htab in Hv.
    destruct Hv as (q' & a' & X' & p' & s' & _ & _ & Hk).
    destruct Hk; by simplify_eq. }
  rewrite add_transition_succeeds; simpl.
  - rewrite add_transition_succeeds; simpl; [by eexists|..].
    + apply Hst. split; [done|lia].
    + apply Hst. split; [done|apply final_index_lt].
    + rewrite lookup_insert_ne by congruence. apply Hkey.
    + rewrite lookup_insert_ne by congruence. apply Hl.
  - apply Hst. split; [done|lia].
  - apply Hst. split; [done|apply final_index_lt].
  - apply Hkey.
  - apply Hl.
Qed.

(** *** Rule (ii) *)

Lemma rule_ii_preserves P C0 C1 C2 done x :
  same_registry C0 C1 →
  table_is C1 (λ k v, from_rule_i P (in_table P) k v ∨
                      from_rule_ii P (in_list done) k v) →
  rule_ii P x C1 = Ok C2 →
  same_registry C0 C2 ∧
  table_is C2 (λ k v, from_rule_i P (in_table P) k v ∨
                      from_rule_ii P (in_list (x :: done)) k v).
Proof.
  intros Hreg Htab Hrule. destruct x as [[[q o] X] [p s]].
  destruct o as [a|]; simpl in Hrule.
  - simplify_eq. split; [done|]. intros k v. rewrite (Htab k v).
    unfold from_rule_ii, in_list. split.
    + intros [?|(q' & X' & p' & s' & Hin & Hk)]; [by left|right].
      exists q', X', p', s'. split; [by right|done].
    + intros [?|(q' & X' & p' & s' & Hin & Hk)]; [by left|right].
      apply elem_of_cons in Hin as [Heq|Hin]; [done|].
      exists q', X', p', s'. done.
  - destruct (add_transition (q, 1) _ _ _ _ C1) as [C'|] eqn:E1;
      simpl in Hrule; [|done].
    apply add_transition_Ok in E1 as (-> & _ & _ & Hk1).
    apply add_transition_Ok in Hrule as (-> & _ & _ & Hk2).
    split; [done|]. intros k v.
    rewrite store_transition_lookup by done.
    rewrite store_transition_lookup by done.
    rewrite (Htab k v). unfold from_rule_ii, in_list. split.
    + intros [[-> ->]|[[-> ->]|[?|(q' & X' & p' & s' & Hin & Hk)]]].
      * right. exists q, X, p, s. split; [left|by right].
      * right. exists q, X, p, s. split; [left|by left].
      * by left.
      * right. exists q', X', p', s'. split; [by right|done].
    + intros [?|(q' & X' & p' & s' & Hin & Hk)]; [by eauto|].
      apply elem_of_cons in Hin as [Heq|Hin].
      * simplify_eq. destruct Hk as [[-> ->] | [-> ->]]; eauto.
      * right. right. right. exists q', X', p', s'. done.
Qed.

Lemma rule_ii_succeeds P C1 done x :
  endpoints_registered P → deterministic P →
  (∀ q i, (q, i) ∈ states C1 ↔ q ∈ states P ∧ i < 3) →
  table_is C1 (λ k v, from_rule_i P (in_table P) k v ∨
                      from_rule_ii P (in_list done) k v) →
  transitions P !! x.1 = Some x.2 → x.1 ∉ done.*1 →
  ∃ C2, rule_ii P x C1 = Ok C2.
Proof.
  intros Hend Hdet Hst Htab Hx Hfresh. destruct x as [[[q o] X] [p s]].
  simpl in Hx, Hfresh. destruct (Hend _ _ _ _ _ Hx) as [Hq Hp].
  destruct o as [a|]; simpl; [by eexists|].
  assert (∀ m, transitions C1 !! ((q, m), None, X) = None) as Hkey.
  { intros m. apply eq_None_not_Some. intros [v Hv]. apply Htab in Hv.
    destruct Hv as [(q' & a' & X' & p' & s' & _ & _ & Hk)
                   |(q' & X' & p' & s' & Hin & Hk)].
    - destruct Hk; by simplify_eq.
    - apply Hfresh. apply list_elem_of_fmap. eexists. split; [|exact Hin].
      destruct Hk as [[? _]|[? _]]; by simplify_eq. }
  assert (∀ m a, transitions C1 !! ((q, m), Some a, X) = None) as Hsym.
  { intros m a. apply eq_None_not_Some. intros [v Hv]. apply Htab in Hv.
    destruct Hv as [(q' & a' & X' & p' & s' & Hin & _ & Hk)
                   |(q' & X' & p' & s' & _ & Hk)].
    - unfold in_table in Hin.
      assert (q' = q ∧ a' = a ∧ X' = X) as (-> & -> & ->)
        by (destruct Hk; by simplify_eq).
      rewrite (Hdet q X) in Hin; [done|by eexists].
    - destruct Hk as [[? _]|[? _]]; by simplify_eq. }
  rewrite add_transition_succeeds; simpl.
  - rewrite add_transition_succeeds; simpl; [by eexists|..].
    + apply Hst. split; [done|lia].
    + apply Hst. split; [done|apply final_index_lt].
    + rewrite lookup_insert_ne by congruence. apply Hkey.
    + intros a. rewrite lookup_insert_ne by congruence. apply Hsym.
  - apply Hst. split; [done|lia].
  - apply Hst. split; [done|lia].
  - apply Hkey.
  - apply Hsym.
Qed.

(** *** Rule (iii) *)

Lemma rule_iii_preserves P C0 C1 C2 (S : Q → string → Prop) q X :
  same_registry C0 C1 →
  table_is C1 (λ k v, rules_i_ii P k v ∨ from_rule_iii P S k v) →
  rule_iii P q X C1 = Ok C2 →
  same_registry C0 C2 ∧
  table_is C2 (λ k v, rules_i_ii P k v ∨
                      from_rule_iii P (λ q' X', S q' X' ∨ (q' = q ∧ X' = X)) k v).
Proof.
  intros Hreg Htab Hrule. unfold rule_iii in Hrule.
  case_bool_decide as Hlam; simpl in Hrule.
  - simplify_eq. split; [done|]. intros k v. rewrite (Htab k v).
    unfold from_rule_iii. split.
    + intros [?|(q' & X' & HS & Hno & -> & ->)]; [by left|right].
      exists q', X'. split_and!; [by left|done|done|done].
    + intros [?|(q' & X' & [HS|[-> ->]] & Hno & -> & ->)]; [by left|right|].
      * exists q', X'. done.
      * rewrite Hno in Hlam. by destruct Hlam.
  - apply eq_None_not_Some in Hlam.
    apply add_transition_Ok in Hrule as (-> & _ & _ & Hk).
    split; [done|]. intros k v.
    rewrite store_transition_lookup by done.
    rewrite (Htab k v). unfold from_rule_iii. split.
    + intros [[-> ->]|[?|(q' & X' & HS & Hno & -> & ->)]].
      * right. exists q, X. split_and!; [by right|done|done|done].
      * by left.
      * right. exists q', X'. split_and!; [by left|done|done|done].
    + intros [?|(q' & X' & [HS|[-> ->]] & Hno & -> & ->)]; [by eauto| |by left].
      right. right. exists q', X'. done.
Qed.

Lemma rule_iii_succeeds P C1 (S : Q → string → Prop) q X :
  (∀ q i, (q, i) ∈ states C1 ↔ q ∈ states P ∧ i < 3) →
  table_is C1 (λ k v, rules_i_ii P k v ∨ from_rule_iii P S k v) →
  q ∈ states P → ¬ S q X →
  ∃ C2, rule_iii P q X C1 = Ok C2.
Proof.
  intros Hst Htab Hq HS. unfold rule_iii.
  case_bool_decide as Hlam; simpl; [by eexists|].
  apply eq_None_not_Some in Hlam.
  rewrite add_transition_succeeds; [by eexists|..].
  - apply Hst. split; [done|lia].
  - apply Hst. split; [done|lia].
  - apply eq_None_not_Some. intros [v Hv]. apply Htab in Hv.
    destruct Hv as [[(q' & a' & X' & p' & s' & _ & _ & Hk)
                    |(q' & X' & p' & s' & Hin & Hk)]
                   |(q' & X' & HS' & _ & Hk & _)].
    + destruct Hk; by simplify_eq.
    + unfold in_table in Hin. destruct Hk as [[? _]|[? _]]; simplify_eq.
    + by simplify_eq.
  - intros a. apply eq_None_not_Some. intros [v Hv]. apply Htab in Hv.
    destruct Hv as [[(q' & a' & X' & p' & s' & _ & _ & Hk)
                    |(q' & X' & p' & s' & Hin & Hk)]
                   |(q' & X' & HS' & _ & Hk & _)].
    + destruct Hk; by simplify_eq.
    + destruct Hk as [[? _]|[? _]]; simplify_eq.
    + by simplify_eq.
Qed.

(** *** The three loops *)

Lemma table_is_iff C (R R' : tkey (cstate Q) → cstate Q * string → Prop) :
  table_is C R → (∀ k v, R k v ↔ R' k v) → table_is C R'.
Proof. intros Htab Hiff k v. by rewrite <-Hiff. Qed.

Lemma from_rule_i_iff P D D' k v :
  (∀ k v, D k v ↔ D' k v) → from_rule_i P D k v ↔ from_rule_i P D' k v.
Proof.
  intros HD. unfold from_rule_i.
  split; intros (q & a & X & p & s & Hin & ?); exists q, a, X, p, s;
    (split; [by apply HD|done]).
Qed.

Lemma from_rule_ii_iff P D D' k v :
  (∀ k v, D k v ↔ D' k v) → from_rule_ii P D k v ↔ from_rule_ii P D' k v.
Proof.
  intros HD. unfold from_rule_ii.
  split; intros (q & X & p & s & Hin & ?); exists q, X, p, s;
    (split; [by apply HD|done]).
Qed.

Lemma from_rule_iii_iff P (S S' : Q → string → Prop) k v :
  (∀ q X, S q X ↔ S' q X) → from_rule_iii P S k v ↔ from_rule_iii P S' k v.
Proof.
  intros HS. unfold from_rule_iii.
  split; intros (q & X & Hin & ?); exists q, X; (split; [by apply HS|done]).
Qed.

Lemma in_list_reverse_dict_iter P k v :
  in_list (reverse (dict_iter (transitions P))) k v ↔ in_table P k v.
Proof.
  unfold in_list, in_table. by rewrite elem_of_reverse, elem_of_dict_iter.
Qed.

Lemma dict_iter_fresh P done x rest :
  dict_iter (transitions P) = reverse done ++ x :: rest →
  transitions P !! x.1 = Some x.2 ∧ x.1 ∉ done.*1.
Proof.
  intros Hxs. split.
  - destruct x as [k v]. apply elem_of_dict_iter. rewrite Hxs.
    apply elem_of_app. right. left.
  - pose proof (NoDup_dict_iter_keys (transitions P)) as Hnd.
    rewrite Hxs, fmap_app, fmap_cons in Hnd.
    apply NoDup_app in Hnd as (_ & Hnd & _).
    intros Hin. apply (Hnd x.1); [|left].
    rewrite fmap_reverse. by apply elem_of_reverse.
Qed.

Lemma inv_i_init P C0 : transitions C0 = ∅ → inv_i P C0 [] C0.
Proof.
  intros Htr. split; [done|]. intros k v. rewrite Htr, lookup_empty.
  split; [done|]. intros (q & a & X & p & s & Hin & _).
  by apply elem_of_nil in Hin.
Qed.

Lemma loop_i_inv P C0 C :
  transitions C0 = ∅ →
  for_each (rule_i P) (dict_iter (transitions P)) C0 = Ok C →
  same_registry C0 C ∧ table_is C (from_rule_i P (in_table P)).
Proof.
  intros Htr Hrun.
  apply (for_each_inv _ (inv_i P C0)) in Hrun as [Hreg Htab].
  - split; [done|]. eapply table_is_iff; [done|]. intros k v.
    apply from_rule_i_iff, in_list_reverse_dict_iter.
  - by apply inv_i_init.
  - intros done x rest C1 C2 _ [Hreg Htab] Hbody.
    by eapply rule_i_preserves.
Qed.

Lemma loop_i_total P C0 :
  endpoints_registered P →
  (∀ q i, (q, i) ∈ states C0 ↔ q ∈ states P ∧ i < 3) →
  transitions C0 = ∅ →
  ∃ C, for_each (rule_i P) (dict_iter (transitions P)) C0 = Ok C.
Proof.
  intros Hend Hst Htr.
  destruct (for_each_total (rule_i P) (inv_i P C0)
              (dict_iter (transitions P)) C0) as (C & HC & _); [| |by eauto].
  - by apply inv_i_init.
  - intros done x rest C1 Hxs [Hreg Htab].
    apply dict_iter_fresh in Hxs as [Hx Hfresh].
    destruct (rule_i_succeeds P C1 done x) as [C2 HC2]; try done.
    { destruct Hreg as (-> & _). done. }
    exists C2. split; [done|]. by eapply rule_i_preserves.
Qed.

Lemma inv_ii_init P C0 C :
  same_registry C0 C → table_is C (from_rule_i P (in_table P)) →
  inv_ii P C0 [] C.
Proof.
  intros Hreg Htab. split; [done|]. eapply table_is_iff; [done|].
  intros k v. split; [by left|].
  intros [?|(q & X & p & s & Hin & _)]; [done|]. by apply elem_of_nil in Hin.
Qed.

Lemma same_registry_trans (C0 C1 C2 : AP (cstate Q)) :
  same_registry C0 C1 → same_registry C1 C2 → same_registry C0 C2.
Proof. intros (?&?&?&?) (?&?&?&?). split_and!; congruence. Qed.

Lemma same_registry_refl (C : AP (cstate Q)) : same_registry C C.
Proof. done. Qed.

Lemma loop_ii_inv P C0 C :
  table_is C0 (from_rule_i P (in_table P)) →
  for_each (rule_ii P) (dict_iter (transitions P)) C0 = Ok C →
  same_registry C0 C ∧ table_is C (rules_i_ii P).
Proof.
  intros Htab0 Hrun.
  apply (for_each_inv _ (inv_ii P C0)) in Hrun as [Hreg Htab].
  - split; [done|]. eapply table_is_iff; [done|]. intros k v.
    unfold rules_i_ii.
    by rewrite (from_rule_ii_iff P _ (in_table P))
      by apply in_list_reverse_dict_iter.
  - by apply inv_ii_init.
  - intros done x rest C1 C2 _ [Hreg Htab] Hbody.
    by eapply rule_ii_preserves.
Qed.

Lemma loop_ii_total P C0 :
  endpoints_registered P → deterministic P →
  (∀ q i, (q, i) ∈ states C0 ↔ q ∈ states P ∧ i < 3) →
  table_is C0 (from_rule_i P (in_table P)) →
  ∃ C, for_each (rule_ii P) (dict_iter (transitions P)) C0 = Ok C.
Proof.
  intros Hend Hdet Hst Htab0.
  destruct (for_each_total (rule_ii P) (inv_ii P C0)
              (dict_iter (transitions P)) C0) as (C & HC & _); [| |by eauto].
  - by apply inv_ii_init.
  - intros done x rest C1 Hxs [Hreg Htab].
    apply dict_iter_fresh in Hxs as [Hx Hfresh].
    destruct (rule_ii_succeeds P C1 done x) as [C2 HC2]; try done.
    { destruct Hreg as (-> & _). done. }
    exists C2. split; [done|]. by eapply rule_ii_preserves.
Qed.

(** The inner loop of rule (iii), for one state [q]. *)
Lemma inner_iii_inv P C0 C1 C2 (S : Q → string → Prop) q :
  inv_iii P C0 S C1 →
  for_each (rule_iii P q) (set_iter (stack_alphabet P)) C1 = Ok C2 →
  inv_iii P C0 (λ q' X', S q' X' ∨ (q' = q ∧ X' ∈ stack_alphabet P)) C2.
Proof.
  intros Hinv Hrun.
  apply (for_each_inv _ (λ done C,
           inv_iii P C0 (λ q' X', S q' X' ∨ (q' = q ∧ X' ∈ done)) C))
    in Hrun as [Hreg Htab].
  - split; [done|]. eapply table_is_iff; [done|]. intros k v. simpl.
    rewrite (from_rule_iii_iff P _
               (λ q' X', S q' X' ∨ (q' = q ∧ X' ∈ stack_alphabet P))); [done|].
    intros q' X'. by rewrite elem_of_reverse, elem_of_set_iter.
  - destruct Hinv as [Hreg Htab]. split; [done|].
    eapply table_is_iff; [done|]. intros k v. simpl.
    rewrite (from_rule_iii_iff P S (λ q' X', S q' X' ∨ (q' = q ∧ X' ∈ []))); [done|].
    intros q' X'. rewrite elem_of_nil. tauto.
  - intros done X rest Ca Cb _ [Hreg Htab] Hbody.
    destruct (rule_iii_preserves P C0 Ca Cb _ q X Hreg Htab Hbody) as [Hreg' Htab'].
    split; [done|]. eapply table_is_iff; [done|]. intros k v. simpl.
    rewrite (from_rule_iii_iff P _ (λ q' X', S q' X' ∨ (q' = q ∧ X' ∈ X :: done)));
      [done|].
    intros q' X'. rewrite elem_of_cons. tauto.
Qed.

Lemma inner_iii_total P C0 C1 (S : Q → string → Prop) q :
  (∀ q i, (q, i) ∈ states C0 ↔ q ∈ states P ∧ i < 3) →
  inv_iii P C0 S C1 → q ∈ states P → (∀ X, ¬ S q X) →
  ∃ C2, for_each (rule_iii P q) (set_iter (stack_alphabet P)) C1 = Ok C2.
Proof.
  intros Hst Hinv Hq HS.
  destruct (for_each_total (rule_iii P q)
              (λ done C,
                 inv_iii P C0 (λ q' X', S q' X' ∨ (q' = q ∧ X' ∈ done)) C)
              (set_iter (stack_alphabet P)) C1) as (C & HC & _); [| |by eauto].
  - destruct Hinv as [Hreg Htab]. split; [done|].
    eapply table_is_iff; [done|]. intros k v. simpl.
    rewrite (from_rule_iii_iff P S (λ q' X', S q' X' ∨ (q' = q ∧ X' ∈ []))); [done|].
    intros q' X'. rewrite elem_of_nil. tauto.
  - intros done X rest Ca Hxs [Hreg Htab].
    assert (X ∉ done) as HX.
    { eapply for_each_not_in_done; [apply NoDup_set_iter|done]. }
    destruct (rule_iii_succeeds P Ca (λ q' X', S q' X' ∨ (q' = q ∧ X' ∈ done)) q X)
      as [Cb HCb]; try done.
    { destruct Hreg as (-> & _). done. }
    { intros [?|[_ ?]]; [by eapply HS|done]. }
    exists Cb. split; [done|].
    destruct (rule_iii_preserves P C0 Ca Cb _ q X Hreg Htab HCb) as [Hreg' Htab'].
    split; [done|]. eapply table_is_iff; [done|]. intros k v. simpl.
    rewrite (from_rule_iii_iff P _ (λ q' X', S q' X' ∨ (q' = q ∧ X' ∈ X :: done)));
      [done|].
    intros q' X'. rewrite elem_of_cons. tauto.
Qed.

Lemma inv_iii_init P C0 C :
  same_registry C0 C → table_is C (rules_i_ii P) →
  inv_iii P C0 (done_pairs P []) C.
Proof.
  intros Hreg Htab. split; [done|]. eapply table_is_iff; [done|].
  intros k v. split; [by left|].
  intros [?|(q & X & [Hin _] & _)]; [done|]. by apply elem_of_nil in Hin.
Qed.

Lemma inv_iii_next P C0 C done q :
  inv_iii P C0 (λ q' X', done_pairs P done q' X' ∨
                         (q' = q ∧ X' ∈ stack_alphabet P)) C →
  inv_iii P C0 (done_pairs P (q :: done)) C.
Proof.
  intros [Hreg Htab]. split; [done|]. eapply table_is_iff; [done|].
  intros k v. simpl.
  rewrite (from_rule_iii_iff P _ (done_pairs P (q :: done))); [done|].
  intros q' X'. unfold done_pairs. rewrite elem_of_cons. naive_solver.
Qed.

Lemma loop_iii_inv P C0 C :
  table_is C0 (rules_i_ii P) →
  for_each (λ q C, for_each (rule_iii P q) (set_iter (stack_alphabet P)) C)
    (set_iter (states P)) C0 = Ok C →
  same_registry C0 C ∧
  table_is C (λ k v, rules_i_ii P k v ∨ from_rule_iii P (all_pairs P) k v).
Proof.
  intros Htab0 Hrun.
  apply (for_each_inv _ (λ done C, inv_iii P C0 (done_pairs P done) C))
    in Hrun as [Hreg Htab].
  - split; [done|]. eapply table_is_iff; [done|]. intros k v. simpl.
    rewrite (from_rule_iii_iff P _ (all_pairs P)); [done|].
    intros q X. unfold done_pairs, all_pairs.
    by rewrite elem_of_reverse, elem_of_set_iter.
  - by apply inv_iii_init.
  - intros done q rest C1 C2 _ Hinv Hbody.
    apply inv_iii_next. by eapply inner_iii_inv.
Qed.

Lemma loop_iii_total P C0 :
  (∀ q i, (q, i) ∈ states C0 ↔ q ∈ states P ∧ i < 3) →
  table_is C0 (rules_i_ii P) →
  ∃ C, for_each (λ q C, for_each (rule_iii P q) (set_iter (stack_alphabet P)) C)
         (set_iter (states P)) C0 = Ok C.
Proof.
  intros Hst Htab0.
  destruct (for_each_total
              (λ q C, for_each (rule_iii P q) (set_iter (stack_alphabet P)) C)
              (λ done C, inv_iii P C0 (done_pairs P done) C)
              (set_iter (states P)) C0) as (C & HC & _); [| |by eauto].
  - by apply inv_iii_init.
  - intros done q rest C1 Hxs Hinv.
    assert (q ∉ done) as Hq.
    { eapply for_each_not_in_done; [apply NoDup_set_iter|done]. }
    assert (q ∈ states P) as Hqs.
    { apply elem_of_set_iter. rewrite Hxs. apply elem_of_app. right. left. }
    destruct (inner_iii_total P C0 C1 (done_pairs P done) q) as [C2 HC2];
      try done.
    { intros X [? _]. done. }
    exists C2. split; [done|]. apply inv_iii_next. by eapply inner_iii_inv.
Qed.

(** *** The whole construction *)

Lemma bind_Ok_inv {A B} (r : result A) (f : A → result B) y :
  r ≫= f = Ok y → ∃ x, r = Ok x ∧ f x = Ok y.
Proof. destruct r as [x|e]; simpl; [eauto|done]. Qed.

Lemma generated_iff P k v :
  generated P k v ↔ rules_i_ii P k v ∨ from_rule_iii P (all_pairs P) k v.
Proof.
  split.
  - intros [q a X p s Ht|q a X p s Ht|q X p s Ht|q X p s Ht|q X Hq HX Ht].
    + left. left. exists q, a, X, p, s. split_and!; [done|done|by left].
    + left. left. exists q, a, X, p, s. split_and!; [done|done|by right].
    + left. right. exists q, X, p, s. split; [done|by left].
    + left. right. exists q, X, p, s. split; [done|by right].
    + right. exists q, X. by split_and!.
  - intros [[(q & a & X & p & s & Ht & -> & [-> | ->])
            |(q & X & p & s & Ht & [[-> ->]|[-> ->]])]
           |(q & X & [Hq HX] & Ht & -> & ->)]; by constructor.
Qed.

Lemma mark_initial_copy_Ok P C0 C1 :
  mark_initial_copy P C0 = Ok C1 →
  ∃ q0, initial_state P = Some q0 ∧ (q0, final_index P q0) ∈ states C0 ∧
        states C1 = states C0 ∧ final_states C1 = final_states C0 ∧
        initial_state C1 = Some (q0, final_index P q0) ∧
        transitions C1 = transitions C0.
Proof.
  unfold mark_initial_copy, final_index, mark_initial_state.
  destruct (initial_state P) as [q0|]; [|done]. intros Hm. exists q0.
  destruct (bool_decide (q0 ∈ final_states P));
    case_bool_decide; by simplify_eq.
Qed.

Lemma mark_initial_copy_total P C0 q0 :
  initial_state P = Some q0 → (q0, final_index P q0) ∈ states C0 →
  ∃ C1, mark_initial_copy P C0 = Ok C1.
Proof.
  unfold mark_initial_copy, final_index, mark_initial_state.
  intros -> Hin. destruct (bool_decide (q0 ∈ final_states P));
    rewrite bool_decide_true by done; by eexists.
Qed.

Lemma complement_Ok_inv P C :
  crear_automata_complemento P = Ok C → is_complement_of P C.
Proof.
  unfold crear_automata_complemento. intros Hrun.
  destruct (add_copies_total P) as (C0 & E0 & Hst & Hfin & Hini & Htr).
  rewrite E0 in Hrun. simpl in Hrun.
  apply bind_Ok_inv in Hrun as (C1 & Hmark & Hrun).
  apply mark_initial_copy_Ok in Hmark
    as (q0 & Hq0 & Hq0in & Hst1 & Hfin1 & Hini1 & Htr1).
  apply bind_Ok_inv in Hrun as (C2 & Hi & Hrun).
  apply bind_Ok_inv in Hrun as (C3 & Hii & Hiii).
  apply loop_i_inv in Hi as [Hreg2 Htab2]; [|simpl; congruence].
  apply loop_ii_inv in Hii as [Hreg3 Htab3]; [|done].
  apply loop_iii_inv in Hiii as [Hreg4 Htab4]; [|done].
  pose proof (same_registry_trans _ _ _ (same_registry_trans _ _ _ Hreg2 Hreg3) Hreg4)
    as (Hs & Hi & Hf & Hz). simpl in Hs, Hi, Hf, Hz.
  assert (∀ q, q ∈ set_iter (states P) ↔ q ∈ states P) as Hel
    by (intros; apply elem_of_set_iter).
  unfold is_complement_of. split_and!.
  - intros q i. by rewrite Hs, Hst1, Hst, Hel.
  - intros q i. by rewrite Hf, Hfin1, Hfin, Hel.
  - exists q0. split_and!; [done| |congruence].
    apply Hst in Hq0in as [Hin _]. by apply Hel.
  - done.
  - intros k v. rewrite generated_iff. apply Htab4.
Qed.

Lemma complement_total P :
  endpoints_registered P → deterministic P →
  (∃ q0, initial_state P = Some q0 ∧ q0 ∈ states P) →
  ∃ C, crear_automata_complemento P = Ok C.
Proof.
  intros Hend Hdet (q0 & Hq0 & Hq0in).
  unfold crear_automata_complemento.
  destruct (add_copies_total P) as (C0 & E0 & Hst & Hfin & Hini & Htr).
  rewrite E0. simpl.
  assert (∀ q, q ∈ set_iter (states P) ↔ q ∈ states P) as Hel
    by (intros; apply elem_of_set_iter).
  destruct (mark_initial_copy_total P C0 q0) as [C1 Hmark]; [done|..].
  { apply Hst. split; [by apply Hel|apply final_index_lt]. }
  rewrite Hmark. simpl.
  apply mark_initial_copy_Ok in Hmark
    as (q0' & _ & _ & Hst1 & Hfin1 & Hini1 & Htr1).
  assert (∀ q i, (q, i) ∈ states (copy_alphabets P C1) ↔ q ∈ states P ∧ i < 3)
    as Hst2.
  { intros q i. simpl. by rewrite Hst1, Hst, Hel. }
  destruct (loop_i_total P (copy_alphabets P C1)) as [C2 Hi];
    [done|done|simpl; congruence|].
  rewrite Hi. simpl.
  apply loop_i_inv in Hi as [Hreg2 Htab2]; [|simpl; congruence].
  assert (∀ q i, (q, i) ∈ states C2 ↔ q ∈ states P ∧ i < 3) as Hst3.
  { destruct Hreg2 as (-> & _). done. }
  destruct (loop_ii_total P C2) as [C3 Hii]; [done..|].
  rewrite Hii. simpl.
  apply loop_ii_inv in Hii as [Hreg3 Htab3]; [|done].
  assert (∀ q i, (q, i) ∈ states C3 ↔ q ∈ states P ∧ i < 3) as Hst4.
  { destruct Hreg3 as (-> & _). done. }
  by apply loop_iii_total.
Qed.

(** *** C2 *)


(** *** C9 *)

Lemma complement_deterministic P C :
  deterministic P → is_complement_of P C → deterministic C.
Proof.
  intros Hdet (_ & _ & _ & _ & Htab) [q m] X [v Hv] a.
  apply eq_None_not_Some. intros [w Hw].
  apply Htab in Hv. apply Htab in Hw.
  inversion Hv as [| |? ? p s Hlam| |]; subst;
    inversion Hw as [? ? ? p' s' Hsym| | | |]; subst.
  rewrite (Hdet q X) in Hsym; [done|by eexists].
Qed.

(** C9, amended. For a source automaton whose table satisfies the
    determinism invariant, whose transition endpoints are registered
    and whose initial state has been marked, the constructor raises
    nothing and the complement it returns satisfies the determinism
    invariant again. *)
Theorem complement_never_raises P q0 :
  endpoints_registered P → deterministic P →
  initial_state P = Some q0 → q0 ∈ states P →
  ∃ C, crear_automata_complemento P = Ok C ∧
       deterministic C ∧ is_deterministic C = true.
Proof.
  intros Hend Hdet Hq0 Hin.
  destruct (complement_total P) as [C HC]; [done|done|by eauto|].
  exists C. split; [done|].
  assert (deterministic C) as HdetC.
  { eapply complement_deterministic; [done|]. by apply complement_Ok_inv. }
  split; [done|]. by apply is_deterministic_true.
Qed.

End complement_construction.

(** ** The complement simulates its source *)

Section simulation.
Context {Q : Type} `{Countable Q} `{IterOrder}.
Context (P : AP Q) (C : AP (cstate Q)).
Context (Hcomp : is_complement_of P C).

Lemma table_of_C k v : transitions C !! k = Some v ↔ generated P k v.
Proof. destruct Hcomp as (_ & _ & _ & _ & Htab). apply Htab. Qed.

Lemma lookup_C_symbol_0 q a X : transitions C !! ((q, 0), Some a, X) = None.
Proof.
  apply eq_None_not_Some. intros [v Hv%table_of_C]. inversion Hv.
Qed.

Lemma lookup_C_lambda_2 q X : transitions C !! ((q, 2), None, X) = None.
Proof.
  apply eq_None_not_Some. intros [v Hv%table_of_C]. inversion Hv.
Qed.

Lemma lookup_C_symbol_1 q a X :
  transitions C !! ((q, 1), Some a, X)
  = (λ '(p, s), ((p, final_index P p), s)) <$> transitions P !! (q, Some a, X).
Proof.
  apply option_eq. intros v. rewrite table_of_C. split.
  - inversion 1 as [? ? ? p s Ht| | | |]; subst. by rewrite Ht.
  - destruct (transitions P !! (q, Some a, X)) as [[p s]|] eqn:Ht; [|done].
    simpl. intros [= <-]. by constructor.
Qed.

Lemma lookup_C_symbol_2 q a X :
  transitions C !! ((q, 2), Some a, X)
  = (λ '(p, s), ((p, final_index P p), s)) <$> transitions P !! (q, Some a, X).
Proof.
  apply option_eq. intros v. rewrite table_of_C. split.
  - inversion 1 as [|? ? ? p s Ht| | |]; subst. by rewrite Ht.
  - destruct (transitions P !! (q, Some a, X)) as [[p s]|] eqn:Ht; [|done].
    simpl. intros [= <-]. by constructor.
Qed.

Lemma lookup_C_lambda_1 q X :
  transitions C !! ((q, 1), None, X)
  = (λ '(p, s), ((p, 1), s)) <$> transitions P !! (q, None, X).
Proof.
  apply option_eq. intros v. rewrite table_of_C. split.
  - inversion 1 as [| |? ? p s Ht| |]; subst. by rewrite Ht.
  - destruct (transitions P !! (q, None, X)) as [[p s]|] eqn:Ht; [|done].
    simpl. intros [= <-]. by constructor.
Qed.

Lemma lookup_C_lambda_0_some q X p s :
  transitions P !! (q, None, X) = Some (p, s) →
  transitions C !! ((q, 0), None, X) = Some ((p, final_index P p), s).
Proof. intros Ht. apply table_of_C. by constructor. Qed.

Lemma lookup_C_lambda_0_sink q X :
  transitions P !! (q, None, X) = None →
  q ∈ states P → X ∈ stack_alphabet P →
  transitions C !! ((q, 0), None, X) = Some ((q, 2), X).
Proof. intros Ht Hq HX. apply table_of_C. by constructor. Qed.

Lemma lookup_C_lambda_0_inv q X v :
  transitions C !! ((q, 0), None, X) = Some v →
  (∃ p s, transitions P !! (q, None, X) = Some (p, s) ∧
          v = ((p, final_index P p), s)) ∨
  (transitions P !! (q, None, X) = None ∧ v = ((q, 2), X) ∧
   X ∈ stack_alphabet P).
Proof.
  intros Hv%table_of_C. inversion Hv; subst; [left|right]; eauto.
Qed.

Lemma lookup_C_other q m o X :
  3 ≤ m → transitions C !! ((q, m), o, X) = None.
Proof.
  intros Hm. apply eq_None_not_Some. intros [v Hv%table_of_C].
  inversion Hv; subst; lia.
Qed.

Context (Hdet : deterministic P).
Context (Hsingle : single_character_stack_symbols P).

Lemma final_index_0 p : final_index P p = 0 → p ∉ final_states P.
Proof. unfold final_index. by case_bool_decide. Qed.

Lemma final_index_1 p : final_index P p = 1 → p ∈ final_states P.
Proof. unfold final_index. by case_bool_decide. Qed.

Lemma final_index_cases p : final_index P p = 0 ∨ final_index P p = 1.
Proof. unfold final_index. case_bool_decide; auto. Qed.

(** A move of the complement is a move of the source that reads a
    symbol, a lambda move of the source, or the step into the sink,
    where the source does not move. *)
Lemma step_C_inv q m r st q' m' r' st' :
  step C (q, m) r st = Some ((q', m'), r', st') →
  (step P q r st = Some (q', r', st') ∧
   ((∃ a, uncons r = Some (a, r') ∧ (m = 1 ∨ m = 2) ∧ m' = final_index P q') ∨
    (r' = r ∧ m = 1 ∧ m' = 1) ∨
    (r' = r ∧ m = 0 ∧ m' = final_index P q'))) ∨
  (m = 0 ∧ m' = 2 ∧ q' = q ∧ r' = r ∧ st' = st ∧
   ∃ X, last st = Some X ∧ transitions P !! (q, None, X) = None).
Proof.
  intros (X & HX & Hcase)%step_Some_inv.
  destruct Hcase as [(a & rest & pc & s & Hu & Ht & Hc)|(pc & s & Ht & Hsym & Hc)].
  - apply table_of_C in Ht.
    inversion Ht as [? ? ? p ? HtP|? ? ? p ? HtP| | |]; subst; simplify_eq; left.
    + split; [by eapply step_symbol_intro|]. left. eauto.
    + split; [by eapply step_symbol_intro|]. left. eauto.
  - apply table_of_C in Ht.
    inversion Ht as [| |? ? p ? HtP|? ? p ? HtP|? ? Hq HXin HtP];
      subst; simplify_eq.
    + left. split; [|by eauto].
      eapply step_lambda_intro; [done|done|].
      intros a rest _. apply Hdet. by eexists.
    + left. split; [|by eauto 6].
      eapply step_lambda_intro; [done|done|].
      intros a rest _. apply Hdet. by eexists.
    + right. split_and!; [done..| |by eauto].
      apply replace_top_same; [done|by apply Hsingle].
Qed.

(** Marker 1 is sticky once the input is consumed. *)
Lemma marker_1_sticky k q st c :
  run_steps C k ((q, 1), "", st) = Some c →
  ∃ q' st', c = ((q', 1), "", st').
Proof.
  revert q st. induction k as [|k IH]; intros q st Hrun; simpl in Hrun.
  - simplify_eq. eauto.
  - destruct (step C (q, 1) "" st) as [[[[q1 m1] r1] st1]|] eqn:Hs; [|done].
    apply step_C_inv in Hs
      as [[_ [(a & ? & _)|[(-> & _ & ->)|(_ & ? & _)]]]|(? & _)]; try done.
    by eapply IH.
Qed.

Lemma no_acceptance_within_tail n c c1 :
  step_config P c = Some c1 →
  no_acceptance_within P (S n) c → no_acceptance_within P n c1.
Proof.
  intros Hs Hno k c' Hk Hrun. apply (Hno (S k) c'); [lia|].
  simpl. by rewrite Hs.
Qed.

Lemma no_acceptance_within_cons n c c1 :
  step_config P c = Some c1 →
  ¬ acceptance_predicate P "final_state" c →
  no_acceptance_within P n c1 → no_acceptance_within P (S n) c.
Proof.
  intros Hs Hnow Hno k c' Hk Hrun. destruct k as [|k].
  - simpl in Hrun. by simplify_eq.
  - simpl in Hrun. rewrite Hs in Hrun. apply (Hno k c'); [lia|done].
Qed.

(** If the complement reaches a sink state with its input consumed,
    the source has halted there, without an accepting configuration on
    its way. *)
Lemma sim_backward k q m r st q' st' :
  marker_ok P q m st →
  run_steps C k ((q, m), r, st) = Some ((q', 2), "", st') →
  ∃ n, run_steps P n (q, r, st) = Some (q', "", st') ∧
       step P q' "" st' = None ∧
       no_acceptance_within P n (q, r, st).
Proof.
  revert q m r st. induction k as [|k IH]; intros q m r st [Hm0 Hm2] Hrun.
  - simpl in Hrun. simplify_eq. destruct (Hm2 eq_refl) as [Hq Hlam].
    exists 0. split_and!; [done| |].
    + destruct (last st') as [X|] eqn:HX.
      * eapply step_None_intro; [|done]. by apply Hlam.
      * unfold step. by rewrite HX.
    + intros k c Hk Hc. assert (k = 0) as -> by lia. simpl in Hc.
      simplify_eq. unfold acceptance_predicate. naive_solver.
  - simpl in Hrun.
    destruct (step C (q, m) r st) as [[[[q1 m1] r1] st1]|] eqn:Hs; [|done].
    apply step_C_inv in Hs as [[HsP Hmark]|(-> & -> & -> & -> & -> & X & HX & Hlam)].
    + assert (marker_ok P q1 m1 st1) as Hok1.
      { split.
        - intros ->. destruct Hmark as [(a & _ & _ & Hf)|[(_ & _ & ?)|(_ & _ & Hf)]];
            [|done|]; by apply final_index_0.
        - intros ->. pose proof (final_index_cases q1).
          destruct Hmark as [(a & _ & _ & Hf)|[(_ & _ & ?)|(_ & _ & Hf)]]; lia. }
      assert (¬ acceptance_predicate P "final_state" (q, r, st)) as Hnow.
      { intros [-> [[_ Hf]|[? _]]]; [|done].
        destruct Hmark as [(a & ? & _)|[(-> & -> & ->)|(_ & -> & _)]]; [done| |].
        - apply marker_1_sticky in Hrun as (? & ? & ?). done.
        - by apply Hm0. }
      destruct (IH q1 m1 r1 st1 Hok1 Hrun) as (n & HrunP & Hhalt & Hno).
      exists (S n). split_and!; [|done|].
      * simpl. by rewrite HsP.
      * apply (no_acceptance_within_cons n (q, r, st) (q1, r1, st1)); [exact HsP|done|done].
    + apply (IH q 2 r st); [|done]. split; [done|]. intros _.
      split; [by apply Hm0|]. intros X' HX'. by simplify_eq.
Qed.

Context (Hend : endpoints_registered P).
Context (Hclosed : alphabet_closed P).

Lemma step_states q r st q' r' st' :
  step P q r st = Some (q', r', st') → q' ∈ states P.
Proof.
  intros (X & _ & [(a & rest & p & s & _ & Ht & ?)|(p & s & Ht & _ & ?)])%step_Some_inv;
    simplify_eq; by destruct (Hend _ _ _ _ _ Ht).
Qed.

(** From a live marker the complement follows a rejecting run of the
    source that halts with its input consumed, and then enters the
    sink; it makes at most one extra move per symbol read and one at
    the end. *)
Lemma sim_forward n q m r st q' st' X :
  run_steps P n (q, r, st) = Some (q', "", st') →
  step P q' "" st' = None → last st' = Some X → X ∈ stack_alphabet P →
  no_acceptance_within P n (q, r, st) →
  q ∈ states P → marker_live P q m r st →
  q' ∈ states P ∧
  ∃ k, k ≤ n + len r + (if decide (m = 0) then 1 else 0) ∧
       run_steps C k ((q, m), r, st) = Some ((q', 2), "", st').
Proof.
  intros Hrun Hhalt HX HXin. revert q m r st Hrun.
  induction n as [|n IH]; intros q m r st Hrun Hno Hq Hlive.
  - simpl in Hrun. simplify_eq. split; [done|].
    destruct Hlive as [-> | [[_ ?]|[-> _]]]; [|done|].
    + exists 1. split; [simpl; lia|]. simpl.
      rewrite (step_lambda_intro C (q', 0) "" st' X (q', 2) X); [| done | | done].
      * rewrite replace_top_same; [done|done|by apply Hsingle].
      * apply lookup_C_lambda_0_sink; [|done|done].
        by eapply step_consumed_None_inv.
    + exists 0. split; [lia|done].
  - simpl in Hrun.
    destruct (step P q r st) as [[[q1 r1] st1]|] eqn:HsP; [|done].
    assert (q1 ∈ states P) as Hq1 by by eapply step_states.
    assert (no_acceptance_within P n (q1, r1, st1)) as Hno1.
    { apply (no_acceptance_within_tail n (q, r, st)); [exact HsP|done]. }
    assert (∀ m1, m1 = final_index P q1 → marker_live P q1 m1 r1 st1) as Hlive_fi.
    { intros m1 ->. destruct (final_index_cases q1) as [->|Hf]; [by left|].
      right. left. split; [done|]. intros ->.
      apply (Hno 1 (q1, "", st1)); [lia|simpl; by rewrite HsP|].
      split; [done|]. left. split; [done|by apply final_index_1]. }
    pose proof HsP as (X0 & HX0 & Hcase)%step_Some_inv.
    (* a move that reads a symbol, seen from marker 1 or 2 *)
    assert (∀ m0 a rest p s,
              m0 = 1 ∨ m0 = 2 → uncons r = Some (a, rest) →
              transitions P !! (q, Some a, X0) = Some (p, s) →
              (q1, r1, st1) = (p, rest, replace_top st s) →
              q' ∈ states P ∧
              ∃ k, k ≤ S n + len r ∧
                   run_steps C k ((q, m0), r, st) = Some ((q', 2), "", st'))
      as Hsymbol.
    { intros m0 a rest p s Hm0 Hu Ht [= -> -> ->].
      pose proof (len_uncons _ _ _ Hu) as Hlen.
      destruct (IH p (final_index P p) rest (replace_top st s) Hrun Hno1 Hq1
                  (Hlive_fi _ eq_refl)) as (Hq' & k & Hk & HrunC).
      split; [done|]. exists (S k). split.
      { simpl. destruct (decide (final_index P p = 0)); lia. }
      simpl.
      rewrite (step_symbol_intro C (q, m0) r a rest st X0 (p, final_index P p) s);
        [done|done|done|].
      destruct Hm0 as [-> | ->].
      - rewrite lookup_C_symbol_1, Ht. done.
      - rewrite lookup_C_symbol_2, Ht. done. }
    destruct Hlive as [-> | [[-> Hr]|[-> Hlam]]].
    + (* marker 0 *)
      destruct Hcase as [(a & rest & p & s & Hu & Ht & Hc)|(p & s & Ht & Hsym & Hc)].
      * (* the source reads a symbol: the complement first enters the sink *)
        assert (transitions P !! (q, None, X0) = None) as Hlam.
        { apply eq_None_not_Some. intros Hsome.
          rewrite (Hdet q X0 Hsome) in Ht. done. }
        destruct (Hsymbol 2 a rest p s) as (Hq' & k & Hk & HrunC); [by right|done..|].
        split; [done|]. exists (S k). split; [simpl in *; lia|]. simpl.
        rewrite (step_lambda_intro C (q, 0) _ st X0 (q, 2) X0); [|done| |].
        -- rewrite replace_top_same; [done|done|].
           apply Hsingle. by apply (Hclosed q (Some a) X0).
        -- apply lookup_C_lambda_0_sink; [done|done|].
           by apply (Hclosed q (Some a) X0).
        -- intros a' rest' _. apply lookup_C_symbol_0.
      * simplify_eq.
        destruct (IH p (final_index P p) r (replace_top st s) Hrun Hno1 Hq1
                    (Hlive_fi _ eq_refl)) as (Hq' & k & Hk & HrunC).
        split; [done|]. exists (S k). split.
        { simpl. destruct (decide (final_index P p = 0)); lia. }
        simpl.
        rewrite (step_lambda_intro C (q, 0) r st X0 (p, final_index P p) s);
          [done|done| |].
        -- by apply lookup_C_lambda_0_some.
        -- intros a' rest' _. apply lookup_C_symbol_0.
    + (* marker 1 *)
      destruct Hcase as [(a & rest & p & s & Hu & Ht & Hc)|(p & s & Ht & Hsym & Hc)].
      * destruct (Hsymbol 1 a rest p s) as (Hq' & k & Hk & HrunC); [by left|done..|].
        split; [done|]. exists k. split; [simpl in *; lia|done].
      * simplify_eq.
        destruct (IH p 1 r (replace_top st s) Hrun Hno1 Hq1) as (Hq' & k & Hk & HrunC).
        { right. left. done. }
        split; [done|]. exists (S k). split; [simpl in *; lia|]. simpl.
        rewrite (step_lambda_intro C (q, 1) r st X0 (p, 1) s); [done|done| |].
        -- rewrite lookup_C_lambda_1, Ht. done.
        -- intros a' rest' _. rewrite lookup_C_symbol_1.
           rewrite (Hdet q X0); [done|by eexists].
    + (* marker 2 *)
      destruct Hcase as [(a & rest & p & s & Hu & Ht & Hc)|(p & s & Ht & Hsym & Hc)].
      * destruct (Hsymbol 2 a rest p s) as (Hq' & k & Hk & HrunC); [by right|done..|].
        split; [done|]. exists k. split; [simpl in *; lia|done].
      * rewrite (Hlam X0 HX0) in Ht. done.
Qed.

End simulation.

(** ** Correctness of the complement *)

Section complement_correctness.
Context {Q : Type} `{Countable Q} `{IterOrder}.
Implicit Types (P : AP Q) (C : AP (cstate Q)).

Lemma halted_run_rejects P fuel n c q st :
  run_steps P n c = Some (q, "", st) → step P q "" st = None →
  no_acceptance_within P n c →
  accepts_loop P "final_state" fuel c.1.1 c.1.2 c.2 = false.
Proof.
  intros Hrun Hhalt Hno. destruct c as [[q0 r0] st0]. simpl.
  apply accepts_loop_false_iff. intros k c' _ Hk.
  destruct (decide (k ≤ n)) as [Hle|Hgt]; [by apply (Hno k c')|].
  rewrite (run_steps_halted P n k _ (q, "", st)) in Hk; [done|done|done|lia].
Qed.

Lemma complement_accepts_only_rejected P C word :
  deterministic P → single_character_stack_symbols P →
  is_complement_of P C →
  accepts C word "final_state" = true → accepts P word "final_state" = false.
Proof.
  intros Hdet Hsingle Hcomp. pose proof Hcomp as (_ & Hfin & (q0 & Hq0 & _ & HiniC) & HZ & _).
  unfold accepts. rewrite Hq0, HiniC, HZ.
  intros (k & [[[q m] r] st] & _ & Hrun & Hacc)%accepts_loop_true_iff.
  destruct Hacc as [-> [[_ Hf]|[? _]]]; [|done].
  apply Hfin in Hf as [_ ->].
  destruct (sim_backward P C Hcomp Hdet Hsingle k q0 (final_index P q0) word
              [initial_stack_symbol P] q st) as (n & HrunP & Hhalt & Hno); [|done|].
  { split.
    - apply final_index_0.
    - intros Hf. pose proof (final_index_cases P q0). lia. }
  by apply (halted_run_rejects P _ n (q0, word, [initial_stack_symbol P]) q st).
Qed.

Lemma complement_accepts_rejected P C word q0 n q stack X :
  builder_invariant P → single_character_stack_symbols P →
  is_complement_of P C →
  initial_state P = Some q0 →
  run_steps P n (initial_config P q0 word) = Some (q, "", stack) →
  step P q "" stack = None → last stack = Some X → X ∈ stack_alphabet P →
  n + len word + 1 ≤ len word * 100 + 1000 →
  accepts P word "final_state" = false → accepts C word "final_state" = true.
Proof.
  intros (_ & Hend & Hclosed & Hdet) Hsingle Hcomp Hq0 Hrun Hhalt HX HXin Hbound.
  pose proof Hcomp as (_ & Hfin & (q0' & Hq0' & Hq0in & HiniC) & HZ & _).
  assert (q0' = q0) as -> by congruence.
  unfold accepts, max_steps. rewrite Hq0, HiniC, HZ. intros Hrej.
  rewrite accepts_loop_false_iff in Hrej.
  assert (no_acceptance_within P n (initial_config P q0 word)) as Hno.
  { intros k c Hk Hc. apply (Hrej k c); [lia|done]. }
  destruct (sim_forward P C Hcomp Hdet Hsingle Hend Hclosed n q0 (final_index P q0)
              word [initial_stack_symbol P] q stack X)
    as (Hq & k & Hk & HrunC); try done.
  { destruct (final_index_cases P q0) as [->|Hf]; [by left|].
    right. left. split; [done|]. intros ->.
    apply (Hno 0 (q0, "", [initial_stack_symbol P])); [lia|done|].
    split; [done|]. left. split; [done|by apply final_index_1]. }
  apply accepts_loop_true_iff. exists k, ((q, 2), "", stack). split_and!.
  - destruct (decide (final_index P q0 = 0)); lia.
  - done.
  - split; [done|]. left. split; [done|]. by apply Hfin.
Qed.

End complement_correctness.

(** ** Renaming *)

Section renaming_properties.
Context {Q : Type} `{Countable Q} `{IterOrder}.
Implicit Types (M : AP Q) (f g : Q → Q) (old_name new_name p q : Q).

Lemma foldl_insert_lookup {K K' V V'} `{Countable K, Countable K'}
    (rk : K → K') (rv : V → V') (l : list (K * V)) (acc : gmap K' V') k' v' :
  NoDup (rk <$> l.*1) →
  foldl (λ acc kv, <[rk kv.1 := rv kv.2]> acc) acc l !! k' = Some v' ↔
  (∃ k v, (k, v) ∈ l ∧ k' = rk k ∧ v' = rv v) ∨
  ((k' ∉ rk <$> l.*1) ∧ acc !! k' = Some v').
Proof.
  revert acc. induction l as [|[k v] l IH]; intros acc Hnd; simpl.
  - split; [intros ?; right; split; [apply not_elem_of_nil|done]|].
    intros [(k & v & Hin & _)|[_ ?]]; [by apply elem_of_nil in Hin|done].
  - simpl in Hnd. apply NoDup_cons in Hnd as [Hk Hnd].
    rewrite (IH _ Hnd). split.
    + intros [(k1 & v1 & Hin & -> & ->)|[Hnotin Hacc]].
      * left. exists k1, v1. split; [by right|done].
      * apply lookup_insert_Some in Hacc as [[<- <-]|[Hne Hacc]].
        -- left. exists k, v. split; [left|done].
        -- right. split; [|done]. apply not_elem_of_cons. done.
    + intros [(k1 & v1 & Hin & -> & ->)|[Hnotin Hacc]].
      * apply elem_of_cons in Hin as [[= -> ->]|Hin].
        -- right. split; [done|]. apply lookup_insert_eq.
        -- left. exists k1, v1. done.
      * apply not_elem_of_cons in Hnotin as [Hne Hnotin].
        right. split; [done|]. by rewrite lookup_insert_ne.
Qed.

Lemma rename_transitions_fold old_name new_name M :
  _rename_state_in_transitions old_name new_name M
  = foldl (λ acc kv, <[rename_key (rename_one old_name new_name) kv.1
                        := rename_target (rename_one old_name new_name) kv.2]> acc)
      ∅ (dict_iter (transitions M)).
Proof.
  unfold _rename_state_in_transitions. generalize (dict_iter (transitions M)).
  generalize (∅ : gmap (tkey Q) (Q * string)).
  intros acc l. revert acc.
  induction l as [|[[[q o] X] [p s]] l IH]; intros acc; simpl; [done|].
  apply IH.
Qed.

Lemma rename_one_inj old_name new_name (X : gset Q) p q :
  (old_name ≠ new_name → new_name ∉ X) →
  p ∈ X → q ∈ X →
  rename_one old_name new_name p = rename_one old_name new_name q → p = q.
Proof.
  intros Hnew Hp Hq. unfold rename_one.
  repeat case_bool_decide; subst; try done.
  - intros <-. destruct (decide (old_name = new_name)); [done|].
    by destruct (Hnew ltac:(done)).
  - intros ->. destruct (decide (old_name = new_name)); [done|].
    by destruct (Hnew ltac:(done)).
Qed.

Lemma rename_transitions_lookup old_name new_name M k' v' :
  endpoints_registered M →
  (old_name ≠ new_name → new_name ∉ states M) →
  _rename_state_in_transitions old_name new_name M !! k' = Some v' ↔
  ∃ k v, transitions M !! k = Some v ∧
         k' = rename_key (rename_one old_name new_name) k ∧
         v' = rename_target (rename_one old_name new_name) v.
Proof.
  intros Hend Hnew. rewrite rename_transitions_fold, foldl_insert_lookup.
  - split.
    + intros [(k & v & Hin%elem_of_dict_iter & ? & ?)|[_ Hl]]; [by eauto|].
      by rewrite lookup_empty in Hl.
    + intros (k & v & Hin & ? & ?). left. exists k, v.
      split; [by apply elem_of_dict_iter|done].
  - apply NoDup_fmap_2_strong; [|apply NoDup_dict_iter_keys].
    intros [[q1 o1] X1] [[q2 o2] X2] Hin1 Hin2 [= Hq -> ->].
    apply list_elem_of_fmap in Hin1 as ([k1 v1] & ? & Hin1%elem_of_dict_iter).
    apply list_elem_of_fmap in Hin2 as ([k2 v2] & ? & Hin2%elem_of_dict_iter).
    simplify_eq/=. destruct v1 as [p1 s1], v2 as [p2 s2].
    destruct (Hend _ _ _ _ _ Hin1) as [Hq1 _].
    destruct (Hend _ _ _ _ _ Hin2) as [Hq2 _].
    by rewrite (rename_one_inj old_name new_name (states M) q1 q2).
Qed.

(** *** Renaming one state *)

Lemma rename_state_total old_name new_name M :
  (old_name ≠ new_name → old_name ∈ states M) →
  ∃ M', _rename_state old_name new_name M = Ok M'.
Proof.
  intros Hold. unfold _rename_state. case_bool_decide as Hne; [|by eexists].
  rewrite bool_decide_true by auto. by eexists.
Qed.

Lemma rename_one_same old_name q : rename_one old_name old_name q = q.
Proof. unfold rename_one. by case_bool_decide. Qed.

Lemma rename_one_other old_name new_name q :
  q ≠ old_name → rename_one old_name new_name q = q.
Proof. intros Hq. unfold rename_one. by rewrite bool_decide_false. Qed.

Lemma rename_one_old old_name new_name :
  rename_one old_name new_name old_name = new_name.
Proof. unfold rename_one. by rewrite bool_decide_true. Qed.

Lemma set_map_rename_in old_name new_name (X : gset Q) :
  old_name ∈ X →
  set_map (rename_one old_name new_name) X = X ∖ {[old_name]} ∪ {[new_name]}.
Proof.
  intros Hold. apply set_eq. intros x.
  rewrite elem_of_map, elem_of_union, elem_of_difference, !elem_of_singleton.
  split.
  - intros (y & -> & Hy). unfold rename_one. case_bool_decide; auto.
  - intros [[Hx Hne]| ->].
    + exists x. by rewrite rename_one_other.
    + exists old_name. by rewrite rename_one_old.
Qed.

Lemma set_map_rename_notin old_name new_name (X : gset Q) :
  old_name ∉ X → set_map (rename_one old_name new_name) X = X.
Proof.
  intros Hold. apply set_eq. intros x. rewrite elem_of_map. split.
  - intros (y & -> & Hy). rewrite rename_one_other; [done|]. by intros ->.
  - intros Hx. exists x. rewrite rename_one_other; [done|]. by intros ->.
Qed.

Lemma set_map_id_on f (X : gset Q) :
  (∀ x, x ∈ X → f x = x) → set_map f X = X.
Proof.
  intros Hf. apply set_eq. intros x. rewrite elem_of_map. split.
  - intros (y & -> & Hy). by rewrite Hf.
  - intros Hx. exists x. by rewrite Hf.
Qed.

Lemma relabelled_transitions_intro f M (T : gmap (tkey Q) (Q * string)) :
  endpoints_registered M →
  (∀ p q, p ∈ states M → q ∈ states M → f p = f q → p = q) →
  (∀ k' v', T !! k' = Some v' ↔
     ∃ k v, transitions M !! k = Some v ∧
            k' = rename_key f k ∧ v' = rename_target f v) →
  (∀ q o X, q ∈ states M →
     T !! (f q, o, X) = (λ '(p, s), (f p, s)) <$> transitions M !! (q, o, X)) ∧
  (∀ q' o X, is_Some (T !! (q', o, X)) → ∃ q, q ∈ states M ∧ q' = f q).
Proof.
  intros Hend Hinj HT. split.
  - intros q o X Hq. apply option_eq. intros [p' s']. rewrite HT. split.
    + intros ([[q1 o1] X1] & [p1 s1] & Ht & [= Hq1 <- <-] & [= -> ->]).
      destruct (Hend _ _ _ _ _ Ht) as [Hq1in _].
      apply Hinj in Hq1; [|done..]. subst. by rewrite Ht.
    + destruct (transitions M !! (q, o, X)) as [[p s]|] eqn:Ht; [|done].
      simpl. intros [= <- <-]. by exists (q, o, X), (p, s).
  - intros q' o X [v' Hv']. apply HT in Hv'
      as ([[q1 o1] X1] & [p1 s1] & Ht & [= -> <- <-] & _).
    destruct (Hend _ _ _ _ _ Ht) as [Hq1in _]. eauto.
Qed.

Lemma rename_state_relabelled old_name new_name M M' :
  registry_ok M → endpoints_registered M →
  (old_name ≠ new_name → new_name ∉ states M) →
  _rename_state old_name new_name M = Ok M' →
  relabelled (rename_one old_name new_name) M M'.
Proof.
  intros [Hfin Hini] Hend Hnew. unfold _rename_state.
  assert (∀ p q, p ∈ states M → q ∈ states M →
            rename_one old_name new_name p = rename_one old_name new_name q →
            p = q) as Hinj.
  { intros p q. by apply rename_one_inj. }
  case_bool_decide as Hne.
  - case_bool_decide as Hold; [|done]. intros [= <-].
    destruct (relabelled_transitions_intro (rename_one old_name new_name) M
                (_rename_state_in_transitions old_name new_name M))
      as [Hlook Hdom]; [done|done| |].
    { intros k' v'. by apply rename_transitions_lookup. }
    split_and!; simpl; try done.
    + by rewrite set_map_rename_in.
    + destruct (initial_state M) as [q0|] eqn:Hq0; simpl.
      * unfold rename_one. destruct (decide (q0 = old_name)) as [->|Hq].
        -- by rewrite !bool_decide_true.
        -- rewrite !bool_decide_false; [done|done|congruence].
      * done.
    + case_bool_decide.
      * by rewrite set_map_rename_in.
      * by rewrite set_map_rename_notin.
  - assert (old_name = new_name) as <- by by destruct (decide (old_name = new_name)).
    intros [= <-].
    assert (∀ X : gset Q, set_map (rename_one old_name old_name) X = X) as Hmap.
    { intros X. apply set_map_id_on. intros x _. apply rename_one_same. }
    split_and!; try done; try (by rewrite Hmap).
    + destruct (initial_state M); simpl; by rewrite ?rename_one_same.
    + intros q o X _. rewrite rename_one_same.
      destruct (transitions M !! (q, o, X)) as [[p s]|]; simpl;
        by rewrite ?rename_one_same.
    + intros q' o X [[p s] Ht]. exists q'.
      destruct (Hend _ _ _ _ _ Ht). by rewrite rename_one_same.
Qed.

(** *** Relabellings compose and preserve the invariants *)

Lemma relabelled_compose f g M M1 M2 :
  relabelled f M M1 → relabelled g M1 M2 → relabelled (g ∘ f) M M2.
Proof.
  intros (Hinj1 & Hst1 & Hini1 & Hfin1 & Hlook1 & Hdom1 & Hia1 & Hsa1 & Hz1)
         (Hinj2 & Hst2 & Hini2 & Hfin2 & Hlook2 & Hdom2 & Hia2 & Hsa2 & Hz2).
  assert (∀ q, q ∈ states M → f q ∈ states M1) as Hf.
  { intros q Hq. rewrite Hst1. apply elem_of_map. eauto. }
  assert (∀ X : gset Q, set_map g (set_map f X : gset Q) =@{gset Q} set_map (g ∘ f) X)
    as Hmap.
  { intros X. apply set_eq. intros x. rewrite !elem_of_map. split.
    - intros (y & -> & (z & -> & Hz)%elem_of_map). eauto.
    - intros (z & -> & Hz). exists (f z). split; [done|].
      apply elem_of_map. eauto. }
  split_and!.
  - intros p q Hp Hq Heq. apply Hinj1; [done..|]. apply Hinj2; auto.
  - by rewrite Hst2, Hst1, Hmap.
  - rewrite Hini2, Hini1. by destruct (initial_state M).
  - by rewrite Hfin2, Hfin1, Hmap.
  - intros q o X Hq. simpl. rewrite Hlook2 by auto. rewrite Hlook1 by done.
    by destruct (transitions M !! (q, o, X)) as [[p s]|].
  - intros q'' o X Hsome. destruct (Hdom2 _ _ _ Hsome) as (q1 & Hq1 & ->).
    rewrite Hst1 in Hq1. apply elem_of_map in Hq1 as (q & -> & Hq). eauto.
  - congruence.
  - congruence.
  - congruence.
Qed.

Lemma relabelled_ext f g M M' :
  endpoints_registered M → registry_ok M →
  (∀ q, q ∈ states M → g q = f q) →
  relabelled f M M' → relabelled g M M'.
Proof.
  intros Hend [Hfinal Hinit] Hfg
    (Hinj & Hst & Hini & Hfin & Hlook & Hdom & Hia & Hsa & Hz).
  assert (∀ X : gset Q, X ⊆ states M → set_map g X =@{gset Q} set_map f X) as Hmap.
  { intros X HX. apply set_eq. intros x. rewrite !elem_of_map.
    split; intros (y & -> & Hy); exists y; (split; [|done]);
      [|symmetry]; apply Hfg; by apply HX. }
  split_and!; try done.
  - intros p q Hp Hq. rewrite !Hfg by done. by apply Hinj.
  - by rewrite Hmap.
  - rewrite Hini. destruct (initial_state M) as [q0|] eqn:Hq0; [|done].
    simpl. by rewrite Hfg by by apply Hinit.
  - by rewrite Hmap.
  - intros q o X Hq. rewrite Hfg by done. rewrite Hlook by done.
    destruct (transitions M !! (q, o, X)) as [[p s]|] eqn:Ht; [|done].
    simpl. destruct (Hend _ _ _ _ _ Ht) as [_ Hp]. by rewrite Hfg.
  - intros q' o X Hsome. destruct (Hdom _ _ _ Hsome) as (q & Hq & ->).
    exists q. by rewrite Hfg.
Qed.

Lemma relabelled_back f M M' q' o X v' :
  relabelled f M M' →
  transitions M' !! (q', o, X) = Some v' →
  ∃ q p s, q ∈ states M ∧ q' = f q ∧ v' = (f p, s) ∧
           transitions M !! (q, o, X) = Some (p, s).
Proof.
  intros (Hinj & Hst & Hini & Hfin & Hlook & Hdom & Hia & Hsa & Hz) Ht.
  destruct (Hdom q' o X) as (q & Hq & ->); [by eexists|].
  rewrite Hlook in Ht by done.
  destruct (transitions M !! (q, o, X)) as [[p s]|] eqn:HtM; [|done].
  simpl in Ht. simplify_eq. by exists q, p, s.
Qed.

Lemma relabelled_registry f M M' :
  registry_ok M → endpoints_registered M → relabelled f M M' →
  registry_ok M' ∧ endpoints_registered M'.
Proof.
  intros [Hfinal Hinit] Hend Hrel.
  pose proof Hrel as (Hinj & Hst & Hini & Hfin & Hlook & Hdom & Hia & Hsa & Hz).
  split; [split|].
  - rewrite Hfin, Hst. intros x (y & -> & Hy)%elem_of_map.
    apply elem_of_map. exists y. split; [done|]. by apply Hfinal.
  - intros q0'. rewrite Hini, Hst.
    destruct (initial_state M) as [q0|] eqn:Hq0; [|done].
    intros [= <-]. apply elem_of_map. exists q0. split; [done|]. by apply Hinit.
  - intros q' o X p' s' Ht.
    destruct (relabelled_back _ _ _ _ _ _ _ Hrel Ht)
      as (q & p & s & Hq & -> & [= -> ->] & HtM).
    destruct (Hend _ _ _ _ _ HtM) as [_ Hp].
    rewrite Hst. split; apply elem_of_map; eauto.
Qed.

Lemma relabelled_invariant f M M' :
  builder_invariant M → relabelled f M M' → builder_invariant M'.
Proof.
  intros (Hreg & Hend & Hclosed & Hdet) Hrel.
  destruct (relabelled_registry f M M' Hreg Hend Hrel) as [Hreg' Hend'].
  pose proof Hrel as (Hinj & Hst & Hini & Hfin & Hlook & Hdom & Hia & Hsa & Hz).
  split_and!; [done|done|..].
  - intros q' o X [v' Ht].
    destruct (relabelled_back _ _ _ _ _ _ _ Hrel Ht)
      as (q & p & s & Hq & -> & _ & HtM).
    rewrite Hia, Hsa. apply (Hclosed q o X). by eexists.
  - intros q' X [v' Ht] a. apply eq_None_not_Some. intros [w' Hw].
    destruct (relabelled_back _ _ _ _ _ _ _ Hrel Ht)
      as (q & p & s & Hq & -> & _ & HtM).
    destruct (relabelled_back _ _ _ _ _ _ _ Hrel Hw)
      as (q2 & p2 & s2 & Hq2 & Heq & _ & HwM).
    apply Hinj in Heq; [|done..]. subst.
    rewrite (Hdet q2 X) in HwM; [done|by eexists].
Qed.

(** *** A relabelled automaton accepts the same words *)

Lemma relabelled_final f M M' q :
  registry_ok M → relabelled f M M' → q ∈ states M →
  f q ∈ final_states M' ↔ q ∈ final_states M.
Proof.
  intros [Hfinal _] (Hinj & _ & _ & Hfin & _) Hq. rewrite Hfin, elem_of_map.
  split; [|by eauto]. intros (y & Heq & Hy).
  apply Hinj in Heq; [by subst|done|]. by apply Hfinal.
Qed.

Lemma relabelled_step f M M' q r stack :
  relabelled f M M' → q ∈ states M →
  step M' (f q) r stack
  = (λ '(p, r', stack'), (f p, r', stack')) <$> step M q r stack.
Proof.
  intros (_ & _ & _ & _ & Hlook & _) Hq.
  unfold step, step_lambda, get_transition.
  destruct (last stack) as [X|]; [|done].
  destruct (uncons r) as [[a rest]|]; rewrite !Hlook by done.
  - destruct (transitions M !! (q, Some a, X)) as [[p s]|]; [done|].
    simpl. by destruct (transitions M !! (q, None, X)) as [[p s]|].
  - by destruct (transitions M !! (q, None, X)) as [[p s]|].
Qed.

Lemma relabelled_accepts_loop f M M' mode fuel q r stack :
  registry_ok M → endpoints_registered M → relabelled f M M' →
  q ∈ states M →
  accepts_loop M' mode fuel (f q) r stack = accepts_loop M mode fuel q r stack.
Proof.
  intros Hreg Hend Hrel. revert q r stack.
  assert (∀ q r stack, q ∈ states M →
            accepts_now M' mode (f q) r stack = accepts_now M mode q r stack)
    as Hnow.
  { intros q r stack Hq. unfold accepts_now.
    by rewrite (bool_decide_ext _ _ (relabelled_final f M M' q Hreg Hrel Hq)). }
  induction fuel as [|fuel IH]; intros q r stack Hq; simpl.
  - by apply Hnow.
  - rewrite Hnow by done. unfold final_check. fold (accepts_now M' mode (f q) r stack).
    fold (accepts_now M mode q r stack). rewrite Hnow by done.
    rewrite (relabelled_step f M M') by done.
    destruct (step M q r stack) as [[[p r'] stack']|] eqn:Hs; simpl; [|done].
    destruct (accepts_now M mode q r stack); [done|].
    apply IH. by eapply step_target_registered.
Qed.

Lemma relabelled_accepts f M M' word mode :
  registry_ok M → endpoints_registered M → relabelled f M M' →
  accepts M' word mode = accepts M word mode.
Proof.
  intros Hreg Hend Hrel. unfold accepts.
  pose proof Hrel as (_ & _ & Hini & _ & _ & _ & _ & _ & Hz).
  rewrite Hini, Hz. destruct (initial_state M) as [q0|] eqn:Hq0; [|done].
  simpl. apply relabelled_accepts_loop; [done..|]. by apply Hreg.
Qed.

End renaming_properties.

(** ** Names of states *)

Section names.

Lemma q_name_head i : q_name i = String "q" (pretty i).
Proof. done. Qed.

Lemma q_name_inj i j : q_name i = q_name j → i = j.
Proof. rewrite !q_name_head. intros [= Hp]. by apply (inj pretty). Qed.

Lemma q_name_0 : q_name 0 = "q0".
Proof. done. Qed.

Lemma temp_name_S k t :
  temp_name (S k) t
  = String "t" (String "e" (String "m" (String "p" (String ":" (temp_name k t))))).
Proof. done. Qed.

Lemma temp_name_shift k t : temp_name k ("temp:" +:+ t) = temp_name (S k) t.
Proof. induction k as [|k IH]; [done|]. by rewrite temp_name_S, IH. Qed.

Lemma temp_name_length k t :
  String.length (temp_name k t) = 5 * k + String.length t.
Proof.
  induction k as [|k IH]; [done|]. rewrite temp_name_S. simpl. lia.
Qed.

Lemma temp_name_ne_q k t i : temp_name (S k) t ≠ q_name i.
Proof. rewrite temp_name_S, q_name_head. discriminate. Qed.

Lemma prefix_temp_q i : String.prefix "temp:" (q_name i) = false.
Proof. done. Qed.

Lemma prefix_temp_S k t : String.prefix "temp:" (temp_name (S k) t) = true.
Proof. rewrite temp_name_S. simpl. by destruct (temp_name k t). Qed.

Lemma split_colon_nonempty s : split_colon s ≠ [].
Proof.
  destruct s as [|a s]; simpl; [done|].
  destruct (Ascii.eqb a ":"); [done|]. by destruct (split_colon s).
Qed.

Lemma split_colon_cons a s :
  Ascii.eqb a ":" = false → split_colon s = [s] →
  split_colon (String a s) = [String a s].
Proof. intros Ha Hs. simpl. by rewrite Ha, Hs. Qed.

Lemma pretty_N_char_no_colon x : Ascii.eqb (pretty_N_char x) ":" = false.
Proof. unfold pretty_N_char. by repeat case_match. Qed.

Lemma pretty_N_go_no_colon x s :
  split_colon s = [s] → split_colon (pretty_N_go x s) = [pretty_N_go x s].
Proof.
  revert s. induction (N.lt_wf_0 x) as [x _ IH]; intros s Hs.
  destruct (decide (x = 0)%N) as [->|Hx]; [by rewrite pretty_N_go_0|].
  rewrite pretty_N_go_step by lia. apply IH.
  - apply N.div_lt; lia.
  - apply split_colon_cons; [apply pretty_N_char_no_colon|done].
Qed.

Lemma pretty_nat_no_colon (i : nat) : split_colon (pretty i) = [pretty i].
Proof.
  unfold pretty, pretty_nat, pretty, pretty_N. case_decide; [done|].
  by apply pretty_N_go_no_colon.
Qed.

Lemma last_segment_q i : last_segment (q_name i) = q_name i.
Proof.
  unfold last_segment. rewrite q_name_head.
  rewrite split_colon_cons; [done|done|apply pretty_nat_no_colon].
Qed.

Lemma last_segment_temp k t : last_segment (temp_name k t) = last_segment t.
Proof.
  induction k as [|k IH]; [done|]. rewrite temp_name_S, <-IH.
  unfold last_segment. simpl.
  pose proof (split_colon_nonempty (temp_name k t)).
  by destruct (split_colon (temp_name k t)).
Qed.

End names.

(** ** [normalize_states] *)

Section normalize_properties.
Context {A : Type} `{Countable A} `{IterOrder}.
Implicit Types (M : AP (hashable A)) (q old_name : hashable A)
  (names : list (hashable A * string)) (sts : gset (hashable A)).

(** *** The placeholder loop ends *)

Lemma fresh_temp_remove fuel sts t t' :
  (∀ k, temp_name k t' ≠ t) →
  fresh_temp fuel sts t' = fresh_temp fuel (sts ∖ {[Str t]}) t'.
Proof.
  revert t'. induction fuel as [|fuel IH]; intros t' Hne; simpl.
  - assert (t' ≠ t) as Ht by apply (Hne 0).
    rewrite (bool_decide_ext (Str t' ∈ sts) (Str t' ∈ sts ∖ {[Str t]})); [done|].
    rewrite elem_of_difference, elem_of_singleton. naive_solver.
  - assert (t' ≠ t) as Ht by apply (Hne 0).
    rewrite (bool_decide_ext (Str t' ∈ sts) (Str t' ∈ sts ∖ {[Str t]})).
    + case_bool_decide; [|done]. apply IH. intros k.
      rewrite temp_name_shift. apply Hne.
    + rewrite elem_of_difference, elem_of_singleton. naive_solver.
Qed.

Lemma fresh_temp_spec fuel sts t :
  stdpp.base.size sts < fuel →
  ∃ k, fresh_temp fuel sts t = Some (temp_name k t) ∧
       Str (temp_name k t) ∉ sts.
Proof.
  revert sts t. induction fuel as [|fuel IH]; intros sts t Hsize; [lia|].
  simpl. case_bool_decide as Hin; [|by exists 0].
  assert (∀ k, temp_name k ("temp:" +:+ t) ≠ t) as Hne.
  { intros k Heq. apply (f_equal String.length) in Heq.
    rewrite temp_name_shift, temp_name_length in Heq. lia. }
  destruct fuel as [|fuel].
  { assert (stdpp.base.size sts = 0) as Hz%size_empty_inv by lia.
    apply Hz in Hin. by apply not_elem_of_empty in Hin. }
  rewrite (fresh_temp_remove _ sts t) by done.
  destruct (IH (sts ∖ {[Str t]}) ("temp:" +:+ t)) as (k & Hk & Hfresh).
  { assert (stdpp.base.size sts
            = stdpp.base.size ({[Str t]} : gset (hashable A))
              + stdpp.base.size (sts ∖ {[Str t]})) as Hs.
    { rewrite <-size_union by set_solver. f_equal.
      apply set_eq. intros x. rewrite elem_of_union, elem_of_difference,
        elem_of_singleton.
      destruct (decide (x = Str t)); naive_solver. }
    rewrite size_singleton in Hs. lia. }
  exists (S k). rewrite <-temp_name_shift. split; [done|].
  intros Hin'. apply Hfresh. apply elem_of_difference. split; [done|].
  rewrite elem_of_singleton. intros [= Heq]. by apply (Hne k).
Qed.

(** *** The plan of new names *)

Lemma plan_fold (l : list (hashable A)) n names :
  (∀ q, q ∈ l → q ∉ names.*1) → NoDup l →
  foldl
    (λ new_names '(i, st),
       if bool_decide (st ∈ new_names.*1) then new_names
       else new_names ++ [(st, q_name (i + 1))])
    names (imap (λ i st, (n + i, st)) l)
  = names ++ imap (λ i st, (st, q_name (n + i + 1))) l.
Proof.
  revert n names. induction l as [|q l IH]; intros n names Hfresh Hnd; simpl.
  - by rewrite app_nil_r.
  - apply NoDup_cons in Hnd as [Hq Hnd].
    rewrite bool_decide_false by (apply Hfresh; left).
    rewrite (imap_ext _ (λ i st, (S n + i, st)))
      by (intros i x _; simpl; f_equal; lia).
    rewrite IH; [| |done].
    + rewrite <-app_assoc. simpl. f_equal. f_equal.
      apply imap_ext. intros i x _. simpl. do 2 f_equal. lia.
    + intros q' Hq'. rewrite fmap_app, elem_of_app. simpl.
      rewrite list_elem_of_singleton. intros [Hin| ->]; [|done].
      apply (Hfresh q'); [by right|done].
Qed.

Lemma imap_names_keys (l : list (hashable A)) n :
  (imap (λ i st, (st, q_name (n + i + 1))) l).*1 = l.
Proof.
  revert n. induction l as [|q l IH]; intros n; simpl; [done|]. f_equal.
  rewrite <-(IH (S n)) at 2. f_equal. apply imap_ext. intros i x _. simpl.
  do 2 f_equal. lia.
Qed.

Lemma imap_names_lookup (l : list (hashable A)) q t :
  (q, t) ∈ imap (λ i st, (st, q_name (0 + i + 1))) l ↔
  ∃ i, l !! i = Some q ∧ t = q_name (i + 1).
Proof.
  rewrite list_elem_of_lookup. setoid_rewrite list_lookup_imap. split.
  - intros (i & Hi). destruct (l !! i) as [x|] eqn:Hx; [|done].
    simpl in Hi. simplify_eq. by exists i.
  - intros (i & Hi & ->). exists i. by rewrite Hi.
Qed.

Lemma planned_names_eq M :
  registry_ok M →
  planned_names M
  = initial_names M
    ++ imap (λ i st, (st, q_name (0 + i + 1))) (set_iter (other_states M)).
Proof.
  intros [_ Hinit]. unfold planned_names.
  rewrite <-(plan_fold _ 0); [done| |apply NoDup_set_iter].
  intros q Hq%elem_of_set_iter. unfold initial_names, other_states in *.
  destruct (initial_state M) as [q0|]; simpl; [|apply not_elem_of_nil].
  rewrite list_elem_of_singleton. set_solver.
Qed.

Lemma plan_ok_planned M :
  registry_ok M →
  plan_ok M (planned_names M) ∧
  (∀ q0, initial_state M = Some q0 → (q0, q_name 0) ∈ planned_names M).
Proof.
  intros Hreg. rewrite planned_names_eq by done. destruct Hreg as [_ Hinit].
  set (L := set_iter (other_states M)).
  set (tail := imap (λ i st, (st, q_name (0 + i + 1))) L).
  assert (NoDup L) as HndL by apply NoDup_set_iter.
  assert (tail.*1 = L) as Hkeys by apply imap_names_keys.
  assert (∀ q t, (q, t) ∈ tail ↔ ∃ i, L !! i = Some q ∧ t = q_name (i + 1))
    as Htail by apply imap_names_lookup.
  assert (NoDup tail.*2) as Hvals.
  { apply NoDup_alt. intros i j t.
    rewrite !list_lookup_fmap. unfold tail. rewrite !list_lookup_imap.
    destruct (L !! i) as [x|]; [|done]. destruct (L !! j) as [y|]; [|done].
    simpl. intros Hi Hj.
    assert (q_name (i + 1) = q_name (j + 1)) as Heq%q_name_inj
      by congruence.
    lia. }
  assert (q_name 0 ∉ tail.*2) as Hzero.
  { intros ([q t] & Ht & Hin%Htail)%list_elem_of_fmap. simpl in Ht. subst.
    destruct Hin as (i & _ & Heq%q_name_inj). lia. }
  assert (∀ q, q ∈ L ↔ q ∈ other_states M) as HL
    by (intros; apply elem_of_set_iter).
  unfold initial_names, plan_ok, other_states in *.
  destruct (initial_state M) as [q0|] eqn:Hq0; csimpl.
  - specialize (Hinit q0 eq_refl). split; [|intros ? [= <-]; left].
    split_and!.
    + rewrite Hkeys. apply NoDup_cons. split; [|done]. rewrite HL. set_solver.
    + apply NoDup_cons. done.
    + intros q. rewrite Hkeys, elem_of_cons, HL.
      rewrite elem_of_difference, elem_of_singleton.
      destruct (decide (q = q0)); naive_solver.
    + intros q t [[= -> ->]|(i & _ & ->)%Htail]%elem_of_cons; eauto.
  - split; [|done]. split_and!; [by rewrite Hkeys|done| |].
    + intros q. by rewrite Hkeys, HL.
    + intros q t (i & _ & ->)%Htail. eauto.
Qed.

(** *** The order of the renames *)

Lemma dict_del_fresh old_name names :
  old_name ∉ names.*1 → dict_del old_name names = names.
Proof.
  unfold dict_del. induction names as [|[k v] l IH]; intros Hfresh; [done|].
  csimpl in Hfresh. apply not_elem_of_cons in Hfresh as [Hne Hfresh].
  rewrite filter_cons_True by (simpl; congruence). by rewrite IH.
Qed.

Lemma dict_del_perm old_name new_name names :
  NoDup names.*1 → (old_name, new_name) ∈ names →
  names ≡ₚ (old_name, new_name) :: dict_del old_name names.
Proof.
  unfold dict_del. induction names as [|[k v] l IH]; intros Hnd Hin.
  { by apply elem_of_nil in Hin. }
  csimpl in Hnd. apply NoDup_cons in Hnd as [Hk Hnd].
  destruct (decide (k = old_name)) as [->|Hne].
  - rewrite filter_cons_False by (simpl; tauto).
    apply elem_of_cons in Hin as [[= <-]|Hin].
    + fold (dict_del old_name l). by rewrite dict_del_fresh.
    + destruct Hk. apply list_elem_of_fmap. by exists (old_name, new_name).
  - rewrite filter_cons_True by done.
    apply elem_of_cons in Hin as [[= ? ?]|Hin]; [congruence|].
    rewrite (IH Hnd Hin) at 1. apply perm_swap.
Qed.

Lemma can_rename_now_true names old_name new_name :
  can_rename_now names (old_name, new_name) = true →
  old_name = Str new_name ∨ Str new_name ∉ names.*1.
Proof.
  unfold can_rename_now. simpl. intros [Heq|Hnot]%orb_true_iff.
  - left. by apply bool_decide_eq_true in Heq.
  - right. by apply negb_true_iff, bool_decide_eq_false in Hnot.
Qed.

Lemma order_renames_spec fuel names :
  NoDup names.*1 → length names ≤ fuel →
  ∃ ordered, order_renames fuel names = Some ordered ∧
             ordered.*1 ≡ₚ names ∧ well_ordered ordered.
Proof.
  revert names. induction fuel as [|fuel IH]; intros names Hnd Hlen.
  { destruct names; [by exists []|simpl in Hlen; lia]. }
  destruct names as [|first rest0] eqn:Hnames; [by exists []|].
  rewrite <-Hnames in *. assert (first ∈ names) as Hfirst by (subst; left).
  assert (order_renames (S fuel) names
          = let '(old_name, new_name, use_temp) :=
              match find (can_rename_now names) names with
              | Some entry => (entry.1, entry.2, false)
              | None => (first.1, first.2, true)
              end in
            rest ← order_renames fuel (dict_del old_name names);
            Some ((old_name, new_name, use_temp) :: rest)) as ->
    by by subst.
  assert (∀ old_name new_name use_temp,
            (old_name, new_name) ∈ names →
            (use_temp = false →
             old_name = Str new_name ∨ Str new_name ∉ names.*1) →
            ∃ ordered,
              (rest ← order_renames fuel (dict_del old_name names);
               Some ((old_name, new_name, use_temp) :: rest)) = Some ordered ∧
              ordered.*1 ≡ₚ names ∧ well_ordered ordered) as Hstep.
  { intros old_name new_name use_temp Hin Hcan.
    pose proof (dict_del_perm old_name new_name names Hnd Hin) as Hperm.
    assert (names.*1 ≡ₚ old_name :: (dict_del old_name names).*1) as Hkeys
      by by rewrite Hperm at 1.
    assert (NoDup (old_name :: (dict_del old_name names).*1)) as Hnd'
      by by rewrite <-Hkeys.
    apply NoDup_cons in Hnd' as [Hold Hnd'].
    destruct (IH (dict_del old_name names)) as (rest & Hrest & Hp & Hwo); [done|..].
    { apply Permutation_length in Hperm. simpl in Hperm. lia. }
    rewrite Hrest. simpl. eexists. split; [done|]. split.
    - csimpl. by rewrite Hp, <-Hperm.
    - simpl. split; [|done]. intros Hflag.
      destruct (Hcan Hflag) as [?|Hnot]; [by left|right].
      by rewrite Hp, <-Hkeys. }
  destruct (find (can_rename_now names) names) as [[old_name new_name]|] eqn:Hfind.
  - apply find_some in Hfind as [Hin%list_elem_of_In Hcan%can_rename_now_true].
    by apply Hstep.
  - destruct first as [old_name new_name]. by apply Hstep.
Qed.

(** *** The second loop: the renames *)

Lemma NoDup_fst_unique {K V} (l : list (K * V)) k v1 v2 :
  NoDup l.*1 → (k, v1) ∈ l → (k, v2) ∈ l → v1 = v2.
Proof.
  induction l as [|[k' v'] l IH]; csimpl; intros Hnd H1 H2.
  { by apply elem_of_nil in H1. }
  apply NoDup_cons in Hnd as [Hk Hnd].
  apply elem_of_cons in H1 as [Heq1|H1];
    apply elem_of_cons in H2 as [Heq2|H2]; simplify_eq; try done.
  - destruct Hk. apply list_elem_of_fmap. by exists (k', v2).
  - destruct Hk. apply list_elem_of_fmap. by exists (k', v1).
  - by apply IH.
Qed.

Lemma NoDup_snd_unique {K V} (l : list (K * V)) k1 k2 v :
  NoDup l.*2 → (k1, v) ∈ l → (k2, v) ∈ l → k1 = k2.
Proof.
  induction l as [|[k' v'] l IH]; csimpl; intros Hnd H1 H2.
  { by apply elem_of_nil in H1. }
  apply NoDup_cons in Hnd as [Hk Hnd].
  apply elem_of_cons in H1 as [Heq1|H1];
    apply elem_of_cons in H2 as [Heq2|H2]; simplify_eq; try done.
  - destruct Hk. apply list_elem_of_fmap. by exists (k2, v').
  - destruct Hk. apply list_elem_of_fmap. by exists (k1, v').
  - by apply IH.
Qed.

Lemma plan_named M names q :
  plan_ok M names → q ∈ states M → ∃ t, (q, t) ∈ names.
Proof.
  intros (_ & _ & Hkeys & _) Hq. apply Hkeys in Hq.
  apply list_elem_of_fmap in Hq as ([q' t] & -> & Hin). by exists t.
Qed.

Lemma plan_state M names q t :
  plan_ok M names → (q, t) ∈ names → q ∈ states M.
Proof.
  intros (_ & _ & Hkeys & _) Hin. apply Hkeys.
  apply list_elem_of_fmap. by exists (q, t).
Qed.

Lemma for_each_fuel_cons_Ok {B S} (body : B → S → option (result S)) x xs s s' :
  body x s = Some (Ok s') →
  for_each_fuel body (x :: xs) s = for_each_fuel body xs s'.
Proof. intros Hb. simpl. by rewrite Hb. Qed.

Lemma renaming_loop M names pending M1 :
  registry_ok M → endpoints_registered M → plan_ok M names →
  (∀ e, e ∈ pending → e.1 ∈ names) → NoDup pending.*1.*1 →
  well_ordered pending →
  renaming_inv M names pending M1 →
  ∃ M2, for_each_fuel apply_rename pending M1 = Some (Ok M2) ∧
        renaming_inv M names [] M2.
Proof.
  intros Hreg Hend Hplan. revert M1.
  induction pending as [|[[old_name new_name] use_temp] rest IH];
    intros M1 Hsub Hnd Hwo Hinv; [by exists M1|].
  destruct Hinv as (f & Hrel & Hpend & Hdone).
  csimpl in Hnd. apply NoDup_cons in Hnd as [Hold_rest Hnd].
  destruct Hwo as [Hcan Hwo].
  pose proof Hplan as (Hndk & Hndv & Hkeys & Hform).
  assert ((old_name, new_name) ∈ names) as Hentry
    by (apply (Hsub (old_name, new_name, use_temp)); left).
  assert (old_name ∈ states M) as Hold by by eapply plan_state.
  assert (f old_name = old_name) as Hfold by (apply Hpend; left).
  destruct (relabelled_registry f M M1 Hreg Hend Hrel) as [Hreg1 Hend1].
  pose proof Hrel as (Hinj & Hst1 & _).
  assert (old_name ∈ states M1) as Hold1.
  { rewrite Hst1. apply elem_of_map. exists old_name. done. }
  assert (∃ x k,
            (if use_temp
             then fresh_temp (S (stdpp.base.size (states M1))) (states M1) new_name
             else Some new_name) = Some x ∧
            x = temp_name k new_name ∧
            (old_name ≠ Str x → Str x ∉ states M1)) as (x & k & Hx & -> & Hfresh).
  { destruct use_temp.
    - destruct (fresh_temp_spec (S (stdpp.base.size (states M1))) (states M1) new_name)
        as (k & Hk & Hnot); [lia|].
      exists (temp_name k new_name), k. done.
    - exists new_name, 0. split_and!; [done|done|]. intros Hne.
      destruct (Hcan eq_refl) as [?|Hnot]; [done|].
      rewrite Hst1. intros (q & Hq & Hqin)%elem_of_map.
      destruct (plan_named M names q Hplan Hqin) as [t Ht].
      destruct (decide (q ∈ (old_name :: rest.*1.*1))) as [Hp|Hnp].
      + rewrite (Hpend q) in Hq by done. by subst.
      + destruct (Hdone q t Ht Hnp) as [j Hj]. rewrite Hj in Hq.
        injection Hq as Hq. destruct j as [|j].
        * simpl in Hq. subst t.
          assert (q = old_name) as -> by by eapply NoDup_snd_unique.
          apply Hnp. left.
        * destruct (Hform _ _ Hentry) as [i ->].
          symmetry in Hq. by apply temp_name_ne_q in Hq. }
  destruct (rename_state_total old_name (Str (temp_name k new_name)) M1)
    as [M1' HM1']; [done|].
  rewrite (for_each_fuel_cons_Ok _ _ _ M1 M1');
    [|unfold apply_rename; rewrite Hx; simpl; by rewrite HM1'].
  pose proof (rename_state_relabelled _ _ _ _ Hreg1 Hend1 Hfresh HM1') as Hrel1.
  apply IH; [|done|done|].
  { intros e He. apply Hsub. by right. }
  exists (rename_one old_name (Str (temp_name k new_name)) ∘ f).
  split; [by eapply relabelled_compose|]. split.
  - intros q Hq. simpl. rewrite Hpend by by right.
    apply rename_one_other. by intros ->.
  - intros q t Ht Hnp. destruct (decide (q = old_name)) as [->|Hne].
    + exists k. simpl. rewrite Hfold, rename_one_old.
      by rewrite (NoDup_fst_unique names old_name t new_name).
    + destruct (Hdone q t Ht) as [j Hj].
      { intros [?|?]%elem_of_cons; done. }
      exists j. simpl. rewrite rename_one_other; [done|].
      rewrite <-Hfold. intros Heq. apply Hne.
      apply Hinj; [by eapply plan_state|done|done].
Qed.

(** *** The third loop: the placeholders are stripped *)

Lemma stripping_loop M names f2 M2 :
  registry_ok M → endpoints_registered M → plan_ok M names →
  relabelled f2 M M2 →
  (∀ q t, (q, t) ∈ names → ∃ k, f2 q = Str (temp_name k t)) →
  ∃ M3, for_each strip_temp (set_iter (states M2)) M2 = Ok M3 ∧
        stripping_inv M names f2 (reverse (set_iter (states M2))) M3.
Proof.
  intros Hreg Hend Hplan Hrel2 Hf2.
  pose proof Hplan as (Hndk & Hndv & Hkeys & Hform).
  pose proof Hrel2 as (Hinj2 & Hst2 & _).
  apply (for_each_total strip_temp (stripping_inv M names f2)).
  { exists f2. split; [done|]. intros q t Ht. split; [|done].
    intros Hin. by apply elem_of_nil in Hin. }
  intros visited y rest M1 Hxs (f & Hrel & Hf).
  assert (y ∉ visited) as Hy.
  { eapply for_each_not_in_done; [apply NoDup_set_iter|done]. }
  assert (y ∈ states M2) as Hy2.
  { apply elem_of_set_iter. rewrite Hxs. apply elem_of_app. right. left. }
  rewrite Hst2 in Hy2. apply elem_of_map in Hy2 as (q0 & -> & Hq0).
  destruct (plan_named M names q0 Hplan Hq0) as [t0 Ht0].
  destruct (Hf2 q0 t0 Ht0) as [k Hk].
  destruct (Hform q0 t0 Ht0) as [i ->].
  destruct (Hf q0 _ Ht0) as [_ Hfq0]. specialize (Hfq0 Hy).
  destruct (relabelled_registry f M M1 Hreg Hend Hrel) as [Hreg1 Hend1].
  pose proof Hrel as (Hinj & Hst1 & _).
  (* labels are told apart by the states they stand for *)
  assert (∀ q t, (q, t) ∈ names → f2 q = f2 q0 → q = q0 ∧ t = q_name i) as Hsame.
  { intros q t Ht Heq. assert (q = q0) as ->.
    { apply Hinj2; [by eapply plan_state|done|done]. }
    split; [done|]. by eapply NoDup_fst_unique. }
  rewrite Hk. unfold strip_temp. destruct k as [|k].
  - (* the label is already the new name *)
    change (temp_name 0 (q_name i)) with (q_name i) in *.
    rewrite prefix_temp_q. exists M1. split; [done|].
    exists f. split; [done|]. intros q t Ht. destruct (Hf q t Ht) as [Hv Hnv].
    split.
    + rewrite <-Hk. intros [Heq|Hin]%elem_of_cons; [|by apply Hv].
      destruct (Hsame q t Ht Heq) as [-> ->]. by rewrite Hfq0, Hk.
    + rewrite <-Hk. intros [_ Hnot]%not_elem_of_cons. by apply Hnv.
  - (* the label carries placeholders *)
    rewrite prefix_temp_S, last_segment_temp, last_segment_q.
    assert (@Str A (temp_name (S k) (q_name i)) ≠ Str (q_name i)) as Hne.
    { intros Heq. assert (temp_name (S k) (q_name i) = q_name i) as Heq'
        by congruence. by apply temp_name_ne_q in Heq'. }
    assert (Str (q_name i) ∉ states M1) as Hfree.
    { rewrite Hst1. intros (q & Hq & Hqin)%elem_of_map.
      destruct (plan_named M names q Hplan Hqin) as [t Ht].
      destruct (Hf q t Ht) as [Hv Hnv].
      destruct (decide (f2 q ∈ visited)) as [Hin|Hnin].
      - rewrite (Hv Hin) in Hq. injection Hq as <-.
        assert (q = q0) as -> by by eapply NoDup_snd_unique.
        exact (Hy Hin).
      - rewrite (Hnv Hnin) in Hq. destruct (Hf2 q t Ht) as [j Hj].
        rewrite Hj in Hq. injection Hq as Hq. destruct j as [|j].
        + simpl in Hq. subst t.
          assert (q = q0) as -> by by eapply NoDup_snd_unique.
          rewrite Hk in Hj. exact (Hne Hj).
        + symmetry in Hq. by apply temp_name_ne_q in Hq. }
    destruct (rename_state_total (Str (temp_name (S k) (q_name i)))
                (Str (q_name i)) M1) as [M1' HM1'].
    { intros _. rewrite Hst1. apply elem_of_map. exists q0.
      by rewrite Hfq0, Hk. }
    exists M1'. split; [done|].
    pose proof (rename_state_relabelled _ _ _ _ Hreg1 Hend1 (λ _, Hfree) HM1')
      as Hrel1.
    exists (rename_one (Str (temp_name (S k) (q_name i))) (Str (q_name i)) ∘ f).
    split; [by eapply relabelled_compose|].
    intros q t Ht. destruct (Hf q t Ht) as [Hv Hnv]. unfold compose. split.
    + rewrite <-Hk. intros [Heq|Hin]%elem_of_cons.
      * destruct (Hsame q t Ht Heq) as [-> ->].
        by rewrite Hfq0, rename_one_old.
      * rewrite (Hv Hin). apply rename_one_other.
        destruct (Hform q t Ht) as [j ->]. rewrite Hk. intros Heq.
        assert (temp_name (S k) (q_name i) = q_name j) as Heq' by congruence.
        by apply temp_name_ne_q in Heq'.
    + rewrite <-Hk. intros [Hneq Hnot]%not_elem_of_cons.
      rewrite (Hnv Hnot). by apply rename_one_other.
Qed.

(** *** The whole of [normalize_states] *)

Lemma normalize_states_plan M :
  registry_ok M → endpoints_registered M →
  ∃ M' f, normalize_states M = Some (Ok M') ∧ relabelled f M M' ∧
          ∀ q t, (q, t) ∈ planned_names M → f q = Str t.
Proof.
  intros Hreg Hend. unfold normalize_states.
  destruct (plan_ok_planned M Hreg) as [Hplan Hini].
  set (names := planned_names M) in *.
  pose proof Hplan as (Hndk & Hndv & Hkeys & Hform).
  destruct (order_renames_spec (length names) names) as (ordered & Hord & Hperm & Hwo);
    [done|done|].
  rewrite Hord. simpl.
  destruct (renaming_loop M names ordered M) as (M2 & HM2 & f2 & Hrel2 & _ & Hf2);
    try done.
  { intros e He. rewrite <-Hperm. apply list_elem_of_fmap. by exists e. }
  { by rewrite Hperm. }
  { exists id. split_and!; [|done|].
    - apply (relabelled_ext (rename_one (Str "") (Str ""))); [done..| |].
      + intros q _. by rewrite rename_one_same.
      + by apply rename_state_relabelled.
    - intros q t Ht Hnp. destruct Hnp. rewrite Hperm.
      apply list_elem_of_fmap. by exists (q, t). }
  rewrite HM2. simpl.
  destruct (stripping_loop M names f2 M2) as (M3 & HM3 & f & Hrel & Hf); try done.
  { intros q t Ht. apply Hf2; [done|apply not_elem_of_nil]. }
  exists M3, f. split_and!; [by rewrite HM3|done|].
  intros q t Ht. apply (Hf q _ Ht). apply elem_of_reverse, elem_of_set_iter.
  destruct Hrel2 as (_ & -> & _). apply elem_of_map. exists q.
  split; [done|]. by eapply plan_state.
Qed.

Lemma normalize_states_relabels M :
  registry_ok M → endpoints_registered M →
  ∃ M' f, normalize_states M = Some (Ok M') ∧ relabelled f M M' ∧
          (∀ q, q ∈ states M → ∃ i, f q = Str (q_name i)) ∧
          (∀ q0, initial_state M = Some q0 → f q0 = Str "q0").
Proof.
  intros Hreg Hend.
  destruct (normalize_states_plan M Hreg Hend) as (M' & f & HM' & Hrel & Hf).
  destruct (plan_ok_planned M Hreg) as [Hplan Hini].
  exists M', f. split_and!; [done|done| |].
  - intros q Hq. destruct (plan_named M _ q Hplan Hq) as [t Ht].
    destruct Hplan as (_ & _ & _ & Hform).
    destruct (Hform q t Ht) as [i ->]. exists i. by apply Hf.
  - intros q0 Hq0. by apply Hf, Hini.
Qed.

(** C8.  [normalize_states] ends (both [while] loops within their fuel)
    and raises nothing, whatever the order in which the sets and the dict
    are iterated, hence whatever renames it plans, the identity and cycles
    among them.  The states are relabelled by an injective [f] whose values
    are names [q0], [q1], ...; the initial state becomes [q0]; and the
    automaton accepts the same words as before, in both modes.  The
    hypotheses are the facts every automaton obtained through the methods
    of the class satisfies: the initial and final states and the endpoints
    of the transitions are registered states. *)
Theorem normalize_states_preserves_language M q0 :
  registry_ok M → endpoints_registered M → initial_state M = Some q0 →
  ∃ M' f,
    normalize_states M = Some (Ok M') ∧
    (∀ p q, p ∈ states M → q ∈ states M → f p = f q → p = q) ∧
    states M' = set_map f (states M) ∧
    (∀ q, q ∈ states M → ∃ i, f q = Str (q_name i)) ∧
    f q0 = Str "q0" ∧
    initial_state M' = Some (Str "q0") ∧
    ∀ word mode, accepts M' word mode = accepts M word mode.
Proof.
  intros Hreg Hend Hq0.
  destruct (normalize_states_relabels M Hreg Hend) as (M' & f & HM' & Hrel & Hq & Hini).
  exists M', f. pose proof Hrel as (Hinj & Hst & Hini' & _).
  split_and!; [done|done|done|done|by apply Hini| |].
  - by rewrite Hini', Hq0, <-(Hini q0 Hq0).
  - intros word mode. by apply (relabelled_accepts f).
Qed.

(** *** Sessions with the builder *)

Lemma perform_step_invariant s M M' :
  builder_invariant M → perform_step s M = Some (Ok M') → builder_invariant M'.
Proof.
  intros Hinv. destruct s as [call|]; simpl.
  - intros [= Hcall]. by eapply perform_invariant.
  - intros Hnorm. pose proof Hinv as (Hreg & Hend & _).
    destruct (normalize_states_relabels M Hreg Hend) as (M1 & f & HM1 & Hrel & _).
    rewrite HM1 in Hnorm. injection Hnorm as <-. by eapply relabelled_invariant.
Qed.

Lemma run_session_invariant steps M M' :
  builder_invariant M → run_session steps M = Some (Ok M') → builder_invariant M'.
Proof.
  revert M. induction steps as [|s rest IH]; intros M Hinv; simpl.
  - by intros [= <-].
  - destruct (perform_step s M) as [[M1|e]|] eqn:Hs; [|done..].
    apply IH. by eapply perform_step_invariant.
Qed.

Lemma run_session_take steps M M' k :
  run_session steps M = Some (Ok M') →
  ∃ Mk, run_session (take k steps) M = Some (Ok Mk).
Proof.
  revert M k. induction steps as [|s rest IH]; intros M k; simpl.
  - intros _. exists M. by destruct k.
  - destruct k as [|k]; [by exists M|]. simpl.
    destruct (perform_step s M) as [[M1|e]|] eqn:Hs; [|done..]. apply IH.
Qed.

(** C3.  Take any session with a fresh automaton: calls of [add_state],
    [mark_initial_state], [set_initial_stack_symbol] and [add_transition]
    and, anywhere among them, of [normalize_states].  After each of its
    steps no (state, stack-top) pair carries both a lambda transition and
    a symbol transition, and [is_deterministic()] returns [True]. *)
Theorem builder_keeps_determinism steps M :
  run_session steps new_AP = Some (Ok M) →
  ∀ k, ∃ Mk, run_session (take k steps) new_AP = Some (Ok Mk) ∧
             deterministic Mk ∧ is_deterministic Mk = true.
Proof.
  intros Hrun k. destruct (run_session_take _ _ _ k Hrun) as [Mk HMk].
  exists Mk. split; [done|].
  assert (builder_invariant Mk) as (_ & _ & _ & Hdet).
  { eapply run_session_invariant; [apply new_AP_invariant|done]. }
  split; [done|]. by apply is_deterministic_true.
Qed.

End normalize_properties.

(** ** The automata as objects *)

Section heap_properties.
Context `{IterOrder}.

(** *** Rules for programs on the heap *)

Lemma spec_ret {A} (I : Heap.heap → Prop) (a : A) (Φ : A → Prop) :
  Φ a → Heap.spec I (mret a) Φ.
Proof. intros Ha h Hh. split; [done|]. by intros a' [= <-]. Qed.

Lemma spec_raise {A} (I : Heap.heap → Prop) e (Φ : A → Prop) :
  Heap.spec I (Heap.raise e) Φ.
Proof. intros h Hh. split; [done|]. intros a. discriminate. Qed.

Lemma spec_bind {A B} (I : Heap.heap → Prop) (m : Heap.hm A)
    (k : A → Heap.hm B) (Φ : A → Prop) (Ψ : B → Prop) :
  Heap.spec I m Φ → (∀ a, Φ a → Heap.spec I (k a) Ψ) →
  Heap.spec I (m ≫= k) Ψ.
Proof.
  intros Hm Hk h Hh. destruct (Hm h Hh) as [HI HΦ].
  unfold mbind, Heap.hm_bind. destruct (m h) as [[a|e] h1]; simpl in *.
  - apply Hk; [by apply HΦ|done].
  - split; [done|]. intros b. discriminate.
Qed.

Lemma spec_for {A} (I : Heap.heap → Prop) (xs : list A) body :
  (∀ x, Heap.spec I (body x) (λ _, True)) →
  Heap.spec I (Heap.for_ xs body) (λ _, True).
Proof.
  intros Hbody. induction xs as [|x xs IH]; simpl.
  - by apply spec_ret.
  - eapply spec_bind; [apply Hbody|]. intros _ _. apply IH.
Qed.

(** A program that leaves the heap as it is keeps everything. *)
Lemma spec_read {A} (I : Heap.heap → Prop) (m : Heap.hm A) :
  (∀ h, (m h).2 = h) → Heap.spec I m (λ _, True).
Proof. intros Hm h Hh. rewrite Hm. done. Qed.

Lemma spec_attr {A} (I : Heap.heap → Prop) (attribute : Heap.object → A) self :
  Heap.spec I (Heap.attr attribute self) (λ _, True).
Proof. by apply spec_read. Qed.

(** *** Programs that only read *)

Lemma reads_ret {A} (a : A) : Heap.reads (mret a : Heap.hm A).
Proof. done. Qed.

Lemma reads_bind {A B} (m : Heap.hm A) (k : A → Heap.hm B) :
  Heap.reads m → (∀ a, Heap.reads (k a)) → Heap.reads (m ≫= k).
Proof.
  intros Hm Hk h. unfold mbind, Heap.hm_bind. specialize (Hm h).
  destruct (m h) as [[a|e] h1]; simpl in *; subst; [apply Hk|done].
Qed.

Lemma reads_get_transition self state input_symbol stack_top :
  Heap.reads (Heap.get_transition self state input_symbol stack_top).
Proof. done. Qed.

Lemma reads_step_lambda self state remaining_input stack stack_top :
  Heap.reads (Heap.step_lambda self state remaining_input stack stack_top).
Proof.
  apply reads_bind; [apply reads_get_transition|].
  by intros [[new_state stack_string]|].
Qed.

Lemma reads_step self state remaining_input stack :
  Heap.reads (Heap.step self state remaining_input stack).
Proof.
  unfold Heap.step. destruct (last stack) as [stack_top|]; [|done].
  destruct (uncons remaining_input) as [[input_symbol rest]|];
    [|apply reads_step_lambda].
  apply reads_bind; [apply reads_get_transition|].
  intros [[new_state stack_string]|]; [done|apply reads_step_lambda].
Qed.

Lemma reads_accepting self mode state remaining_input stack :
  Heap.reads (Heap.accepting self mode state remaining_input stack).
Proof.
  unfold Heap.accepting. destruct (consumed remaining_input); [|done].
  repeat case_bool_decide; done.
Qed.

Lemma reads_accepts_loop self mode fuel state remaining_input stack :
  Heap.reads (Heap.accepts_loop self mode fuel state remaining_input stack).
Proof.
  revert state remaining_input stack.
  induction fuel as [|fuel IH]; intros state remaining_input stack; simpl.
  { apply reads_accepting. }
  apply reads_bind; [apply reads_accepting|]. intros [|]; [done|].
  apply reads_bind; [apply reads_step|].
  intros [[[state' remaining_input'] stack']|]; [apply IH|apply reads_accepting].
Qed.

Lemma reads_accepts self word mode : Heap.reads (Heap.accepts self word mode).
Proof.
  unfold Heap.accepts. apply reads_bind; [done|]. intros [q0|].
  - apply reads_bind; [done|]. intros symbol. apply reads_accepts_loop.
  - by apply reads_bind.
Qed.

(** *** Programs that write to new containers only *)

Lemma prefix_insert_ge {A} (l0 l : list A) i x :
  l0 `prefix_of` l → length l0 ≤ i → l0 `prefix_of` <[i:=x]> l.
Proof.
  intros [k ->] Hi. exists (<[i - length l0 := x]> k).
  by rewrite insert_app_r_alt.
Qed.

Lemma extends_refl h : Heap.extends h h.
Proof. by split_and!. Qed.

Lemma extends_view h h' self :
  Heap.allocated h self → Heap.extends h h' →
  Heap.view h' self = Heap.view h self.
Proof.
  intros (Hself & Hs & Hf & Ht & Hi & Hz) (Hss & Hsy & Hd & Ho).
  assert (∀ {A} `{Inhabited A} (l l' : list A) i,
            l `prefix_of` l' → i < length l → l' !!! i = l !!! i) as Hsame.
  { intros A ? l l' i [k ->] Hi'. by rewrite lookup_total_app_l. }
  unfold Heap.view. rewrite (Hsame _ _ _ _ _ Ho Hself).
  by rewrite !(Hsame _ _ _ _ _ Hss), !(Hsame _ _ _ _ _ Hsy), (Hsame _ _ _ _ _ Hd).
Qed.

Section separate.
Context (h0 : Heap.heap) (C : Heap.loc).

Lemma spec_get_object :
  Heap.spec (Heap.separate h0 C) (Heap.get_object C) (Heap.fresh_refs h0).
Proof. intros h Hh. split; [done|]. intros o [= <-]. apply Hh. Qed.

Lemma spec_ref (ref : Heap.object → Heap.loc) (bound : nat) :
  (∀ o, Heap.fresh_refs h0 o → bound ≤ ref o) →
  Heap.spec (Heap.separate h0 C) (Heap.attr ref C) (λ l, bound ≤ l).
Proof.
  intros Href. eapply spec_bind; [apply spec_get_object|].
  intros o Ho. apply spec_ret. by apply Href.
Qed.

Lemma spec_ref_states :
  Heap.spec (Heap.separate h0 C) (Heap.attr Heap.ref_states C)
    (λ l, length (Heap.state_sets h0) ≤ l).
Proof. apply spec_ref. by intros o (? & ? & ? & ? & ?). Qed.

Lemma spec_ref_final_states :
  Heap.spec (Heap.separate h0 C) (Heap.attr Heap.ref_final_states C)
    (λ l, length (Heap.state_sets h0) ≤ l).
Proof. apply spec_ref. by intros o (? & ? & ? & ? & ?). Qed.

Lemma spec_ref_transitions :
  Heap.spec (Heap.separate h0 C) (Heap.attr Heap.ref_transitions C)
    (λ l, length (Heap.dicts h0) ≤ l).
Proof. apply spec_ref. by intros o (? & ? & ? & ? & ?). Qed.

Lemma spec_ref_input_alphabet :
  Heap.spec (Heap.separate h0 C) (Heap.attr Heap.ref_input_alphabet C)
    (λ l, length (Heap.symbol_sets h0) ≤ l).
Proof. apply spec_ref. by intros o (? & ? & ? & ? & ?). Qed.

Lemma spec_ref_stack_alphabet :
  Heap.spec (Heap.separate h0 C) (Heap.attr Heap.ref_stack_alphabet C)
    (λ l, length (Heap.symbol_sets h0) ≤ l).
Proof. apply spec_ref. by intros o (? & ? & ? & ? & ?). Qed.

Lemma spec_put_states l s :
  length (Heap.state_sets h0) ≤ l →
  Heap.spec (Heap.separate h0 C) (Heap.put_states l s) (λ _, True).
Proof.
  intros Hl h ((Hss & Hsy & Hd & Ho) & HC & Hfresh). split; [|done].
  split_and!; simpl; [|done..]. split_and!; simpl; [|done..].
  by apply prefix_insert_ge.
Qed.

Lemma spec_put_symbols l s :
  length (Heap.symbol_sets h0) ≤ l →
  Heap.spec (Heap.separate h0 C) (Heap.put_symbols l s) (λ _, True).
Proof.
  intros Hl h ((Hss & Hsy & Hd & Ho) & HC & Hfresh). split; [|done].
  split_and!; simpl; [|done..]. split_and!; simpl; [done| |done..].
  by apply prefix_insert_ge.
Qed.

Lemma spec_put_dict l d :
  length (Heap.dicts h0) ≤ l →
  Heap.spec (Heap.separate h0 C) (Heap.put_dict l d) (λ _, True).
Proof.
  intros Hl h ((Hss & Hsy & Hd & Ho) & HC & Hfresh). split; [|done].
  split_and!; simpl; [|done..]. split_and!; simpl; [done|done| |done].
  by apply prefix_insert_ge.
Qed.

Lemma spec_put_object o :
  Heap.fresh_refs h0 o →
  Heap.spec (Heap.separate h0 C) (Heap.put_object C o) (λ _, True).
Proof.
  intros Hnew h ((Hss & Hsy & Hd & Ho) & HC & Hfresh). split; [|done].
  split_and!; simpl; [|done|].
  - split_and!; simpl; [done..|]. by apply prefix_insert_ge.
  - destruct (decide (C < length (Heap.objects h))) as [Hlt|Hge].
    + by rewrite list_lookup_total_insert_eq.
    + rewrite list_insert_ge by lia. done.
Qed.

Lemma spec_new_symbol_set s :
  Heap.spec (Heap.separate h0 C) (Heap.new_symbol_set s)
    (λ l, length (Heap.symbol_sets h0) ≤ l).
Proof.
  intros h ((Hss & Hsy & Hd & Ho) & HC & Hfresh). split.
  - split_and!; simpl; [|done..]. split_and!; simpl; [done| |done..].
    by apply prefix_app_r.
  - intros l [= <-]. by apply prefix_length.
Qed.

(** The methods, called on [C]. *)

Ltac spec_leaf :=
  lazymatch goal with
  | |- Heap.spec _ (Heap.raise _) _ => apply spec_raise
  | |- Heap.spec _ (mret _) _ => apply spec_ret; exact I
  | |- Heap.spec _ (Heap.put_states _ _) _ => apply spec_put_states; assumption
  | |- Heap.spec _ (Heap.put_symbols _ _) _ => apply spec_put_symbols; assumption
  | |- Heap.spec _ (Heap.put_dict _ _) _ => apply spec_put_dict; assumption
  | |- Heap.spec _ (Heap.attr Heap.ref_states C) _ => apply spec_ref_states
  | |- Heap.spec _ (Heap.attr Heap.ref_final_states C) _ =>
      apply spec_ref_final_states
  | |- Heap.spec _ (Heap.attr Heap.ref_transitions C) _ =>
      apply spec_ref_transitions
  | |- Heap.spec _ (Heap.attr Heap.ref_input_alphabet C) _ =>
      apply spec_ref_input_alphabet
  | |- Heap.spec _ (Heap.attr Heap.ref_stack_alphabet C) _ =>
      apply spec_ref_stack_alphabet
  | |- Heap.spec _ (Heap.new_symbol_set _) _ => apply spec_new_symbol_set
  | |- Heap.spec _ (Heap.attr _ _) _ => apply spec_attr
  | |- Heap.spec _ (Heap.get_states _) _ => apply spec_read; reflexivity
  | |- Heap.spec _ (Heap.get_symbols _) _ => apply spec_read; reflexivity
  | |- Heap.spec _ (Heap.get_dict _) _ => apply spec_read; reflexivity
  end.

(** One statement, and a name for what it returns. *)
Tactic Notation "spec_step" "as" simple_intropattern(x) :=
  eapply spec_bind; [spec_leaf|intros x ?].

Ltac spec_steps :=
  repeat first [spec_leaf | eapply spec_bind; [spec_leaf|intros ? ?]].

Lemma add_state_separate state final :
  Heap.spec (Heap.separate h0 C) (Heap.add_state C state final) (λ _, True).
Proof.
  unfold Heap.add_state. spec_step as l. spec_step as states.
  case_bool_decide; [spec_leaf|].
  spec_step as l'. spec_step as states'. spec_step as u.
  destruct final; spec_steps.
Qed.

Lemma set_attribute_separate (update : Heap.object → Heap.object) :
  (∀ o, Heap.fresh_refs h0 o → Heap.fresh_refs h0 (update o)) →
  Heap.spec (Heap.separate h0 C)
    (o ← Heap.get_object C; Heap.put_object C (update o)) (λ _, True).
Proof.
  intros Hupdate. eapply spec_bind; [apply spec_get_object|].
  intros o Ho. apply spec_put_object. by apply Hupdate.
Qed.

Lemma mark_initial_state_separate state :
  Heap.spec (Heap.separate h0 C) (Heap.mark_initial_state C state) (λ _, True).
Proof.
  unfold Heap.mark_initial_state. spec_step as l. spec_step as states.
  case_bool_decide; [|spec_leaf].
  apply (set_attribute_separate
           (λ o, Heap.mkObject _ (Some state) _ _ _ _ _)). done.
Qed.

Lemma add_stack_symbol_separate symbol :
  Heap.spec (Heap.separate h0 C) (Heap.add_stack_symbol C symbol) (λ _, True).
Proof. unfold Heap.add_stack_symbol. spec_steps. Qed.

Lemma set_initial_stack_symbol_separate symbol :
  Heap.spec (Heap.separate h0 C) (Heap.set_initial_stack_symbol C symbol)
    (λ _, True).
Proof.
  unfold Heap.set_initial_stack_symbol. eapply spec_bind.
  - apply (set_attribute_separate
             (λ o, Heap.mkObject _ _ _ _ _ _ symbol)). done.
  - intros _ _. spec_steps.
Qed.

Lemma set_input_alphabet_separate l :
  length (Heap.symbol_sets h0) ≤ l →
  Heap.spec (Heap.separate h0 C) (Heap.set_input_alphabet C l) (λ _, True).
Proof.
  intros Hl.
  apply (set_attribute_separate (λ o, Heap.mkObject _ _ _ _ l _ _)).
  intros o (? & ? & ? & ? & ?). by split_and!.
Qed.

Lemma set_stack_alphabet_separate l :
  length (Heap.symbol_sets h0) ≤ l →
  Heap.spec (Heap.separate h0 C) (Heap.set_stack_alphabet C l) (λ _, True).
Proof.
  intros Hl.
  apply (set_attribute_separate (λ o, Heap.mkObject _ _ _ _ _ l _)).
  intros o (? & ? & ? & ? & ?). by split_and!.
Qed.

Lemma add_transition_separate state new_state input_symbol stack_top stack_push :
  Heap.spec (Heap.separate h0 C)
    (Heap.add_transition C state new_state input_symbol stack_top stack_push)
    (λ _, True).
Proof.
  unfold Heap.add_transition. spec_step as l. spec_step as states.
  destruct (negb _); [spec_leaf|]. spec_step as l'. spec_step as states'.
  destruct (negb _); [spec_leaf|]. spec_step as t. spec_step as transitions.
  case_bool_decide; [spec_leaf|].
  eapply spec_bind with (Φ := λ _, True).
  { destruct input_symbol as [symbol|].
    - spec_step as t'. spec_step as transitions'. case_bool_decide; spec_leaf.
    - spec_step as a. spec_step as input_alphabet.
      spec_step as t'. spec_step as transitions'.
      destruct (existsb _ _); spec_leaf. }
  intros _ _. spec_step as t'. spec_step as transitions'. spec_step as u.
  eapply spec_bind with (Φ := λ _, True).
  { destruct input_symbol as [symbol|]; spec_steps. }
  intros _ _. eapply spec_bind; [apply add_stack_symbol_separate|].
  intros _ _. apply spec_for. intros symbol. apply add_stack_symbol_separate.
Qed.

Lemma perform_separate call :
  Heap.spec (Heap.separate h0 C) (Heap.perform C call) (λ _, True).
Proof.
  destruct call; simpl.
  - apply add_state_separate.
  - apply mark_initial_state_separate.
  - apply set_initial_stack_symbol_separate.
  - apply add_transition_separate.
Qed.

Lemma session_separate calls h :
  Heap.separate h0 C h → Heap.separate h0 C (Heap.session C calls h).
Proof.
  revert h. induction calls as [|call calls IH]; intros h Hh; [done|].
  simpl. apply IH. by apply perform_separate.
Qed.

(** The constructor, from the point at which it has made [C]. *)
Lemma fill_complement_separate self :
  Heap.spec (Heap.separate h0 C) (Heap.fill_complement self C) (λ C', C' = C).
Proof.
  unfold Heap.fill_complement.
  spec_step as l. spec_step as states.
  eapply spec_bind with (Φ := λ _, True).
  { apply spec_for. intros q.
    eapply spec_bind; [apply add_state_separate|]. intros _ _.
    eapply spec_bind; [apply add_state_separate|]. intros _ _.
    apply add_state_separate. }
  intros _ _. spec_step as initial_state. spec_step as l'.
  spec_step as final_states.
  eapply spec_bind with (Φ := λ _, True).
  { destruct initial_state as [q0|]; [|spec_leaf].
    case_bool_decide; apply mark_initial_state_separate. }
  intros _ _. spec_step as a. spec_step as input_alphabet.
  spec_step as copy.
  eapply spec_bind; [by apply set_input_alphabet_separate|].
  intros _ _. spec_step as a'. spec_step as stack_alphabet.
  spec_step as copy'.
  eapply spec_bind; [by apply set_stack_alphabet_separate|].
  intros _ _. spec_step as symbol.
  eapply spec_bind; [apply set_initial_stack_symbol_separate|].
  intros _ _. spec_step as t. spec_step as transitions.
  eapply spec_bind with (Φ := λ _, True).
  { apply spec_for. intros [[[q [input_symbol|]] stack_symbol] [p stack_push]];
      [|spec_leaf].
    spec_step as l1. spec_step as final_states1.
    eapply spec_bind; [apply add_transition_separate|]. intros _ _.
    apply add_transition_separate. }
  intros _ _. spec_step as t'. spec_step as transitions'.
  eapply spec_bind with (Φ := λ _, True).
  { apply spec_for. intros [[[q [input_symbol|]] stack_symbol] [p stack_push]];
      [spec_leaf|].
    spec_step as l1. spec_step as final_states1.
    eapply spec_bind; [apply add_transition_separate|]. intros _ _.
    apply add_transition_separate. }
  intros _ _. spec_step as l2. spec_step as states2.
  eapply spec_bind with (Φ := λ _, True).
  { apply spec_for. intros q. spec_step as a2. spec_step as stack_alphabet2.
    apply spec_for. intros stack_symbol.
    spec_step as t2. spec_step as transitions2.
    destruct (negb _); [apply add_transition_separate|spec_leaf]. }
  intros _ _. by apply spec_ret.
Qed.

End separate.

Lemma bind_run {A B} (m : Heap.hm A) (k : A → Heap.hm B) h r h' :
  (m ≫= k) h = (r, h') →
  (∃ a h1, m h = (Ok a, h1) ∧ k a h1 = (r, h')) ∨
  (∃ e, m h = (Raise e, h') ∧ r = Raise e).
Proof.
  unfold mbind, Heap.hm_bind. destruct (m h) as [[a|e] h1]; [by eauto|].
  intros [= <- <-]. eauto.
Qed.

Lemma init_separate h0 C h1 :
  Heap.__init__ h0 = (Ok C, h1) → Heap.separate h0 C h1.
Proof.
  intros [= <- <-]. split_and!; simpl.
  - split_and!; simpl; rewrite <-?(assoc_L (++)); by apply prefix_app_r.
  - done.
  - rewrite lookup_total_app_r, Nat.sub_diag by done. simpl.
    split_and!; simpl; rewrite ?length_app; simpl; lia.
Qed.

Lemma complement_separate self h0 r h' :
  Heap.crear_automata_complemento self h0 = (r, h') →
  ∃ C, Heap.separate h0 C h' ∧ ∀ C', r = Ok C' → C' = C.
Proof.
  unfold Heap.crear_automata_complemento.
  intros [(C & h1 & Hinit & Hfill)|(e & Hinit & _)]%bind_run; [|done].
  apply init_separate in Hinit.
  destruct (fill_complement_separate h0 C self h1 Hinit) as [Hsep Hret].
  rewrite Hfill in Hsep, Hret. exists C. split; [done|].
  intros C' ->. by apply Hret.
Qed.

Lemma separate_disjoint h0 P C h :
  Heap.allocated h0 P → Heap.separate h0 C h → Heap.disjoint_objects h C P.
Proof.
  intros (HP & Hs & Hf & Ht & Hi & Hz) ((_ & _ & _ & [k Ho]) & HC & Hfresh).
  unfold Heap.disjoint_objects.
  assert (Heap.objects h !!! P = Heap.objects h0 !!! P) as ->.
  { by rewrite Ho, lookup_total_app_l. }
  destruct Hfresh as (? & ? & ? & ? & ?). simpl. split_and!; lia.
Qed.

(** C10.  [step] and [accepts] leave the heap as they find it.  After
    [C = P.crear_automata_complemento()], returned or raised, the states,
    accepting states, initial state, transitions, alphabets and initial
    stack symbol of [P] are what they were; [C] and [P] have no container
    in common; and whatever the builder then does to [C], [P] stays what
    it was. *)
Theorem source_is_not_mutated h P :
  Heap.allocated h P →
  (∀ state remaining_input stack,
     (Heap.step P state remaining_input stack h).2 = h) ∧
  (∀ word mode, (Heap.accepts P word mode h).2 = h) ∧
  (∀ r h',
     Heap.crear_automata_complemento P h = (r, h') →
     Heap.view h' P = Heap.view h P ∧
     ∀ C, r = Ok C →
          Heap.disjoint_objects h' C P ∧
          ∀ calls, Heap.view (Heap.session C calls h') P = Heap.view h P).
Proof.
  intros HP. split_and!.
  - intros state remaining_input stack. apply reads_step.
  - intros word mode. apply reads_accepts.
  - intros r h' (C & Hsep & Hret)%complement_separate. split.
    + apply extends_view; [done|apply Hsep].
    + intros C' ->%Hret. split; [by eapply separate_disjoint|].
      intros calls. apply extends_view; [done|].
      by apply session_separate.
Qed.

End heap_properties.

(** ** More on the builder *)

Section builder_more.
Context {Q : Type} `{Countable Q} `{IterOrder}.
Implicit Types M : AP Q.

(** On an automaton whose alphabets record its transitions,
    [is_deterministic()] returns [True] exactly when no (state, stack-top)
    pair carries both a lambda transition and a symbol transition. *)
Theorem is_deterministic_decides M :
  alphabet_closed M → (is_deterministic M = true ↔ deterministic M).
Proof.
  intros Hclosed. split.
  - by apply is_deterministic_sound.
  - apply is_deterministic_true.
Qed.

(** After a successful [add_transition], [get_transition] on the same key
    returns the transition just added, the key had no transition before,
    and every other key has the transition it had. *)
Theorem add_transition_then_get_transition
    state new_state input_symbol stack_top stack_push M M' :
  add_transition state new_state input_symbol stack_top stack_push M = Ok M' →
  get_transition M state input_symbol stack_top = None ∧
  get_transition M' state input_symbol stack_top = Some (new_state, stack_push) ∧
  ∀ q o X, (q, o, X) ≠ (state, input_symbol, stack_top) →
           get_transition M' q o X = get_transition M q o X.
Proof.
  intros (-> & _ & _ & Hfree)%add_transition_Ok. unfold get_transition. simpl.
  split; [done|]. split; [by rewrite lookup_insert_eq|].
  intros q o X Hne. by rewrite lookup_insert_ne.
Qed.

Lemma grows_refl M : grows M M.
Proof. by split_and!. Qed.

Lemma grows_trans M1 M2 M3 : grows M1 M2 → grows M2 M3 → grows M1 M3.
Proof.
  intros (? & ? & ? & ? & ?) (? & ? & ? & ? & ?).
  split_and!; by etrans.
Qed.

Lemma perform_grows call M M' : perform call M = Ok M' → grows M M'.
Proof.
  destruct call as [state final|state|symbol|state new_state o X push]; simpl.
  - unfold add_state. case_bool_decide; [done|]. intros [= <-].
    split_and!; simpl; [set_solver| |done..]. destruct final; set_solver.
  - unfold mark_initial_state. case_bool_decide; [|done]. intros [= <-].
    by split_and!.
  - intros [= <-]. split_and!; simpl; [done..|set_solver].
  - intros (-> & _ & _ & Hfree)%add_transition_Ok.
    split_and!; simpl; [done|done| | |set_solver].
    + by apply insert_subseteq.
    + destruct o; set_solver.
Qed.

Lemma for_each_app {A S} (body : A → S → result S) xs ys s s' :
  for_each body (xs ++ ys) s = Ok s' ↔
  ∃ s1, for_each body xs s = Ok s1 ∧ for_each body ys s1 = Ok s'.
Proof.
  revert s. induction xs as [|x xs IH]; intros s; simpl.
  - split; [by eauto|]. by intros (s1 & [= <-] & ?).
  - destruct (body x s) as [s1|e]; simpl; [apply IH|].
    split; [done|]. by intros (? & ? & ?).
Qed.

Lemma for_each_perform_grows calls M M' :
  for_each perform calls M = Ok M' → grows M M'.
Proof.
  revert M. induction calls as [|call calls IH]; intros M; simpl.
  - intros [= <-]. apply grows_refl.
  - destruct (perform call M) as [M1|e] eqn:Hcall; simpl; [|done].
    intros Hrest. eapply grows_trans; [by eapply perform_grows|by apply IH].
Qed.

(** The builder only adds: whatever a script has built is still there,
    unchanged, after any further calls.  States, accepting states and
    symbols stay, and a transition that [get_transition] returns once is
    returned for ever. *)
Theorem builder_only_adds calls1 calls2 M2 :
  build (calls1 ++ calls2) = Ok M2 →
  ∃ M1, build calls1 = Ok M1 ∧ grows M1 M2 ∧
        ∀ q o X v, get_transition M1 q o X = Some v →
                   get_transition M2 q o X = Some v.
Proof.
  unfold build. intros (M1 & H1 & H2)%for_each_app. exists M1.
  split; [done|]. apply for_each_perform_grows in H2.
  split; [done|]. intros q o X v Hv. unfold get_transition in *.
  destruct H2 as (_ & _ & Hsub & _). by eapply lookup_weaken.
Qed.

Lemma perform_size call M M' :
  perform call M = Ok M' →
  size M' = size M + match call with AddState _ _ => 1 | _ => 0 end.
Proof.
  destruct call as [state final|state|symbol|state new_state o X push]; simpl.
  - unfold add_state. case_bool_decide as Hin; [done|]. intros [= <-].
    unfold size. simpl. rewrite size_union by set_solver.
    by rewrite size_singleton.
  - unfold mark_initial_state. case_bool_decide; [|done]. intros [= <-].
    unfold size. simpl. lia.
  - intros [= <-]. unfold size. simpl. lia.
  - intros (-> & _)%add_transition_Ok. unfold size. simpl. lia.
Qed.

(** [size()] counts the [add_state] calls: after a script that raised
    nothing, the automaton has as many states as the script has calls of
    [add_state]. *)
Theorem size_counts_add_state_calls calls M :
  build calls = Ok M → size M = add_state_calls calls.
Proof.
  unfold build.
  enough (∀ M0, for_each perform calls M0 = Ok M →
                size M = size M0 + add_state_calls calls) as Hgen.
  { intros Hrun. rewrite (Hgen _ Hrun).
    assert (size (new_AP : AP Q) = 0) as -> by apply size_empty. done. }
  induction calls as [|call calls IH]; intros M0; simpl.
  - intros [= <-]. unfold add_state_calls. simpl. lia.
  - destruct (perform call M0) as [M1|e] eqn:Hcall; simpl; [|done].
    intros Hrest. rewrite (IH _ Hrest), (perform_size _ _ _ Hcall).
    unfold add_state_calls. destruct call; simpl; lia.
Qed.

End builder_more.

(** ** More on the engine *)

Section engine_more.
Context {Q : Type} `{Countable Q}.
Implicit Types M : AP Q.

(** What a run has consumed is a prefix of the characters of its input,
    made of symbols of the input alphabet. *)
Lemma run_steps_consumes M n q r stack q' r' stack' :
  alphabet_closed M →
  run_steps M n (q, r, stack) = Some (q', r', stack') →
  ∃ consumed_input, chars r = consumed_input ++ chars r' ∧
                    ∀ a, a ∈ consumed_input → a ∈ input_alphabet M.
Proof.
  intros Hclosed. revert q r stack.
  induction n as [|n IH]; intros q r stack; simpl.
  - intros [= <- <- <-]. exists []. split; [done|]. intros a Ha.
    by apply elem_of_nil in Ha.
  - destruct (step M q r stack) as [[[q1 r1] stack1]|] eqn:Hstep; [|done].
    intros (pre & Hr1 & Hpre)%IH.
    apply step_Some_inv in Hstep as (X & _ & Hcase).
    destruct Hcase as [(a & rest & p & s & Hu & Ht & Hc)|(p & s & _ & _ & Hc)];
      simplify_eq.
    + exists (a :: pre). split.
      { rewrite (chars_uncons _ _ _ Hu), Hr1. done. }
      intros b [->|Hb]%elem_of_cons; [|by apply Hpre].
      by apply (Hclosed q (Some a) X); [eexists|].
    + by exists pre.
Qed.

(** [accepts] accepts only words over the input alphabet: on an
    automaton whose alphabets record its transitions, a word with a
    symbol outside the input alphabet is rejected, in every mode. *)
Theorem accepts_only_words_over_the_alphabet M word mode :
  alphabet_closed M → accepts M word mode = true → word_over M word.
Proof.
  intros Hclosed. unfold accepts.
  destruct (initial_state M) as [q0|]; [|done].
  intros (n & [[q' r'] stack'] & _ & Hrun & Hacc)%accepts_loop_true_iff.
  destruct Hacc as [-> _].
  apply run_steps_consumes in Hrun as (pre & Hword & Hpre); [|done].
  intros a Ha. apply Hpre. rewrite Hword in Ha.
  rewrite chars_empty in Ha. by rewrite app_nil_r in Ha.
Qed.

(** [accepts] reads the initial state, the initial stack symbol, the
    accepting states and the transitions, and nothing else. *)
Lemma accepts_ext (M1 M2 : AP Q) word mode :
  initial_state M1 = initial_state M2 →
  initial_stack_symbol M1 = initial_stack_symbol M2 →
  final_states M1 = final_states M2 →
  transitions M1 = transitions M2 →
  accepts M1 word mode = accepts M2 word mode.
Proof.
  intros Hini Hz Hfin Htr. unfold accepts. rewrite Hini, Hz.
  destruct (initial_state M2) as [q0|]; [|done].
  generalize (max_steps word) as fuel. generalize [initial_stack_symbol M2].
  generalize word as r. generalize q0 as q. intros q r stack fuel.
  revert q r stack. induction fuel as [|fuel IH]; intros q r stack; simpl.
  - unfold final_check. by rewrite Hfin.
  - unfold accepts_now, final_check, step, step_lambda, get_transition.
    rewrite Hfin, Htr.
    destruct (if consumed r then _ else _); [done|].
    destruct (last stack) as [X|]; [|done].
    destruct (uncons r) as [[a rest]|].
    + destruct (transitions M2 !! (q, Some a, X)) as [[p s]|];
        [apply IH|].
      destruct (transitions M2 !! (q, None, X)) as [[p s]|]; [apply IH|done].
    + destruct (transitions M2 !! (q, None, X)) as [[p s]|]; [apply IH|done].
Qed.

End engine_more.

(** ** More on renaming *)

Section renaming_more.
Context {Q : Type} `{Countable Q} `{IterOrder}.
Implicit Types (M : AP Q) (old_name new_name : Q).

Lemma size_set_map_inj `{Countable B} (f : Q → B) (X : gset Q) :
  (∀ p q, p ∈ X → q ∈ X → f p = f q → p = q) →
  stdpp.base.size (set_map f X : gset B) = stdpp.base.size X.
Proof.
  induction X as [|x X Hx IH] using set_ind_L; intros Hinj.
  { by rewrite set_map_empty, !size_empty. }
  rewrite set_map_union_L, set_map_singleton_L.
  rewrite !size_union, !size_singleton, IH; [done| |set_solver|].
  - intros p q Hp Hq. apply Hinj; set_solver.
  - apply elem_of_disjoint.
    intros y ->%elem_of_singleton (z & Hyz & Hz)%elem_of_map.
    apply Hinj in Hyz; [by subst|set_solver..].
Qed.

Lemma relabelled_size f M M' : relabelled f M M' → size M' = size M.
Proof.
  intros (Hinj & Hst & _). unfold size. rewrite Hst.
  by apply size_set_map_inj.
Qed.

Lemma relabelled_id M M' :
  registry_ok M → endpoints_registered M → relabelled id M M' → M' = M.
Proof.
  intros [Hfinal Hinit] Hend
    (Hinj & Hst & Hini & Hfin & Hlook & Hdom & Hia & Hsa & Hz).
  assert (∀ X : gset Q, set_map id X =@{gset Q} X) as Hid.
  { intros X. by apply set_map_id_on. }
  rewrite Hid in Hst, Hfin. rewrite option_fmap_id in Hini.
  assert (transitions M' = transitions M) as Htr.
  { apply map_eq. intros [[q o] X].
    destruct (decide (q ∈ states M)) as [Hq|Hq].
    - specialize (Hlook q o X Hq). simpl in Hlook. rewrite Hlook.
      destruct (transitions M !! (q, o, X)) as [[p s]|]; done.
    - transitivity (@None (Q * string)); [|symmetry]; apply eq_None_not_Some.
      + intros (q' & Hq' & ->)%Hdom. done.
      + intros [[p s] Ht]. by apply Hend in Ht as [? _]. }
  destruct M, M'; simpl in *. by subst.
Qed.

(** Renaming a state to a name that is not in use, and back: the
    automaton is what it was. *)
Theorem rename_state_and_back old_name new_name M :
  registry_ok M → endpoints_registered M →
  old_name ∈ states M → new_name ∉ states M →
  ∃ M', _rename_state old_name new_name M = Ok M' ∧
        _rename_state new_name old_name M' = Ok M.
Proof.
  intros Hreg Hend Hold Hnew.
  destruct (rename_state_total old_name new_name M) as [M' HM']; [done|].
  exists M'. split; [done|].
  pose proof (rename_state_relabelled _ _ _ _ Hreg Hend (λ _, Hnew) HM') as Hrel.
  destruct (relabelled_registry _ _ _ Hreg Hend Hrel) as [Hreg' Hend'].
  pose proof Hrel as (_ & Hst & _).
  assert (old_name ≠ new_name) as Hne by (by intros ->).
  assert (new_name ∈ states M') as Hnew'.
  { rewrite Hst. apply elem_of_map. exists old_name.
    by rewrite rename_one_old. }
  assert (old_name ∉ states M') as Hold'.
  { rewrite Hst. intros (q & Hq & Hqin)%elem_of_map.
    unfold rename_one in Hq. case_bool_decide; simplify_eq. }
  destruct (rename_state_total new_name old_name M') as [M'' HM'']; [done|].
  pose proof (rename_state_relabelled _ _ _ _ Hreg' Hend' (λ _, Hold') HM'')
    as Hrel'.
  rewrite HM''. f_equal. apply relabelled_id; [done..|].
  apply (relabelled_ext
           (rename_one new_name old_name ∘ rename_one old_name new_name));
    [done|done| |by eapply relabelled_compose].
  intros q Hq. simpl. unfold rename_one.
  repeat case_bool_decide; simplify_eq; done.
Qed.

(** Renaming a state to a name that is not in use changes nothing but the
    name: the automaton has as many states, accepts the same words in
    both modes, and keeps what the builder maintains. *)
Theorem rename_state_preserves_language old_name new_name M :
  registry_ok M → endpoints_registered M →
  old_name ∈ states M → new_name ∉ states M →
  ∃ M', _rename_state old_name new_name M = Ok M' ∧
        states M' = states M ∖ {[old_name]} ∪ {[new_name]} ∧
        size M' = size M ∧
        (∀ word mode, accepts M' word mode = accepts M word mode) ∧
        (builder_invariant M → builder_invariant M').
Proof.
  intros Hreg Hend Hold Hnew.
  destruct (rename_state_total old_name new_name M) as [M' HM']; [done|].
  exists M'. split; [done|].
  pose proof (rename_state_relabelled _ _ _ _ Hreg Hend (λ _, Hnew) HM') as Hrel.
  split_and!.
  - destruct Hrel as (_ & -> & _). by apply set_map_rename_in.
  - by eapply relabelled_size.
  - intros word mode. by eapply relabelled_accepts.
  - intros Hinv. by eapply relabelled_invariant.
Qed.

(** [_rename_state] does not check that the new name is free: renaming a
    state to the name of another state raises nothing and merges the two,
    so that the automaton has one state less. *)
Theorem rename_state_onto_a_state_merges old_name new_name M :
  old_name ≠ new_name → old_name ∈ states M → new_name ∈ states M →
  ∃ M', _rename_state old_name new_name M = Ok M' ∧
        states M' = states M ∖ {[old_name]} ∧
        size M' + 1 = size M.
Proof.
  intros Hne Hold Hnew. unfold _rename_state.
  rewrite !bool_decide_true by done. eexists. split; [done|]. simpl.
  assert (states M ∖ {[old_name]} ∪ {[new_name]} = states M ∖ {[old_name]})
    as -> by set_solver.
  split; [done|]. unfold size. simpl.
  rewrite size_difference by set_solver. rewrite size_singleton.
  assert (stdpp.base.size (states M) ≠ 0); [|lia].
  apply size_non_empty_iff. set_solver.
Qed.

End renaming_more.

(** ** More on [normalize_states] *)

Section normalize_more.
Context {A : Type} `{Countable A} `{IterOrder}.
Implicit Types M : AP (hashable A).

Lemma length_set_iter `{Countable B} (X : gset B) :
  length (set_iter X) = stdpp.base.size X.
Proof. by rewrite set_iter_perm. Qed.

Lemma planned_names_values M t :
  registry_ok M →
  t ∈ (planned_names M).*2 ↔
  ∃ i, t = q_name i ∧ first_index M ≤ i < first_index M + size M.
Proof.
  intros Hreg. rewrite planned_names_eq by done. destruct Hreg as [_ Hinit].
  rewrite fmap_app, elem_of_app.
  assert (t ∈ (imap (λ i st, (st, q_name (0 + i + 1)))
                 (set_iter (other_states M))).*2 ↔
          ∃ i, t = q_name (i + 1) ∧ i < stdpp.base.size (other_states M))
    as ->.
  { rewrite list_elem_of_fmap. split.
    - intros ([q t'] & -> & (i & Hi & ->)%imap_names_lookup). exists i.
      split; [done|]. apply lookup_lt_Some in Hi.
      by rewrite length_set_iter in Hi.
    - intros (i & -> & Hi). rewrite <-length_set_iter in Hi.
      apply lookup_lt_is_Some in Hi as [q Hq]. exists (q, q_name (i + 1)).
      split; [done|]. apply imap_names_lookup. by exists i. }
  unfold initial_names, first_index, other_states, size.
  destruct (initial_state M) as [q0|] eqn:Hq0; csimpl.
  - specialize (Hinit q0 eq_refl).
    rewrite size_difference by set_solver. rewrite size_singleton.
    assert (stdpp.base.size (states M) ≠ 0) as Hpos.
    { apply size_non_empty_iff. set_solver. }
    rewrite list_elem_of_singleton. split.
    + intros [->|(i & -> & Hi)]; [exists 0|exists (i + 1)]; split; (done || lia).
    + intros (i & -> & Hi). destruct i as [|i]; [by left|right].
      exists i. split; [by rewrite Nat.add_1_r|lia].
  - split.
    + intros [Hnil|(i & -> & Hi)]; [by apply elem_of_nil in Hnil|].
      exists (i + 1). split; [done|lia].
    + intros (i & -> & Hi). right. destruct i as [|i]; [lia|].
      exists i. split; [by rewrite Nat.add_1_r|lia].
Qed.

(** [normalize_states] ends and raises nothing, with or without a marked
    initial state, and the names it gives are consecutive: the states
    become "q0", ..., "q(n-1)" when an initial state is marked and "q1",
    ..., "qn" when none is, [n] the number of states.  The automaton keeps
    its number of states and of accepting states. *)
Theorem normalize_states_names M :
  registry_ok M → endpoints_registered M →
  ∃ M', normalize_states M = Some (Ok M') ∧
        size M' = size M ∧
        stdpp.base.size (final_states M') = stdpp.base.size (final_states M) ∧
        ∀ s, s ∈ states M' ↔
             ∃ i, s = Str (q_name i) ∧
                  first_index M ≤ i < first_index M + size M.
Proof.
  intros Hreg Hend.
  destruct (normalize_states_plan M Hreg Hend) as (M' & f & HM' & Hrel & Hf).
  destruct (plan_ok_planned M Hreg) as [Hplan _].
  exists M'. split; [done|]. split; [by eapply relabelled_size|].
  pose proof Hrel as (Hinj & Hst & _ & Hfin & _). split.
  - rewrite Hfin. apply size_set_map_inj. intros p q Hp Hq.
    destruct Hreg as [Hfinal _]. apply Hinj; by apply Hfinal.
  - intros s. rewrite Hst, elem_of_map. split.
    + intros (q & -> & Hq). destruct (plan_named M _ q Hplan Hq) as [t Ht].
      destruct (proj1 (planned_names_values M t Hreg)) as (i & -> & Hi).
      { apply list_elem_of_fmap. by exists (q, t). }
      exists i. split; [by apply Hf|done].
    + intros (i & -> & Hi).
      assert (q_name i ∈ (planned_names M).*2) as Hval.
      { apply planned_names_values; [done|]. by exists i. }
      apply list_elem_of_fmap in Hval as ([q t'] & Ht & Hin).
      simpl in Ht. subst t'. exists q.
      split; [symmetry; by apply Hf|]. by eapply plan_state.
Qed.

End normalize_more.

(** ** More on the complement *)

Section complement_more.
Context {Q : Type} `{Countable Q} `{IterOrder}.
Implicit Types (P : AP Q) (C : AP (cstate Q)).

Lemma add_state_transitions {S} `{Countable S} (state : S) final
    (M M' : AP S) :
  add_state state final M = Ok M' → transitions M' = transitions M.
Proof. unfold add_state. case_bool_decide; [done|]. by intros [= <-]. Qed.

Lemma mark_initial_state_transitions {S} `{Countable S} (state : S)
    (M M' : AP S) :
  mark_initial_state state M = Ok M' → transitions M' = transitions M.
Proof. unfold mark_initial_state. case_bool_decide; [|done]. by intros [= <-]. Qed.

Lemma copy_alphabets_invariant P C :
  builder_invariant C → transitions C = ∅ →
  builder_invariant (copy_alphabets P C).
Proof.
  intros (Hreg & Hend & Hclosed & Hdet) Hempty. unfold copy_alphabets.
  apply set_initial_stack_symbol_invariant. split_and!; [done|..].
  - intros q o X p s. simpl. by rewrite Hempty, lookup_empty.
  - intros q o X. simpl. rewrite Hempty, lookup_empty. by intros [].
  - intros q X. simpl. rewrite Hempty, lookup_empty. by intros [].
Qed.

Lemma for_each_keeps {A S} (body : A → S → result S) (I : S → Prop) xs s s' :
  (∀ x s1 s2, I s1 → body x s1 = Ok s2 → I s2) →
  I s → for_each body xs s = Ok s' → I s'.
Proof.
  intros Hbody. revert s. induction xs as [|x xs IH]; intros s Hs; simpl.
  - by intros [= <-].
  - intros (s1 & H1 & Hrest)%bind_Ok_inv. eapply IH; [|done]. by eapply Hbody.
Qed.

(** The automaton that the constructor returns is again one as the
    builder makes them, whatever the source: its initial and accepting
    states and the endpoints of its transitions are registered, its
    alphabets record its transitions, and its table is deterministic. *)
Lemma complement_builder_invariant P C :
  crear_automata_complemento P = Ok C → builder_invariant C.
Proof.
  unfold crear_automata_complemento.
  intros (C0 & Hcopies & Hrun)%bind_Ok_inv.
  apply bind_Ok_inv in Hrun as (C1 & Hmark & Hrun). cbv zeta in Hrun.
  apply bind_Ok_inv in Hrun as (C2 & Hi & Hrun).
  apply bind_Ok_inv in Hrun as (C3 & Hii & Hiii).
  assert (builder_invariant C0 ∧ transitions C0 = ∅) as [Hinv0 Hempty0].
  { revert Hcopies.
    apply (for_each_keeps _ (λ C, builder_invariant C ∧ transitions C = ∅));
      [|split; [apply new_AP_invariant|done]].
    intros q Ca Cb [Hinv Hempty]. unfold add_copies.
    intros (Cx & Hx & Hrest)%bind_Ok_inv.
    apply bind_Ok_inv in Hrest as (Cy & Hy & Hz). split.
    - repeat (eapply add_state_invariant; [|done]). done.
    - rewrite (add_state_transitions _ _ _ _ Hz),
        (add_state_transitions _ _ _ _ Hy), (add_state_transitions _ _ _ _ Hx).
      done. }
  assert (builder_invariant C1 ∧ transitions C1 = ∅) as [Hinv1 Hempty1].
  { unfold mark_initial_copy in Hmark.
    destruct (initial_state P) as [q0|]; [|done].
    case_bool_decide; (split;
      [by eapply mark_initial_state_invariant
      |by rewrite (mark_initial_state_transitions _ _ _ Hmark)]). }
  pose proof (copy_alphabets_invariant P C1 Hinv1 Hempty1) as Hinv2.
  assert (builder_invariant C2) as Hinv3.
  { revert Hi. apply (for_each_keeps _ builder_invariant); [|done].
    intros [[[q [a|]] X] [p s]] Ca Cb Hinv; simpl; [|by intros [= <-]].
    intros (Cx & Hx & Hy)%bind_Ok_inv.
    repeat (eapply add_transition_invariant; [|done]). done. }
  assert (builder_invariant C3) as Hinv4.
  { revert Hii. apply (for_each_keeps _ builder_invariant); [|done].
    intros [[[q [a|]] X] [p s]] Ca Cb Hinv; simpl; [by intros [= <-]|].
    intros (Cx & Hx & Hy)%bind_Ok_inv.
    repeat (eapply add_transition_invariant; [|done]). done. }
  revert Hiii. apply (for_each_keeps _ builder_invariant); [|done].
  intros q Ca Cb Hinv. apply (for_each_keeps _ builder_invariant); [|done].
  intros X Cc Cd Hinv'. unfold rule_iii. destruct (negb _); [|by intros [= <-]].
  by apply add_transition_invariant.
Qed.

(** The constructor can be applied to its own result: for a source whose
    table is deterministic, whose transitions run between registered
    states and whose initial state is marked, it returns an automaton for
    which all this holds again, and a second call on that automaton
    raises nothing either. *)
Theorem complement_of_the_complement P q0 :
  endpoints_registered P → deterministic P →
  initial_state P = Some q0 → q0 ∈ states P →
  ∃ C (D : AP (cstate (cstate Q))),
    crear_automata_complemento P = Ok C ∧ builder_invariant C ∧
    initial_state C = Some (q0, final_index P q0) ∧
    crear_automata_complemento C = Ok D.
Proof.
  intros Hend Hdet Hq0 Hin.
  destruct (complement_total P) as [C HC]; [done|done|by eauto|].
  pose proof (complement_builder_invariant P C HC) as Hinv.
  pose proof (complement_Ok_inv P C HC) as (Hst & _ & (q & Hq & _ & Hini) & _).
  assert (q = q0) as -> by congruence.
  destruct (complement_total C) as [D HD].
  - apply Hinv.
  - apply Hinv.
  - exists (q0, final_index P q0). split; [done|]. apply Hst.
    split; [done|apply final_index_lt].
  - by exists C, D.
Qed.

(** The complement has three states for each state of the source, one of
    them accepting: [C.size() == 3 * P.size()], and as many accepting
    states as the source has states. *)
Theorem complement_size P C :
  crear_automata_complemento P = Ok C →
  size C = 3 * size P ∧ stdpp.base.size (final_states C) = size P.
Proof.
  intros (Hst & Hfin & _)%complement_Ok_inv. unfold size.
  assert (∀ i : nat, stdpp.base.size (set_map (λ q, (q, i)) (states P) : gset (cstate Q))
                     = stdpp.base.size (states P)) as Hcopy.
  { intros i. apply size_set_map_inj. by intros p q _ _ [= ->]. }
  assert (states C = set_map (λ q, (q, 0)) (states P)
                     ∪ set_map (λ q, (q, 1)) (states P)
                     ∪ set_map (λ q, (q, 2)) (states P)) as ->.
  { apply set_eq. intros [q i]. rewrite Hst, !elem_of_union, !elem_of_map.
    split.
    - intros [Hq Hi].
      destruct i as [|[|[|i]]]; [left; left|left; right|right|lia];
        by exists q.
    - intros [[(q' & [= -> ->] & Hq)|(q' & [= -> ->] & Hq)]
               |(q' & [= -> ->] & Hq)]; (split; [done|lia]). }
  assert (final_states C = set_map (λ q, (q, 2)) (states P)) as ->.
  { apply set_eq. intros [q i]. rewrite Hfin, elem_of_map. split.
    - intros [Hq ->]. by exists q.
    - by intros (q' & [= -> ->] & Hq). }
  split; [|apply Hcopy].
  rewrite !size_union, !Hcopy; [lia|..];
    apply elem_of_disjoint; intros [q i];
    rewrite ?elem_of_union, !elem_of_map; naive_solver.
Qed.

End complement_more.

Section order_independence.
Context {Q : Type} `{Countable Q}.

(** The complement does not depend on the order in which the sets and
    the dict of the source are iterated: two runs of the constructor
    that go through them in different orders return automata with the
    same states, accepting states, initial state, initial stack symbol
    and transitions, which accept the same words. *)
Theorem complement_does_not_depend_on_iteration_order
    (order1 order2 : IterOrder) (P : AP Q) (C1 C2 : AP (cstate Q)) :
  @crear_automata_complemento Q _ _ order1 P = Ok C1 →
  @crear_automata_complemento Q _ _ order2 P = Ok C2 →
  states C1 = states C2 ∧ final_states C1 = final_states C2 ∧
  initial_state C1 = initial_state C2 ∧
  initial_stack_symbol C1 = initial_stack_symbol C2 ∧
  transitions C1 = transitions C2 ∧
  ∀ word mode, accepts C1 word mode = accepts C2 word mode.
Proof.
  intros (Hst1 & Hfin1 & (q1 & Hq1 & _ & Hini1) & Hz1 & Htab1)%complement_Ok_inv
         (Hst2 & Hfin2 & (q2 & Hq2 & _ & Hini2) & Hz2 & Htab2)%complement_Ok_inv.
  assert (states C1 = states C2) as Hst.
  { apply set_eq. intros [q i]. by rewrite Hst1, Hst2. }
  assert (final_states C1 = final_states C2) as Hfin.
  { apply set_eq. intros [q i]. by rewrite Hfin1, Hfin2. }
  assert (initial_state C1 = initial_state C2) as Hini by congruence.
  assert (initial_stack_symbol C1 = initial_stack_symbol C2) as Hz by congruence.
  assert (transitions C1 = transitions C2) as Htr.
  { apply map_eq. intros k. apply option_eq. intros v. by rewrite Htab1, Htab2. }
  split_and!; [done..|]. intros word mode. by apply accepts_ext.
Qed.

End order_independence.

(** ** Calls that raise *)

Section exception_safety.
Context `{IterOrder}.

Lemma never_raises_bind {A B} (m : Heap.hm A) (k : A → Heap.hm B) :
  Heap.never_raises m → (∀ a, Heap.never_raises (k a)) →
  Heap.never_raises (m ≫= k).
Proof.
  intros Hm Hk h e h'. unfold mbind, Heap.hm_bind.
  destruct (m h) as [[a|e'] h1] eqn:Hmh; [apply Hk|].
  by destruct (Hm h e' h1).
Qed.

Lemma never_raises_for {A} (xs : list A) body :
  (∀ x, Heap.never_raises (body x)) → Heap.never_raises (Heap.for_ xs body).
Proof.
  intros Hbody. induction xs as [|x xs IH]; simpl; [done|].
  apply never_raises_bind; [apply Hbody|]. intros _. apply IH.
Qed.

Lemma never_raises_attr {A} (attribute : Heap.object → A) self :
  Heap.never_raises (Heap.attr attribute self).
Proof. done. Qed.

Lemma never_raises_add_stack_symbol self symbol :
  Heap.never_raises (Heap.add_stack_symbol self symbol).
Proof. done. Qed.

(** A check: a program that reads, and raises or returns. *)
Lemma all_or_nothing_check {A B} (m : Heap.hm A) (k : A → Heap.hm B) :
  Heap.reads m → (∀ a, Heap.all_or_nothing (k a)) →
  Heap.all_or_nothing (m ≫= k).
Proof.
  intros Hm Hk h e h'. unfold mbind, Heap.hm_bind. specialize (Hm h).
  destruct (m h) as [[a|e'] h1]; simpl in Hm; subst h1.
  - apply Hk.
  - by intros [= _ <-].
Qed.

Lemma all_or_nothing_raise {A} e : Heap.all_or_nothing (Heap.raise e : Heap.hm A).
Proof. by intros h e' h' [= _ <-]. Qed.

Lemma all_or_nothing_never {A} (m : Heap.hm A) :
  Heap.never_raises m → Heap.all_or_nothing m.
Proof. intros Hm h e h' Hrun. by destruct (Hm h e h'). Qed.

Lemma add_state_all_or_nothing self state final :
  Heap.all_or_nothing (Heap.add_state self state final).
Proof.
  unfold Heap.add_state.
  apply all_or_nothing_check; [done|]. intros l.
  apply all_or_nothing_check; [done|]. intros states.
  case_bool_decide; [apply all_or_nothing_raise|].
  apply all_or_nothing_never. by destruct final.
Qed.

Lemma mark_initial_state_all_or_nothing self state :
  Heap.all_or_nothing (Heap.mark_initial_state self state).
Proof.
  unfold Heap.mark_initial_state.
  apply all_or_nothing_check; [done|]. intros l.
  apply all_or_nothing_check; [done|]. intros states.
  case_bool_decide; [by apply all_or_nothing_never|apply all_or_nothing_raise].
Qed.

Lemma add_transition_all_or_nothing
    self state new_state input_symbol stack_top stack_push :
  Heap.all_or_nothing
    (Heap.add_transition self state new_state input_symbol stack_top stack_push).
Proof.
  unfold Heap.add_transition.
  apply all_or_nothing_check; [done|]. intros l.
  apply all_or_nothing_check; [done|]. intros states.
  destruct (negb _); [apply all_or_nothing_raise|].
  apply all_or_nothing_check; [done|]. intros l'.
  apply all_or_nothing_check; [done|]. intros states'.
  destruct (negb _); [apply all_or_nothing_raise|].
  apply all_or_nothing_check; [done|]. intros t.
  apply all_or_nothing_check; [done|]. intros transitions.
  case_bool_decide; [apply all_or_nothing_raise|].
  apply all_or_nothing_check.
  { destruct input_symbol as [symbol|].
    - apply reads_bind; [done|]. intros t'. apply reads_bind; [done|].
      intros transitions'. by case_bool_decide.
    - apply reads_bind; [done|]. intros a. apply reads_bind; [done|].
      intros input_alphabet. apply reads_bind; [done|]. intros t'.
      apply reads_bind; [done|]. intros transitions'.
      by destruct (existsb _ _). }
  intros _. apply all_or_nothing_never.
  apply never_raises_bind; [done|]. intros t'.
  apply never_raises_bind; [done|]. intros transitions'.
  apply never_raises_bind; [done|]. intros _.
  apply never_raises_bind; [by destruct input_symbol|]. intros _.
  apply never_raises_bind; [done|]. intros _.
  apply never_raises_for. intros symbol. apply never_raises_add_stack_symbol.
Qed.

(** A call of the builder that raises has changed nothing: the checks of
    [add_state], [mark_initial_state] and [add_transition] all come before
    their first assignment, and [set_initial_stack_symbol] raises
    nothing. *)
Theorem failed_call_changes_nothing self call h e h' :
  Heap.perform self call h = (Raise e, h') → h' = h.
Proof.
  revert h e h'. change (Heap.all_or_nothing (Heap.perform self call)).
  destruct call; simpl.
  - apply add_state_all_or_nothing.
  - apply mark_initial_state_all_or_nothing.
  - by apply all_or_nothing_never.
  - apply add_transition_all_or_nothing.
Qed.

End exception_safety.

(** ** What the builder records, and where a run can go *)

Section run_invariants.
Context {Q : Type} `{Countable Q} `{IterOrder}.
Implicit Types M : AP Q.

Lemma perform_pushes_recorded call M M' :
  pushes_recorded M → perform call M = Ok M' → pushes_recorded M'.
Proof.
  intros Hrec.
  destruct call as [state final|state|symbol|state new_state o X push]; simpl.
  - unfold add_state. case_bool_decide; [done|]. by intros [= <-].
  - unfold mark_initial_state. case_bool_decide; [|done]. by intros [= <-].
  - intros [= <-] k p s Ht Y HY. simpl. apply elem_of_union. left.
    by eapply Hrec.
  - intros (-> & _ & _ & Hfree)%add_transition_Ok k p s Ht Y HY. simpl in *.
    destruct (decide (k = (state, o, X))) as [->|Hne].
    + rewrite lookup_insert_eq in Ht. simplify_eq.
      apply elem_of_union. right. by apply elem_of_list_to_set.
    + rewrite lookup_insert_ne in Ht by done.
      do 2 (apply elem_of_union; left). by eapply Hrec.
Qed.

Lemma build_pushes_recorded calls M : build calls = Ok M → pushes_recorded M.
Proof.
  unfold build. apply (for_each_keeps _ pushes_recorded).
  - intros call M1 M2. apply perform_pushes_recorded.
  - intros k p s Ht. simpl in Ht. by rewrite lookup_empty in Ht.
Qed.

(** What the builder records: in an automaton built by a script of calls,
    the initial state, the accepting states and both ends of every
    transition are registered states, every input symbol and stack top of
    a transition is in its alphabet, and so is every symbol that a
    transition pushes. *)
Theorem builder_records_what_it_is_given calls M :
  build calls = Ok M →
  registry_ok M ∧ endpoints_registered M ∧ alphabet_closed M ∧
  pushes_recorded M.
Proof.
  intros Hbuilt.
  destruct (build_invariant calls M Hbuilt) as (Hreg & Hend & Hclosed & _).
  split_and!; [done..|]. by eapply build_pushes_recorded.
Qed.

Lemma elem_of_removelast {A} (l : list A) x : x ∈ removelast l → x ∈ l.
Proof.
  induction l as [|y l IH] using rev_ind; [done|].
  rewrite removelast_last. intros Hx. apply elem_of_app. by left.
Qed.

(** A run stays among the registered states and the symbols of the stack
    alphabet: if the endpoints of the transitions are registered, the
    pushed symbols recorded and the run starts in a registered state on a
    stack of symbols of the stack alphabet, then every configuration it
    reaches has a registered state and such a stack. *)
Theorem run_stays_in_the_automaton M n q r stack q' r' stack' :
  endpoints_registered M → pushes_recorded M →
  q ∈ states M → (∀ X, X ∈ stack → X ∈ stack_alphabet M) →
  run_steps M n (q, r, stack) = Some (q', r', stack') →
  q' ∈ states M ∧ ∀ X, X ∈ stack' → X ∈ stack_alphabet M.
Proof.
  intros Hend Hrec. revert q r stack.
  induction n as [|n IH]; intros q r stack Hq Hstack; simpl.
  { by intros [= <- <- <-]. }
  destruct (step M q r stack) as [[[q1 r1] stack1]|] eqn:Hstep; [|done].
  apply IH.
  - by eapply step_target_registered.
  - apply step_Some_inv in Hstep as (X & _ & Hcase).
    assert (∃ k p s, transitions M !! k = Some (p, s) ∧
                     stack1 = replace_top stack s) as (k & p & s & Ht & ->).
    { destruct Hcase as [(a & rest & p & s & _ & Ht & Hc)|(p & s & Ht & _ & Hc)];
        simplify_eq; eauto. }
    intros Y [HY|HY]%elem_of_app.
    + by apply Hstack, elem_of_removelast.
    + apply (Hrec k p s Ht). apply list_elem_of_In. apply in_rev.
      by apply list_elem_of_In.
Qed.

End run_invariants.

(** ** The two readings of the methods agree *)

Section object_reading.
Context `{IterOrder}.

Lemma heap_step_view self state remaining_input stack h :
  Heap.step self state remaining_input stack h
  = (Ok (step (Heap.view h self) state remaining_input stack), h).
Proof.
  unfold Heap.step, step, Heap.step_lambda, step_lambda, get_transition.
  destruct (last stack) as [stack_top|]; [|done].
  destruct (uncons remaining_input) as [[input_symbol rest]|].
  - unfold mbind, Heap.hm_bind. simpl.
    destruct (_ !! (state, Some input_symbol, stack_top)) as [[p s]|]; [done|].
    by destruct (_ !! (state, None, stack_top)) as [[p s]|].
  - unfold mbind, Heap.hm_bind. simpl.
    by destruct (_ !! (state, None, stack_top)) as [[p s]|].
Qed.

Lemma heap_accepting_view self mode state remaining_input stack h :
  Heap.accepting self mode state remaining_input stack h
  = (Ok (accepts_now (Heap.view h self) mode state remaining_input stack), h).
Proof.
  unfold Heap.accepting, accepts_now.
  destruct (consumed remaining_input); [|done].
  destruct (bool_decide (mode = "final_state")); [done|].
  by destruct (bool_decide (mode = "empty_stack")).
Qed.

Lemma heap_accepts_loop_view self mode fuel state remaining_input stack h :
  Heap.accepts_loop self mode fuel state remaining_input stack h
  = (Ok (accepts_loop (Heap.view h self) mode fuel state remaining_input stack),
     h).
Proof.
  revert state remaining_input stack.
  induction fuel as [|fuel IH]; intros state remaining_input stack; simpl.
  { apply heap_accepting_view. }
  unfold mbind, Heap.hm_bind. rewrite heap_accepting_view.
  change (final_check (Heap.view h self) mode state remaining_input stack)
    with (accepts_now (Heap.view h self) mode state remaining_input stack).
  destruct (accepts_now _ _ _ _ _) eqn:Hnow; [done|].
  rewrite heap_step_view.
  destruct (step _ _ _ _) as [[[state' remaining_input'] stack']|]; [apply IH|].
  by rewrite heap_accepting_view, Hnow.
Qed.

(** [accepts] on an object answers what [accepts] answers on the
    automaton that the attributes of the object describe, and leaves the
    heap as it is. *)
Lemma heap_accepts_view self word mode h :
  Heap.accepts self word mode h = (Ok (accepts (Heap.view h self) word mode), h).
Proof.
  unfold Heap.accepts, accepts, mbind, Heap.hm_bind. simpl.
  destruct (Heap.attr_initial_state _) as [q0|]; [|done].
  apply heap_accepts_loop_view.
Qed.

(** *** The builder *)

Ltac run_heap :=
  cbv beta iota zeta delta
    [Heap.add_state Heap.mark_initial_state Heap.set_initial_stack_symbol
     Heap.add_transition Heap.add_stack_symbol Heap.set_initial_state
     Heap.set_initial_stack_symbol_attr Heap.attr Heap.get_object
     Heap.put_object Heap.get_states Heap.put_states Heap.get_symbols
     Heap.put_symbols Heap.get_dict Heap.put_dict Heap.raise
     mbind mret Heap.hm_bind Heap.hm_ret Heap.view
     Heap.state_sets Heap.symbol_sets Heap.dicts Heap.objects
     states initial_state final_states transitions input_alphabet
     stack_alphabet initial_stack_symbol].

Ltac heap_lookup :=
  repeat first
    [ rewrite list_lookup_total_insert_eq by (rewrite ?length_insert; lia)
    | rewrite list_lookup_total_insert_ne by done
    | rewrite length_insert
    | progress cbn [Heap.ref_states Heap.attr_initial_state
                    Heap.ref_final_states Heap.ref_transitions
                    Heap.ref_input_alphabet Heap.ref_stack_alphabet
                    Heap.attr_initial_stack_symbol] ].

Lemma list_insert_lookup_total `{Inhabited A} (l : list A) i :
  <[i := l !!! i]> l = l.
Proof.
  destruct (decide (i < length l)) as [Hlt|Hge].
  - apply list_insert_id. by apply list_lookup_lookup_total_lt.
  - apply list_insert_ge. lia.
Qed.

Lemma add_stack_symbol_run self x h :
  Heap.add_stack_symbol self x h
  = (Ok (),
     Heap.mkHeap (Heap.state_sets h)
       (<[Heap.ref_stack_alphabet (Heap.objects h !!! self) :=
            Heap.symbol_sets h !!! Heap.ref_stack_alphabet (Heap.objects h !!! self)
            ∪ {[x]}]> (Heap.symbol_sets h))
       (Heap.dicts h) (Heap.objects h)).
Proof. done. Qed.

Lemma for_add_stack_symbols self xs h :
  Heap.for_ xs (Heap.add_stack_symbol self) h
  = (Ok (),
     Heap.mkHeap (Heap.state_sets h)
       (<[Heap.ref_stack_alphabet (Heap.objects h !!! self) :=
            Heap.symbol_sets h !!! Heap.ref_stack_alphabet (Heap.objects h !!! self)
            ∪ list_to_set xs]> (Heap.symbol_sets h))
       (Heap.dicts h) (Heap.objects h)).
Proof.
  revert h. induction xs as [|x xs IH]; intros h; simpl.
  - rewrite (right_id_L ∅ (∪)), list_insert_lookup_total. by destruct h.
  - unfold mbind, Heap.hm_bind.
    rewrite add_stack_symbol_run, IH. simpl. f_equal. f_equal. rewrite list_insert_insert_eq.
    set (l := Heap.ref_stack_alphabet (Heap.objects h !!! self)).
    destruct (decide (l < length (Heap.symbol_sets h))) as [Hlt|Hge].
    + rewrite list_lookup_total_insert_eq by done. by rewrite (assoc_L (∪)).
    + by rewrite !list_insert_ge by lia.
Qed.

Lemma heap_add_state_view self state final h :
  Heap.well_formed h self →
  match add_state state final (Heap.view h self) with
  | Ok M' =>
      ∃ h', Heap.add_state self state final h = (Ok (), h') ∧
            Heap.view h' self = M' ∧ Heap.well_formed h' self
  | Raise e => Heap.add_state self state final h = (Raise e, h)
  end.
Proof.
  destruct h as [ss sy ds os].
  intros ((Hself & Hs & Hf & Ht & Hi & Hz) & Hsf & Hiz). simpl in *.
  unfold add_state. run_heap.
  case_bool_decide as Hin; [done|].
  destruct final; (eexists; split; [reflexivity|]);
    unfold Heap.well_formed, Heap.allocated; run_heap; heap_lookup;
    by split_and!.
Qed.

Lemma heap_mark_initial_state_view self state h :
  Heap.well_formed h self →
  match mark_initial_state state (Heap.view h self) with
  | Ok M' =>
      ∃ h', Heap.mark_initial_state self state h = (Ok (), h') ∧
            Heap.view h' self = M' ∧ Heap.well_formed h' self
  | Raise e => Heap.mark_initial_state self state h = (Raise e, h)
  end.
Proof.
  destruct h as [ss sy ds os].
  intros ((Hself & Hs & Hf & Ht & Hi & Hz) & Hsf & Hiz). simpl in *.
  unfold mark_initial_state. run_heap.
  case_bool_decide as Hin; [|done].
  eexists; split; [reflexivity|].
  unfold Heap.well_formed, Heap.allocated; run_heap; heap_lookup.
  by split_and!.
Qed.

Lemma heap_set_initial_stack_symbol_view self symbol h :
  Heap.well_formed h self →
  ∃ h', Heap.set_initial_stack_symbol self symbol h = (Ok (), h') ∧
        Heap.view h' self = set_initial_stack_symbol symbol (Heap.view h self) ∧
        Heap.well_formed h' self.
Proof.
  destruct h as [ss sy ds os].
  intros ((Hself & Hs & Hf & Ht & Hi & Hz) & Hsf & Hiz). simpl in *.
  eexists; split; [reflexivity|].
  unfold Heap.well_formed, Heap.allocated, set_initial_stack_symbol;
    run_heap; heap_lookup.
  by split_and!.
Qed.

Ltac run_add_transition :=
  cbv beta iota zeta delta
    [Heap.add_transition Heap.attr Heap.get_object Heap.get_states
     Heap.get_symbols Heap.put_symbols Heap.get_dict Heap.put_dict Heap.raise
     mbind mret Heap.hm_bind Heap.hm_ret Heap.view
     Heap.state_sets Heap.symbol_sets Heap.dicts Heap.objects
     states initial_state final_states transitions input_alphabet
     stack_alphabet initial_stack_symbol].

Lemma heap_add_transition_view
    self state new_state input_symbol stack_top stack_push h :
  Heap.well_formed h self →
  match add_transition state new_state input_symbol stack_top stack_push
          (Heap.view h self) with
  | Ok M' =>
      ∃ h', Heap.add_transition self state new_state input_symbol stack_top
              stack_push h = (Ok (), h') ∧
            Heap.view h' self = M' ∧ Heap.well_formed h' self
  | Raise e =>
      Heap.add_transition self state new_state input_symbol stack_top
        stack_push h = (Raise e, h)
  end.
Proof.
  destruct h as [ss sy ds os].
  intros ((Hself & Hs & Hf & Ht & Hi & Hz) & Hsf & Hiz). simpl in *.
  assert (Heap.ref_stack_alphabet (os !!! self)
          ≠ Heap.ref_input_alphabet (os !!! self)) as Hzi by done.
  unfold add_transition, symbol_transition_in_alphabet, store_transition.
  run_add_transition.
  destruct (negb (bool_decide (state ∈ _))); [done|].
  destruct (negb (bool_decide (new_state ∈ _))); [done|].
  case_bool_decide as Hkey; [done|].
  destruct input_symbol as [symbol|].
  - case_bool_decide as Hlam; [done|].
    rewrite add_stack_symbol_run. cbv beta iota zeta.
    rewrite for_add_stack_symbols.
    eexists; split; [reflexivity|].
    unfold Heap.well_formed, Heap.allocated.
    cbn [Heap.state_sets Heap.symbol_sets Heap.dicts Heap.objects].
    heap_lookup. by split_and!.
  - destruct (existsb _ _); [done|].
    rewrite add_stack_symbol_run. cbv beta iota zeta.
    rewrite for_add_stack_symbols.
    eexists; split; [reflexivity|].
    unfold Heap.well_formed, Heap.allocated.
    cbn [Heap.state_sets Heap.symbol_sets Heap.dicts Heap.objects].
    heap_lookup. by split_and!.
Qed.

(** The two readings of the builder agree.  On an automaton with five
    containers of its own, a method called on the object raises exactly
    when the method on the automaton that its attributes describe raises,
    with the same exception and without changing the heap; and when it
    returns, the attributes describe the automaton that the method on
    automata returns. *)
Theorem object_reading_agrees self call h :
  Heap.well_formed h self →
  match perform call (Heap.view h self) with
  | Ok M' =>
      ∃ h', Heap.perform self call h = (Ok (), h') ∧
            Heap.view h' self = M' ∧ Heap.well_formed h' self
  | Raise e => Heap.perform self call h = (Raise e, h)
  end.
Proof.
  intros Hwf. destruct call; simpl.
  - by apply heap_add_state_view.
  - by apply heap_mark_initial_state_view.
  - by apply heap_set_initial_stack_symbol_view.
  - by apply heap_add_transition_view.
Qed.

(** The same for the engine: [accepts] on an object answers what [accepts]
    answers on the automaton that its attributes describe, and [step]
    moves as [step] moves there. *)
Theorem object_engine_agrees self h :
  (∀ state remaining_input stack,
     Heap.step self state remaining_input stack h
     = (Ok (step (Heap.view h self) state remaining_input stack), h)) ∧
  ∀ word mode,
    Heap.accepts self word mode h
    = (Ok (accepts (Heap.view h self) word mode), h).
Proof.
  split.
  - intros. apply heap_step_view.
  - intros. apply heap_accepts_view.
Qed.

End object_reading.

(** ** The automata of the tests *)

Module ExampleFacts.
Import Examples.
Local Existing Instance canonical_order.

Lemma set_Forall_single_character (M : AP string) :
  set_Forall (λ X, len X = 1) (stack_alphabet M) →
  single_character_stack_symbols M.
Proof. intros Hall X HX. by apply Hall. Qed.

Lemma unwrap_Ok {Q} `{Countable Q} (r : result (AP Q)) :
  returns r = true → r = Ok (unwrap r).
Proof. by destruct r. Qed.

Ltac rewrite_unwrap :=
  match goal with
  | |- ?r = Ok ?M =>
      let M' := eval unfold anb, doubling, two_char, doubling_complement,
                  two_char_complement, anb_complement, unmarked, cycle,
                  accented, accented_complement in M in
      change (r = Ok M'); refine (unwrap_Ok r _); vm_compute; reflexivity
  end.

Lemma anb_built : build anb_calls = Ok anb.
Proof. rewrite_unwrap. Qed.

Lemma anb_invariant : builder_invariant anb.
Proof. apply (build_invariant anb_calls), anb_built. Qed.

Lemma anb_single_character : single_character_stack_symbols anb.
Proof.
  apply set_Forall_single_character.
  apply (bool_decide_unpack _). vm_compute. exact I.
Qed.

Lemma anb_initial : initial_state anb = Some "q0" ∧ "q0" ∈ states anb.
Proof.
  split; [vm_compute; reflexivity|].
  apply (bool_decide_unpack _). vm_compute. exact I.
Qed.

(** *** Two automata on which the complement is wrong *)

Lemma doubling_built : build doubling_calls = Ok doubling.
Proof. rewrite_unwrap. Qed.

Lemma doubling_table :
  map_to_list (transitions doubling)
  = [("q0", None, "7", ("q0", "88")); ("q0", None, "3", ("q0", "44"));
     ("q0", None, "5", ("q0", "66")); ("q0", None, "9", ("q0", ""));
     ("q0", None, "1", ("q0", "22")); ("q1", Some "a", "Y", ("q1", "Y"));
     ("q0", Some "a", "Y", ("q1", "Y")); ("q0", None, "6", ("q0", "77"));
     ("q0", None, "Z", ("q0", "0Y")); ("q0", None, "2", ("q0", "33"));
     ("q0", None, "4", ("q0", "55")); ("q0", None, "8", ("q0", "99"));
     ("q0", None, "0", ("q0", "11"))].
Proof. vm_compute. reflexivity. Qed.

Lemma two_char_table :
  map_to_list (transitions two_char)
  = [("q1", Some "a", "Y", ("trap", "Y"));
     ("q0", Some "a", "Z0", ("q1", "Y"));
     ("trap", Some "a", "Y", ("trap", "Y"))].
Proof. vm_compute. reflexivity. Qed.

Lemma snoc_cases {A} (l : list A) : l = [] ∨ ∃ l' x, l = l' ++ [x].
Proof.
  induction l as [|y l IH] using rev_ind; [by left|right]. eauto.
Qed.

(** Case analysis on the entry of the table behind a lookup. *)
Ltac table_entry Ht table :=
  apply elem_of_map_to_list in Ht; rewrite table in Ht;
  repeat (apply elem_of_cons in Ht as [Ht|Ht]; [simplify_eq|]);
  try (by apply elem_of_nil in Ht).

Ltac by_computation := apply (bool_decide_unpack _); vm_compute; exact I.

Lemma doubling_step_reach q r st c' :
  doubling_reach (q, r, st) → step doubling q r st = Some c' →
  doubling_reach c'.
Proof.
  intros Hreach (X & HX & Hcase)%step_Some_inv.
  destruct Hreach as [[-> ->]|[(-> & ds & -> & Hds)|[-> ->]]].
  - simpl in HX. simplify_eq.
    destruct Hcase as [(a & rest & p & s & _ & Ht & ->)|(p & s & Ht & _ & ->)];
      table_entry Ht doubling_table.
    right. left. split; [done|]. exists ["0"]. split; [done|].
    repeat constructor.
  - destruct (snoc_cases ds) as [-> | (ds' & d & ->)].
    + simpl in HX. simplify_eq.
      destruct Hcase as [(a & rest & p & s & _ & Ht & ->)|(p & s & Ht & _ & ->)];
        table_entry Ht doubling_table.
      right. right. done.
    + rewrite app_comm_cons, last_snoc in HX. simplify_eq.
      apply Forall_app in Hds as [Hds' Hd].
      rewrite Forall_singleton in Hd.
      assert (∀ push, Forall (λ d, d ∈ digits) (rev (chars push)) →
                doubling_reach
                  ("q0", r, replace_top ("Y" :: ds' ++ [X]) push)) as Hpush.
      { intros push Hp. right. left. split; [done|].
        exists (ds' ++ rev (chars push)). split.
        - by rewrite app_comm_cons, replace_top_snoc.
        - by apply Forall_app. }
      unfold digits in Hd.
      repeat (rewrite elem_of_cons in Hd; destruct Hd as [->|Hd]);
        try (by rewrite elem_of_nil in Hd);
        (destruct Hcase as [(a & rest & p & s & _ & Ht & ->)|(p & s & Ht & _ & ->)];
         table_entry Ht doubling_table;
         apply Hpush; simpl; repeat constructor).
  - simpl in HX. simplify_eq.
    destruct Hcase as [(a & rest & p & s & _ & Ht & ->)|(p & s & Ht & _ & ->)];
      table_entry Ht doubling_table.
    right. right. done.
Qed.

Lemma doubling_reachable n c c' :
  doubling_reach c → run_steps doubling n c = Some c' → doubling_reach c'.
Proof.
  revert c. induction n as [|n IH]; intros [[q r] st] Hreach Hrun; simpl in Hrun.
  - by simplify_eq.
  - destruct (step doubling q r st) as [c1|] eqn:Hs; [|done].
    apply (IH c1); [|done]. by eapply doubling_step_reach.
Qed.

Lemma doubling_alphabet a : a ∈ input_alphabet doubling ↔ a = "a".
Proof.
  rewrite <-elem_of_elements.
  assert (elements (input_alphabet doubling) = ["a"]) as ->
    by (vm_compute; reflexivity).
  apply list_elem_of_singleton.
Qed.

Lemma doubling_continuous : continuous doubling.
Proof.
  intros q0 word n q r stack Hq0 _ Hrun.
  assert (q0 = "q0") as -> by (vm_compute in Hq0; congruence).
  assert (initial_config doubling "q0" word = ("q0", word, ["Z"])) as Hinit
    by (vm_compute; reflexivity).
  rewrite Hinit in Hrun.
  apply doubling_reachable in Hrun; [|left; split; reflexivity].
  assert ((∃ a, a ∈ input_alphabet doubling) ∧
          (∀ q, q = "q0" ∨ q = "q1" → ∀ a, a ∈ input_alphabet doubling →
             is_Some (transitions doubling !! (q, Some a, "Y")))) as [Hin Hsym].
  { split; [exists "a"; by apply doubling_alphabet|].
    intros q' [-> | ->] a ->%doubling_alphabet; by_computation. }
  destruct Hrun as [[-> ->]|[(-> & ds & -> & Hds)|[-> ->]]].
  - exists "Z". split; [done|]. left. by_computation.
  - destruct (snoc_cases ds) as [-> | (ds' & d & ->)].
    + exists "Y". split; [done|]. right. split; [done|]. apply Hsym. by left.
    + exists d. split; [by rewrite app_comm_cons, last_snoc|]. left.
      apply Forall_app in Hds as [_ Hd]. rewrite Forall_singleton in Hd.
      unfold digits in Hd.
      repeat (rewrite elem_of_cons in Hd; destruct Hd as [->|Hd]);
        try (by rewrite elem_of_nil in Hd); by_computation.
  - exists "Y". split; [done|]. right. split; [done|]. apply Hsym. by right.
Qed.

Lemma two_char_built : build two_char_calls = Ok two_char.
Proof. rewrite_unwrap. Qed.

Lemma two_char_step_reach q r st c' :
  two_char_reach (q, r, st) → step two_char q r st = Some c' →
  two_char_reach c'.
Proof.
  intros Hreach (X & HX & Hcase)%step_Some_inv.
  destruct Hreach as [[-> ->]|[[-> ->]|[-> ->]]]; simpl in HX; simplify_eq;
    destruct Hcase as [(a & rest & p & s & _ & Ht & ->)|(p & s & Ht & _ & ->)];
    table_entry Ht two_char_table; unfold two_char_reach; simpl; auto.
Qed.

Lemma two_char_reachable n c c' :
  two_char_reach c → run_steps two_char n c = Some c' → two_char_reach c'.
Proof.
  revert c. induction n as [|n IH]; intros [[q r] st] Hreach Hrun; simpl in Hrun.
  - by simplify_eq.
  - destruct (step two_char q r st) as [c1|] eqn:Hs; [|done].
    apply (IH c1); [|done]. by eapply two_char_step_reach.
Qed.

Lemma two_char_alphabet a : a ∈ input_alphabet two_char ↔ a = "a".
Proof.
  rewrite <-elem_of_elements.
  assert (elements (input_alphabet two_char) = ["a"]) as ->
    by (vm_compute; reflexivity).
  apply list_elem_of_singleton.
Qed.

Lemma two_char_continuous : continuous two_char.
Proof.
  intros q0 word n q r stack Hq0 _ Hrun.
  assert (q0 = "q0") as -> by (vm_compute in Hq0; congruence).
  assert (initial_config two_char "q0" word = ("q0", word, ["Z0"])) as Hinit
    by (vm_compute; reflexivity).
  rewrite Hinit in Hrun.
  apply two_char_reachable in Hrun; [|left; split; reflexivity].
  assert (∃ a, a ∈ input_alphabet two_char) as Hin
    by (exists "a"; by apply two_char_alphabet).
  destruct Hrun as [[-> ->]|[[-> ->]|[-> ->]]].
  - exists "Z0". split; [done|]. right. split; [done|].
    intros a ->%two_char_alphabet. by_computation.
  - exists "Y". split; [done|]. right. split; [done|].
    intros a ->%two_char_alphabet. by_computation.
  - exists "Y". split; [done|]. right. split; [done|].
    intros a ->%two_char_alphabet. by_computation.
Qed.

(** *** An automaton with the default stack symbol and a letter outside
    ASCII *)

Lemma accented_built : build accented_calls = Ok accented.
Proof. rewrite_unwrap. Qed.

Lemma accented_complement_built :
  crear_automata_complemento accented = Ok accented_complement.
Proof. rewrite_unwrap. Qed.

Lemma accented_invariant : builder_invariant accented.
Proof. apply (build_invariant accented_calls), accented_built. Qed.

Lemma accented_single_character : single_character_stack_symbols accented.
Proof. apply set_Forall_single_character. by_computation. Qed.

Lemma accented_alphabets :
  elements (input_alphabet accented) = ["é"] ∧
  elements (stack_alphabet accented) = [SpecialStackSymbol.EMPTY].
Proof. split; vm_compute; reflexivity. Qed.

(** A second reason why C1 fails as stated: with an initial stack
    symbol of two characters, rule (iii) pushes back its characters,
    not the symbol.  The automaton is continuous and built by the
    builder; it rejects "aa" and so does its complement. *)
Lemma complement_wrong_on_long_stack_symbol :
  builder_invariant two_char ∧ continuous two_char ∧
  word_over two_char "aa" ∧
  crear_automata_complemento two_char = Ok two_char_complement ∧
  accepts two_char "aa" "final_state" = false ∧
  accepts two_char_complement "aa" "final_state" = false.
Proof.
  split_and!.
  - apply (build_invariant two_char_calls), two_char_built.
  - apply two_char_continuous.
  - intros a Ha. apply two_char_alphabet. simpl in Ha.
    apply elem_of_cons in Ha as [->|Ha]; [done|].
    apply elem_of_cons in Ha as [->|Ha]; [done|]. inversion Ha.
  - rewrite_unwrap.
  - vm_compute. reflexivity.
  - vm_compute. reflexivity.
Qed.

(** C1 fails as stated: [doubling] is built by the builder, continuous
    (and free of lambda loops, with one-character stack symbols), the
    empty word is a word over its alphabet, and both the automaton and
    its complement reject it, because the complement needs 1025 moves
    to reach its sink and [accepts] makes at most 1000. *)
Lemma complement_wrong_beyond_step_bound :
  builder_invariant doubling ∧ single_character_stack_symbols doubling ∧
  continuous doubling ∧ word_over doubling "" ∧
  crear_automata_complemento doubling = Ok doubling_complement ∧
  accepts doubling "" "final_state" = false ∧
  accepts doubling_complement "" "final_state" = false ∧
  accepts doubling_complement "" "final_state"
  ≠ negb (accepts doubling "" "final_state").
Proof.
  assert (accepts doubling "" "final_state" = false) as HP
    by (vm_compute; reflexivity).
  assert (accepts doubling_complement "" "final_state" = false) as HC
    by (vm_compute; reflexivity).
  split_and!.
  - apply (build_invariant doubling_calls), doubling_built.
  - apply set_Forall_single_character. by_computation.
  - apply doubling_continuous.
  - intros a Ha. simpl in Ha. inversion Ha.
  - rewrite_unwrap.
  - exact HP.
  - exact HC.
  - rewrite HP, HC. discriminate.
Qed.

(** *** Two calls that do not behave as C5 and C9 say *)

Lemma unmarked_built : build unmarked_calls = Ok unmarked.
Proof. rewrite_unwrap. Qed.

Lemma cycle_built : build cycle_calls = Ok cycle.
Proof. rewrite_unwrap. Qed.

Lemma anb_complement_built : crear_automata_complemento anb = Ok anb_complement.
Proof. rewrite_unwrap. Qed.

Lemma unwrap_session_Ok {Q} `{Countable Q} (r : option (result (AP Q))) :
  completes r = true → r = Some (Ok (unwrap_session r)).
Proof. by destruct r as [[]|]. Qed.

Lemma cycle_session_completes :
  run_session cycle_session new_AP = Some (Ok cycle_normalized).
Proof.
  unfold cycle_normalized.
  refine (unwrap_session_Ok (run_session cycle_session new_AP) _).
  vm_compute. reflexivity.
Qed.

(** C5 fails as stated: with the mode "both", which is neither of the two
    disciplines, [accepts] raises nothing and returns [False]. *)
Lemma accepts_unknown_mode_does_not_raise :
  "both" ≠ "final_state" ∧ "both" ≠ "empty_stack" ∧
  accepts_outcome anb "ab" "both" = Ok false ∧
  ∀ e, accepts_outcome anb "ab" "both" ≠ Raise e.
Proof.
  assert (accepts_outcome anb "ab" "both" = Ok false) as Hout
    by (vm_compute; reflexivity).
  split_and!; [discriminate|discriminate|exact Hout|].
  intros e. rewrite Hout. discriminate.
Qed.

(** C9 fails as stated: [unmarked] satisfies the determinism invariant
    and its transitions run between registered states, but no initial
    state was marked, and the constructor raises the [ValueError] of
    [mark_initial_state]. *)
Lemma complement_raises_without_initial_state :
  deterministic unmarked ∧ endpoints_registered unmarked ∧
  is_deterministic unmarked = true ∧
  crear_automata_complemento unmarked = Raise (ValueError state_not_present).
Proof.
  destruct (build_invariant unmarked_calls unmarked unmarked_built)
    as (_ & Hend & _ & Hdet).
  split_and!; [exact Hdet|exact Hend|vm_compute; reflexivity|vm_compute; reflexivity].
Qed.

(** *** The reference automaton and its complement, on every word *)

Lemma anb_alphabet a : a ∈ input_alphabet anb ↔ a = "a" ∨ a = "b".
Proof.
  rewrite <-elem_of_elements.
  assert (elements (input_alphabet anb) = ["a"; "b"]) as ->
    by (vm_compute; reflexivity).
  rewrite elem_of_cons, list_elem_of_singleton. done.
Qed.

Lemma anb_no_lambda q X : transitions anb !! (q, None, X) = None.
Proof.
  assert (map_Forall (λ k _, k.1.2 ≠ None) (transitions anb)) as Hall
    by by_computation.
  apply eq_None_not_Some. intros [v Hv]. by apply Hall in Hv.
Qed.

Lemma anb_stack_top k :
  anb_stack k = [] ++ ["Z"] ∧ k = 0 ∨
  ∃ k', k = S k' ∧ anb_stack k = anb_stack k' ++ ["A"].
Proof.
  destruct k as [|k]; [by left|right]. exists k. split; [done|].
  unfold anb_stack. by rewrite replicate_S_end.
Qed.

Lemma anb_stack_push_A k : anb_stack k ++ ["A"] = anb_stack (S k).
Proof. unfold anb_stack. by rewrite replicate_S_end. Qed.

Lemma anb_stack_last k : ∃ X, last (anb_stack k) = Some X ∧ X ∈ stack_alphabet anb.
Proof.
  destruct (anb_stack_top k) as [[-> _]|(k' & _ & ->)].
  - exists "Z". split; [done|by_computation].
  - exists "A". split; [by rewrite last_snoc|by_computation].
Qed.

(** One move of [anb] on an input symbol. *)
Ltac anb_move q a X :=
  let v := eval vm_compute in (transitions anb !! (q, Some a, X)) in
  let Ht := fresh "Ht" in
  assert (transitions anb !! (q, Some a, X) = v) as Ht
    by (vm_compute; reflexivity);
  erewrite step_symbol_intro; [|reflexivity|by rewrite ?last_snoc|exact Ht];
  rewrite replace_top_snoc; simpl rev; rewrite ?app_nil_l, ?anb_stack_push_A.

Lemma anb_step q a rest k :
  q ∈ anb_states → (q = "q0" → k = 0) → a = "a"%char ∨ a = "b"%char →
  ∃ q' k', step anb q (String a rest) (anb_stack k)
           = Some (q', rest, anb_stack k') ∧
           q' ∈ anb_states ∧ q' ≠ "q0".
Proof.
  intros Hq Hk Ha. unfold anb_states in *.
  assert (∀ q', q' = "q1" ∨ q' = "q2" ∨ q' = "trap" →
                q' ∈ ["q0"; "q1"; "q2"; "trap"] ∧ q' ≠ "q0") as Hin.
  { intros q' [-> | [-> | ->]]; split; try discriminate;
      repeat first [apply list_elem_of_here|apply list_elem_of_further]. }
  repeat (apply elem_of_cons in Hq as [->|Hq]); [..|by apply elem_of_nil in Hq].
  - rewrite (Hk eq_refl). change (anb_stack 0) with ([] ++ ["Z"]).
    destruct Ha as [-> | ->].
    + anb_move "q0" "a" "Z". exists "q1", 1. split; [done|]. apply Hin. tauto.
    + anb_move "q0" "b" "Z". exists "trap", 0. split; [done|]. apply Hin. tauto.
  - destruct (anb_stack_top k) as [[-> ->]|(k' & -> & ->)];
      destruct Ha as [-> | ->].
    + anb_move "q1" "a" "Z". exists "q1", 1. split; [done|]. apply Hin. tauto.
    + anb_move "q1" "b" "Z". exists "q2", 0. split; [done|]. apply Hin. tauto.
    + anb_move "q1" "a" "A". exists "q1", (S (S k')).
      split; [|apply Hin; tauto].
      by rewrite <-!anb_stack_push_A, <-(assoc_L (++)).
    + anb_move "q1" "b" "A". exists "q2", (S k'). split; [done|]. apply Hin. tauto.
  - destruct (anb_stack_top k) as [[-> ->]|(k' & -> & ->)];
      destruct Ha as [-> | ->].
    + anb_move "q2" "a" "Z". exists "trap", 0. split; [done|]. apply Hin. tauto.
    + anb_move "q2" "b" "Z". exists "trap", 0. split; [done|]. apply Hin. tauto.
    + anb_move "q2" "a" "A". exists "trap", (S k'). split; [done|]. apply Hin. tauto.
    + anb_move "q2" "b" "A". exists "trap", (S k'). split; [done|]. apply Hin. tauto.
  - destruct (anb_stack_top k) as [[-> ->]|(k' & -> & ->)];
      destruct Ha as [-> | ->].
    + anb_move "trap" "a" "Z". exists "trap", 0. split; [done|]. apply Hin. tauto.
    + anb_move "trap" "b" "Z". exists "trap", 0. split; [done|]. apply Hin. tauto.
    + anb_move "trap" "a" "A". exists "trap", (S k'). split; [done|]. apply Hin. tauto.
    + anb_move "trap" "b" "A". exists "trap", (S k'). split; [done|]. apply Hin. tauto.
Qed.

(** [anb] reads every word over its alphabet to the end, one move for
    each symbol. *)
Lemma anb_run word q k :
  word_over anb word → q ∈ anb_states → (q = "q0" → k = 0) →
  ∃ q' k', run_steps anb (len word) (q, word, anb_stack k)
           = Some (q', "", anb_stack k').
Proof.
  revert q k. induction word as [|a rest IH]; intros q k Hword Hq Hk.
  { by exists q, k. }
  assert (a = "a"%char ∨ a = "b"%char) as Ha.
  { destruct (uncons_String a rest) as (c & r & Hu).
    destruct (proj1 (anb_alphabet (String a c))) as [[= -> ->]|[= -> ->]];
      [|tauto..].
    apply Hword. rewrite (chars_uncons _ _ _ Hu). left. }
  assert (utf8_width a = 1) as Hw by (by destruct Ha as [-> | ->]).
  destruct (anb_step q a rest k Hq Hk Ha) as (q1 & k1 & Hstep & Hq1 & Hne).
  destruct (IH q1 k1) as (q' & k' & Hrun); [|done|done|].
  { intros x Hx. apply Hword. rewrite (chars_ascii _ _ Hw). by right. }
  exists q', k'. rewrite (len_ascii _ _ Hw).
  by rewrite (run_steps_S anb _ _ (q1, rest, anb_stack k1)).
Qed.

(** On every word over {a, b} the complement of the reference automaton
    answers the opposite of the automaton, whatever the order in which
    the constructor went through the sets and the dict: the property that
    [test_complemento_lenguaje_simple] tests on a few words. *)
Theorem anb_complement_on_every_word (order : IterOrder) C word :
  @crear_automata_complemento _ _ _ order anb = Ok C →
  word_over anb word →
  accepts C word "final_state" = negb (accepts anb word "final_state").
Proof.
  intros HC%complement_Ok_inv Hword.
  pose proof anb_invariant as Hinv. pose proof anb_single_character as Hsingle.
  destruct anb_initial as [Hq0 _].
  assert (initial_config anb "q0" word = ("q0", word, anb_stack 0)) as Hinit.
  { assert (initial_stack_symbol anb = "Z") as Hz by (vm_compute; reflexivity).
    unfold initial_config. by rewrite Hz. }
  destruct (anb_run word "q0" 0 Hword) as (q & k & Hrun); [by left|done|].
  rewrite <-Hinit in Hrun.
  destruct (anb_stack_last k) as (X & HX & HXin).
  assert (step anb q "" (anb_stack k) = None) as Hhalt.
  { eapply step_None_intro; [apply anb_no_lambda|done]. }
  assert (len word + len word + 1 ≤ len word * 100 + 1000) as Hbound by lia.
  destruct (accepts anb word "final_state") eqn:HP; simpl.
  - apply not_true_is_false. intros HCacc.
    rewrite (complement_accepts_only_rejected anb C word) in HP;
      [done|apply Hinv|done|done|done].
  - by eapply (complement_accepts_rejected anb C word "q0").
Qed.

(** *** The automaton of [test_anbn], on every word *)

Lemma anbn_table :
  map_to_list (transitions anbn)
  = [("q1", Some "b", "A", ("q1", "")); ("q0", Some "b", "A", ("q1", ""));
     ("q0", Some "a", "A", ("q0", "AA")); ("q1", None, "Z", ("qf", "Z"));
     ("q0", Some "a", "Z", ("q0", "AZ"))].
Proof. vm_compute. reflexivity. Qed.

Lemma power_snoc c n r : power c n +:+ String c r = power c (S n) +:+ r.
Proof.
  induction n as [|n IH]; [done|].
  change (power c (S n) +:+ String c r)
    with (String c (power c n +:+ String c r)).
  by rewrite IH.
Qed.

Lemma power_len c n r : utf8_width c = 1 → len (power c n +:+ r) = n + len r.
Proof.
  intros Hw. induction n as [|n IH]; [done|].
  change (power c (S n) +:+ r) with (String c (power c n +:+ r)).
  by rewrite (len_ascii _ _ Hw), IH.
Qed.


Lemma anb_stack_last_Z i : last (anb_stack i) = Some "Z" → i = 0.
Proof.
  destruct (anb_stack_top i) as [[_ ->]|(i' & -> & ->)]; [done|].
  by rewrite last_snoc.
Qed.

Lemma anb_stack_last_A i :
  last (anb_stack i) = Some "A" → ∃ i', i = S i' ∧ anb_stack i = anb_stack i' ++ ["A"].
Proof.
  destruct (anb_stack_top i) as [[-> ->]|(i' & -> & ->)]; [done|]. eauto.
Qed.

Lemma anbn_step_reach word q r stack c' :
  anbn_reach word (q, r, stack) → step anbn q r stack = Some c' →
  anbn_reach word c'.
Proof.
  intros Hreach (X & HX & Hcase)%step_Some_inv.
  destruct Hreach as [[-> (i & Hw & ->)]|[[-> (i & j & Hj & Hw & ->)]
                                        |[-> (i & Hi & Hw & ->)]]];
    destruct Hcase as [(a & rest & p & s & Hu & Ht & ->)|(p & s & Ht & _ & ->)];
    table_entry Ht anbn_table;
    try (apply uncons_ascii_inv in Hu as ->).
  - apply anb_stack_last_A in HX as (i' & -> & ->). rewrite replace_top_snoc.
    right. left. split; [done|]. exists i', 1. split; [done|].
    split; [by rewrite Nat.add_1_r|]. simpl. by rewrite app_nil_r.
  - apply anb_stack_last_A in HX as (i' & -> & ->). rewrite replace_top_snoc.
    left. split; [done|]. exists (S (S i')). split; [by rewrite power_snoc|].
    simpl rev. by rewrite <-!anb_stack_push_A, <-(assoc_L (++)).
  - apply anb_stack_last_Z in HX as ->. left. split; [done|]. exists 1.
    split; [done|]. done.
  - apply anb_stack_last_A in HX as (i' & -> & ->). rewrite replace_top_snoc.
    right. left. split; [done|]. exists i', (S j). split; [lia|].
    split; [|simpl; by rewrite app_nil_r].
    rewrite power_snoc. by replace (i' + S j) with (S i' + j) by lia.
  - apply anb_stack_last_Z in HX as ->. right. right. split; [done|].
    exists j. done.
Qed.

Lemma anbn_reachable word n c c' :
  anbn_reach word c → run_steps anbn n c = Some c' → anbn_reach word c'.
Proof.
  revert c. induction n as [|n IH]; intros [[q r] st] Hreach Hrun; simpl in Hrun.
  - by simplify_eq.
  - destruct (step anbn q r st) as [c1|] eqn:Hs; [|done].
    apply (IH c1); [|done]. by eapply anbn_step_reach.
Qed.

Lemma step_config_eq {Q} `{Countable Q} (M : AP Q) q r stack :
  step_config M (q, r, stack) = step M q r stack.
Proof. done. Qed.

(** The moves of [anbn] on "a"s and on "b"s. *)
Lemma anbn_run_a k i r :
  run_steps anbn k ("q0", power "a" k +:+ r, anb_stack i)
  = Some ("q0", r, anb_stack (i + k)).
Proof.
  assert (transitions anbn !! ("q0", Some "a", "Z") = Some ("q0", "AZ")) as HZ
    by (vm_compute; reflexivity).
  assert (transitions anbn !! ("q0", Some "a", "A") = Some ("q0", "AA")) as HA
    by (vm_compute; reflexivity).
  revert i. induction k as [|k IH]; intros i.
  { by rewrite Nat.add_0_r. }
  change (power "a" (S k) +:+ r) with (String "a" (power "a" k +:+ r)).
  rewrite (run_steps_S anbn _ _ ("q0", power "a" k +:+ r, anb_stack (S i))).
  { rewrite IH. do 3 f_equal. lia. }
  rewrite step_config_eq.
  destruct (anb_stack_top i) as [[-> ->]|(i' & -> & ->)].
  - erewrite step_symbol_intro; [|reflexivity|by rewrite last_snoc|exact HZ].
    by rewrite replace_top_snoc.
  - erewrite step_symbol_intro; [|reflexivity|by rewrite last_snoc|exact HA].
    rewrite replace_top_snoc. simpl rev.
    by rewrite <-!anb_stack_push_A, <-(assoc_L (++)).
Qed.

Lemma anbn_run_b k i r :
  run_steps anbn k ("q1", power "b" k +:+ r, anb_stack (i + k))
  = Some ("q1", r, anb_stack i).
Proof.
  assert (transitions anbn !! ("q1", Some "b", "A") = Some ("q1", "")) as HA
    by (vm_compute; reflexivity).
  induction k as [|k IH].
  { by rewrite Nat.add_0_r. }
  change (power "b" (S k) +:+ r) with (String "b" (power "b" k +:+ r)).
  rewrite (run_steps_S anbn _ _ ("q1", power "b" k +:+ r, anb_stack (i + k)));
    [done|].
  rewrite step_config_eq. replace (i + S k) with (S (i + k)) by lia.
  rewrite <-anb_stack_push_A.
  erewrite step_symbol_intro; [|reflexivity|by rewrite last_snoc|exact HA].
  rewrite replace_top_snoc. simpl. by rewrite app_nil_r.
Qed.

(** [test_anbn] on every word: the automaton accepts exactly the words
    a^n b^n with n >= 1 (by final state), whatever their length. *)
Theorem anbn_language word :
  accepts anbn word "final_state" = true ↔
  ∃ n, 1 ≤ n ∧ word = power "a" n +:+ power "b" n.
Proof.
  assert (initial_state anbn = Some "q0") as Hq0 by (vm_compute; reflexivity).
  assert (initial_stack_symbol anbn = "Z") as Hz by (vm_compute; reflexivity).
  assert (∀ q, q ∈ final_states anbn ↔ q = "qf") as Hfinal.
  { intros q. rewrite <-elem_of_elements.
    assert (elements (final_states anbn) = ["qf"]) as ->
      by (vm_compute; reflexivity).
    apply list_elem_of_singleton. }
  unfold accepts. rewrite Hq0, Hz, accepts_loop_true_iff. split.
  - intros (n & [[q r] stack] & _ & Hrun & Hacc).
    apply (anbn_reachable word) in Hrun.
    + destruct Hacc as [-> [[_ ->%Hfinal]|[? _]]]; [|done].
      destruct Hrun as [[? _]|[[? _]|[_ (i & Hi & Hw & _)]]]; [done..|].
      exists i. split; [done|]. rewrite Hw. by rewrite append_empty_r.
    + left. split; [done|]. by exists 0.
  - intros (n & Hn & ->). destruct n as [|m]; [lia|].
    exists (S m + 1 + m + 1), ("qf", "", anb_stack 0). split_and!.
    + unfold max_steps. rewrite <-(append_empty_r (power "b" (S m))).
      rewrite !power_len by done. lia.
    + assert (transitions anbn !! ("q0", Some "b", "A") = Some ("q1", ""))
        as Hb by (vm_compute; reflexivity).
      assert (transitions anbn !! ("q1", None, "Z") = Some ("qf", "Z"))
        as Hlam by (vm_compute; reflexivity).
      change ["Z"] with (anb_stack 0).
      rewrite <-!(assoc_L Nat.add).
      rewrite (run_steps_plus anbn (S m) _ _
                 ("q0", power "b" (S m), anb_stack (0 + S m)));
        [|apply anbn_run_a].
      rewrite (run_steps_plus anbn 1 _ _ ("q1", power "b" m, anb_stack m)).
      2:{ simpl. rewrite <-anb_stack_push_A.
          erewrite step_symbol_intro; [|reflexivity|by rewrite last_snoc|exact Hb].
          rewrite replace_top_snoc. simpl. by rewrite app_nil_r. }
      rewrite (run_steps_plus anbn m _ _ ("q1", "", anb_stack 0)).
      2:{ rewrite <-(append_empty_r (power "b" m)) at 1.
          apply (anbn_run_b m 0 ""). }
      rewrite (run_steps_S anbn 0 _ ("qf", "", anb_stack 0)); [done|].
      rewrite step_config_eq.
      by rewrite (step_lambda_intro anbn "q1" "" (anb_stack 0) "Z" "qf" "Z").
    + split; [done|]. left. split; [done|]. by apply Hfinal.
Qed.

End ExampleFacts.

(** *** C1 *)

(** C1, amended. Let P be an automaton as the builder makes them, with
    one-character stack symbols, and C its complement.  C accepts no word
    that P accepts; and for every word w on which the run of P consumes
    its input and halts, on a stack whose top is in the stack alphabet,
    after n moves with n + |w| + 1 <= 100·|w| + 1000, where |w| is the
    number of characters of w, C accepts exactly if P rejects
    (acceptance by final state).  For the reference automaton for
    { a^n b | n >= 1 } the constructor returns a complement C, whatever
    the iteration order of the containers: P accepts "ab" and C rejects
    it, P rejects "" and C accepts it, P rejects "aabb" and C accepts
    it. *)
Theorem complement_correct `{IterOrder} :
  (∀ `{Countable Q} (P : AP Q) (C : AP (cstate Q)) (word : string),
     builder_invariant P → single_character_stack_symbols P →
     crear_automata_complemento P = Ok C →
     (accepts P word "final_state" = true →
      accepts C word "final_state" = false) ∧
     (∀ q0 n q stack X,
        initial_state P = Some q0 →
        run_steps P n (initial_config P q0 word) = Some (q, "", stack) →
        step P q "" stack = None → last stack = Some X →
        X ∈ stack_alphabet P →
        n + len word + 1 ≤ len word * 100 + 1000 →
        accepts C word "final_state" = negb (accepts P word "final_state"))) ∧
  (∃ C, crear_automata_complemento Examples.anb = Ok C ∧
        accepts Examples.anb "ab" "final_state" = true ∧
        accepts C "ab" "final_state" = false ∧
        accepts Examples.anb "" "final_state" = false ∧
        accepts C "" "final_state" = true ∧
        accepts Examples.anb "aabb" "final_state" = false ∧
        accepts C "aabb" "final_state" = true).
Proof.
  assert (∀ `{Countable Q} (P : AP Q) (C : AP (cstate Q)) (word : string),
     builder_invariant P → single_character_stack_symbols P →
     crear_automata_complemento P = Ok C →
     (accepts P word "final_state" = true →
      accepts C word "final_state" = false) ∧
     (∀ q0 n q stack X,
        initial_state P = Some q0 →
        run_steps P n (initial_config P q0 word) = Some (q, "", stack) →
        step P q "" stack = None → last stack = Some X →
        X ∈ stack_alphabet P →
        n + len word + 1 ≤ len word * 100 + 1000 →
        accepts C word "final_state" = negb (accepts P word "final_state")))
    as Hgeneral.
  { intros Q ? ? P C word Hinv Hsingle Hcomp%complement_Ok_inv.
    pose proof Hinv as (_ & _ & _ & Hdet).
    assert (accepts P word "final_state" = true →
            accepts C word "final_state" = false) as Hsound.
    { intros HP. apply not_true_is_false. intros HC.
      rewrite (complement_accepts_only_rejected P C word) in HP; done. }
    split; [done|].
    intros q0 n q stack X Hq0 Hrun Hhalt HX HXin Hbound.
    destruct (accepts P word "final_state") eqn:HP.
    - by apply Hsound.
    - by eapply complement_accepts_rejected. }
  split; [exact Hgeneral|].
  pose proof ExampleFacts.anb_invariant as Hinv.
  pose proof ExampleFacts.anb_single_character as Hsingle.
  destruct ExampleFacts.anb_initial as [Hq0 Hq0in].
  destruct (complement_total Examples.anb) as [C HC].
  { apply Hinv. } { apply Hinv. } { eauto. }
  exists C. split; [done|].
  assert (accepts Examples.anb "ab" "final_state" = true) as Hab
    by (vm_compute; reflexivity).
  assert (accepts Examples.anb "" "final_state" = false) as Hempty
    by (vm_compute; reflexivity).
  assert (accepts Examples.anb "aabb" "final_state" = false) as Haabb
    by (vm_compute; reflexivity).
  split_and!.
  - exact Hab.
  - destruct (Hgeneral _ _ _ Examples.anb C "ab" Hinv Hsingle HC) as [Hacc _].
    exact (Hacc Hab).
  - exact Hempty.
  - destruct (Hgeneral _ _ _ Examples.anb C "" Hinv Hsingle HC) as [_ Hrej].
    assert ("Z" ∈ stack_alphabet Examples.anb) as HZ
      by (apply (bool_decide_unpack _); vm_compute; exact I).
    assert (0 + len "" + 1 ≤ len "" * 100 + 1000) as Hbound
      by (rewrite len_empty; lia).
    assert (run_steps Examples.anb 0 (initial_config Examples.anb "q0" "")
            = Some ("q0", "", ["Z"])) as Hrun
      by (vm_compute; reflexivity).
    assert (step Examples.anb "q0" "" ["Z"] = None) as Hhalt
      by (vm_compute; reflexivity).
    rewrite (Hrej "q0" 0 "q0" ["Z"] "Z" Hq0 Hrun Hhalt eq_refl HZ Hbound), Hempty.
    reflexivity.
  - exact Haabb.
  - destruct (Hgeneral _ _ _ Examples.anb C "aabb" Hinv Hsingle HC) as [_ Hrej].
    assert ("A" ∈ stack_alphabet Examples.anb) as HA
      by (apply (bool_decide_unpack _); vm_compute; exact I).
    assert (4 + len "aabb" + 1 ≤ len "aabb" * 100 + 1000) as Hbound
      by (apply (bool_decide_unpack _); vm_compute; exact I).
    assert (run_steps Examples.anb 4 (initial_config Examples.anb "q0" "aabb")
            = Some ("trap", "", ["Z"; "A"; "A"])) as Hrun
      by (vm_compute; reflexivity).
    assert (step Examples.anb "trap" "" ["Z"; "A"; "A"] = None) as Hhalt
      by (vm_compute; reflexivity).
    rewrite (Hrej "q0" 4 "trap" ["Z"; "A"; "A"] "A" Hq0 Hrun Hhalt eq_refl HA Hbound),
      Haabb.
    reflexivity.
Qed.

(** ** The theorems at work on the automata of the tests *)

Module Witnesses.
Import Examples ExampleFacts.
Local Existing Instance canonical_order.

Lemma step_spec_witness :
  step anb "q0" "ab" [] = None ∧
  step anb "q0" "ab" ([] ++ ["Z"]) = Some ("q1", "b", [] ++ rev (chars "AZ")) ∧
  (∃ stack',
     step anb "q0" "ab" ([] ++ ["Z"]) = Some ("q1", "b", stack') ∧
     last stack' = Some "A" ∧ last (removelast stack') = Some "Z" ∧
     stack' = [] ++ ["Z"; "A"]) ∧
  uncons "éé" = Some ("é", "é") ∧
  step accented "q0" "éé" ([] ++ [SpecialStackSymbol.EMPTY])
  = Some ("q1", "é", [] ++ [SpecialStackSymbol.EMPTY]).
Proof.
  assert (get_transition anb "q0" (Some "a") "Z" = Some ("q1", "AZ"))
    as Ht by (vm_compute; reflexivity).
  assert (get_transition accented "q0" (Some "é") SpecialStackSymbol.EMPTY
          = Some ("q1", SpecialStackSymbol.EMPTY))
    as Hte by (vm_compute; reflexivity).
  assert (uncons "éé" = Some ("é", "é")) as Hu by reflexivity.
  destruct (step_spec anb "q0" "ab") as (Hempty & Hmove & Hstack & _).
  destruct (step_spec accented "q0" "éé") as (_ & _ & _ & Hdefault).
  split; [exact Hempty|]. split_and!.
  - destruct (Hmove [] "Z") as [Hsym _].
    exact (proj1 (Hsym "a" "b" "q1" "AZ" eq_refl Ht)).
  - exact (Hstack [] "a" "b" "q1" eq_refl Ht).
  - exact Hu.
  - exact (Hdefault [] SpecialStackSymbol.EMPTY "é" "é" "q1" Hu Hte).
Defined.

Lemma accepts_checks_every_configuration_witness :
  initial_state anb = Some "q0" ∧
  run_steps anb 2 (initial_config anb "q0" "ab") = Some ("q2", "", ["Z"; "A"]) ∧
  accepts anb "ab" "final_state" = true ∧
  initial_state accented = Some "q0" ∧
  run_steps accented 1 (initial_config accented "q0" "é")
  = Some ("q1", "", [SpecialStackSymbol.EMPTY]) ∧
  accepts accented "é" "final_state" = true ∧
  len "é" * 100 + 1000 = 1100.
Proof.
  assert (initial_state anb = Some "q0") as Hq0 by (vm_compute; reflexivity).
  assert (run_steps anb 2 (initial_config anb "q0" "ab") = Some ("q2", "", ["Z"; "A"]))
    as Hrun by (vm_compute; reflexivity).
  assert ("q2" ∈ final_states anb) as Hfin by by_computation.
  assert (2 ≤ len "ab" * 100 + 1000) as Hle by by_computation.
  assert (initial_state accented = Some "q0") as Hq0e
    by (vm_compute; reflexivity).
  assert (run_steps accented 1 (initial_config accented "q0" "é")
          = Some ("q1", "", [SpecialStackSymbol.EMPTY]))
    as Hrune by (vm_compute; reflexivity).
  assert ("q1" ∈ final_states accented) as Hfine by by_computation.
  assert (1 ≤ len "é" * 100 + 1000) as Hlee by by_computation.
  split; [exact Hq0|]. split; [exact Hrun|].
  destruct (accepts_checks_every_configuration anb "q0" "ab" "final_state" Hq0)
    as (Hacc & _).
  destruct (accepts_checks_every_configuration accented "q0" "é" "final_state"
              Hq0e) as (Hacce & _).
  split_and!.
  - apply (Hacc 2 ("q2", "", ["Z"; "A"]) Hle Hrun).
    split; [reflexivity|]. left. split; [reflexivity|exact Hfin].
  - exact Hq0e.
  - exact Hrune.
  - apply (Hacce 1 ("q1", "", [SpecialStackSymbol.EMPTY]) Hlee Hrune).
    split; [reflexivity|]. left. split; [reflexivity|exact Hfine].
  - reflexivity.
Defined.

Lemma accepts_unknown_mode_returns_false_witness :
  accepts_outcome anb "ab" "both" = Ok false.
Proof.
  apply (accepts_unknown_mode_returns_false anb "ab" "both"); discriminate.
Defined.

Lemma add_transition_conflict_witness :
  conflict anb "q0" (Some "a") "Z" ∧
  ∃ e, add_transition "q0" "q1" (Some "a") "Z" "AZ" anb = Raise e ∧
       NonDeterministicConflictError e.
Proof.
  assert (is_Some (transitions anb !! ("q0", Some "a", "Z"))) as Hkey
    by by_computation.
  assert ("q0" ∈ states anb) as Hs by by_computation.
  assert ("q1" ∈ states anb) as Hn by by_computation.
  assert (alphabet_closed anb) as Hclosed by apply anb_invariant.
  assert (conflict anb "q0" (Some "a") "Z") as Hc by (left; exact Hkey).
  split; [exact Hc|].
  destruct (add_transition_conflict anb "q0" "q1" (Some "a") "Z" "AZ"
              Hclosed Hs Hn) as [[_ Hraise] _].
  exact (Hraise Hc).
Defined.


Lemma complement_never_raises_witness :
  ∃ C, crear_automata_complemento anb = Ok C ∧
       deterministic C ∧ is_deterministic C = true.
Proof.
  destruct anb_initial as [Hq0 Hin].
  assert (endpoints_registered anb) as Hend by apply anb_invariant.
  assert (deterministic anb) as Hdet by apply anb_invariant.
  exact (complement_never_raises anb "q0" Hend Hdet Hq0 Hin).
Defined.

Lemma normalize_states_preserves_language_witness :
  initial_state cycle = Some (Str "q1") ∧
  ∃ M' f,
    normalize_states cycle = Some (Ok M') ∧
    (∀ p q, p ∈ states cycle → q ∈ states cycle → f p = f q → p = q) ∧
    states M' = set_map f (states cycle) ∧
    (∀ q, q ∈ states cycle → ∃ i, f q = Str (q_name i)) ∧
    f (Str "q1") = Str "q0" ∧
    initial_state M' = Some (Str "q0") ∧
    ∀ word mode, accepts M' word mode = accepts cycle word mode.
Proof.
  assert (initial_state cycle = Some (Str "q1")) as Hq0
    by (vm_compute; reflexivity).
  assert (registry_ok cycle) as Hreg
    by apply (build_invariant cycle_calls cycle cycle_built).
  assert (endpoints_registered cycle) as Hend
    by apply (build_invariant cycle_calls cycle cycle_built).
  split; [exact Hq0|].
  exact (normalize_states_preserves_language cycle (Str "q1") Hreg Hend Hq0).
Defined.

Lemma builder_keeps_determinism_witness :
  run_session cycle_session new_AP = Some (Ok cycle_normalized) ∧
  ∃ Mk, run_session (take 9 cycle_session) new_AP = Some (Ok Mk) ∧
        deterministic Mk ∧ is_deterministic Mk = true.
Proof.
  pose proof cycle_session_completes as Hrun.
  split; [exact Hrun|].
  exact (builder_keeps_determinism cycle_session cycle_normalized Hrun 9).
Defined.

Lemma complement_correct_witness :
  builder_invariant anb ∧ single_character_stack_symbols anb ∧
  crear_automata_complemento anb = Ok anb_complement ∧
  accepts anb "ab" "final_state" = true ∧
  accepts anb_complement "ab" "final_state" = false ∧
  run_steps anb 2 (initial_config anb "q0" "ab") = Some ("q2", "", ["Z"; "A"]) ∧
  step anb "q2" "" ["Z"; "A"] = None ∧
  accepts anb_complement "ab" "final_state"
  = negb (accepts anb "ab" "final_state") ∧
  builder_invariant accented ∧ single_character_stack_symbols accented ∧
  crear_automata_complemento accented = Ok accented_complement ∧
  run_steps accented 2 (initial_config accented "q0" "éé")
  = Some ("trap", "", [SpecialStackSymbol.EMPTY]) ∧
  step accented "trap" "" [SpecialStackSymbol.EMPTY] = None ∧
  accepts accented "éé" "final_state" = false ∧
  accepts accented_complement "éé" "final_state"
  = negb (accepts accented "éé" "final_state") ∧
  len "éé" = 2 ∧ len SpecialStackSymbol.EMPTY = 1.
Proof.
  pose proof anb_invariant as Hinv.
  pose proof anb_single_character as Hsingle.
  pose proof anb_complement_built as Hbuilt.
  destruct anb_initial as [Hq0 _].
  assert (accepts anb "ab" "final_state" = true) as Hab
    by (vm_compute; reflexivity).
  assert (run_steps anb 2 (initial_config anb "q0" "ab") = Some ("q2", "", ["Z"; "A"]))
    as Hrun by (vm_compute; reflexivity).
  assert (step anb "q2" "" ["Z"; "A"] = None) as Hhalt by (vm_compute; reflexivity).
  assert ("A" ∈ stack_alphabet anb) as HZ by by_computation.
  assert (2 + len "ab" + 1 ≤ len "ab" * 100 + 1000) as Hbound by by_computation.
  pose proof accented_invariant as Hinve.
  pose proof accented_single_character as Hsinglee.
  pose proof accented_complement_built as Hbuilte.
  assert (initial_state accented = Some "q0") as Hq0e
    by (vm_compute; reflexivity).
  assert (run_steps accented 2 (initial_config accented "q0" "éé")
          = Some ("trap", "", [SpecialStackSymbol.EMPTY]))
    as Hrune by (vm_compute; reflexivity).
  assert (step accented "trap" "" [SpecialStackSymbol.EMPTY] = None) as Hhalte
    by (vm_compute; reflexivity).
  assert (SpecialStackSymbol.EMPTY ∈ stack_alphabet accented) as HE
    by by_computation.
  assert (2 + len "éé" + 1 ≤ len "éé" * 100 + 1000) as Hbounde
    by by_computation.
  assert (accepts accented "éé" "final_state" = false) as Hee
    by (vm_compute; reflexivity).
  destruct (@complement_correct canonical_order) as [Hgeneral _].
  destruct (Hgeneral _ _ _ anb anb_complement "ab" Hinv Hsingle Hbuilt)
    as [Hacc Hrej].
  destruct (Hgeneral _ _ _ accented accented_complement "éé" Hinve Hsinglee
              Hbuilte) as [_ Hreje].
  split_and!; [exact Hinv|exact Hsingle|exact Hbuilt|exact Hab|exact (Hacc Hab)|
               exact Hrun|exact Hhalt| |exact Hinve|exact Hsinglee|
               exact Hbuilte|exact Hrune|exact Hhalte|exact Hee| |
               reflexivity|reflexivity].
  - exact (Hrej "q0" 2 "q2" ["Z"; "A"] "A" Hq0 Hrun Hhalt eq_refl HZ Hbound).
  - exact (Hreje "q0" 2 "trap" [SpecialStackSymbol.EMPTY] SpecialStackSymbol.EMPTY
             Hq0e Hrune Hhalte eq_refl HE Hbounde).
Defined.

Lemma source_is_not_mutated_witness :
  Heap.allocated anb_heap 0 ∧
  (Heap.accepts 0 "ab" "final_state" anb_heap).1 = Ok true ∧
  (Heap.accepts 0 "ab" "final_state" anb_heap).2 = anb_heap ∧
  ∀ r h', Heap.crear_automata_complemento 0 anb_heap = (r, h') →
          Heap.view h' 0 = Heap.view anb_heap 0.
Proof.
  assert (Heap.allocated anb_heap 0) as Hall
    by (unfold Heap.allocated; by_computation).
  assert ((Heap.accepts 0 "ab" "final_state" anb_heap).1 = Ok true) as Hab
    by (vm_compute; reflexivity).
  destruct (source_is_not_mutated anb_heap 0 Hall) as (_ & Hacc & Hcomp).
  split; [exact Hall|]. split; [exact Hab|].
  split; [exact (Hacc "ab" "final_state")|].
  intros r h' Hrun. exact (proj1 (Hcomp r h' Hrun)).
Defined.

Lemma is_deterministic_decides_witness :
  is_deterministic anb = true ↔ deterministic anb.
Proof.
  assert (alphabet_closed anb) as Hclosed by apply anb_invariant.
  exact (is_deterministic_decides anb Hclosed).
Defined.

Lemma add_transition_then_get_transition_witness :
  add_transition "q0" "q1" (Some "a") "Z" "AZ" anb_registry
  = Ok anb_one_transition ∧
  get_transition anb_registry "q0" (Some "a") "Z" = None ∧
  get_transition anb_one_transition "q0" (Some "a") "Z" = Some ("q1", "AZ").
Proof.
  assert (add_transition "q0" "q1" (Some "a") "Z" "AZ" anb_registry
          = Ok anb_one_transition) as Hadd.
  { unfold anb_one_transition. refine (unwrap_Ok _ _). vm_compute. reflexivity. }
  destruct (add_transition_then_get_transition _ _ _ _ _ _ _ Hadd)
    as (Hbefore & Hafter & _).
  split; [exact Hadd|]. split; [exact Hbefore|exact Hafter].
Defined.

Lemma builder_only_adds_witness :
  build (take 6 anb_calls ++ drop 6 anb_calls) = Ok anb ∧
  ∃ M1, build (take 6 anb_calls) = Ok M1 ∧ grows M1 anb ∧
        ∀ q o X v, get_transition M1 q o X = Some v →
                   get_transition anb q o X = Some v.
Proof.
  assert (build (take 6 anb_calls ++ drop 6 anb_calls) = Ok anb) as Hbuilt
    by exact anb_built.
  split; [exact Hbuilt|].
  exact (builder_only_adds (take 6 anb_calls) (drop 6 anb_calls) anb Hbuilt).
Defined.

Lemma size_counts_add_state_calls_witness :
  build anb_calls = Ok anb ∧ size anb = add_state_calls anb_calls.
Proof.
  split; [exact anb_built|].
  exact (size_counts_add_state_calls anb_calls anb anb_built).
Defined.

Lemma accepts_only_words_over_the_alphabet_witness :
  accepts anb "ab" "final_state" = true ∧ word_over anb "ab" ∧
  accepts accented "é" "final_state" = true ∧ word_over accented "é".
Proof.
  assert (alphabet_closed anb) as Hclosed by apply anb_invariant.
  assert (accepts anb "ab" "final_state" = true) as Hab
    by (vm_compute; reflexivity).
  assert (alphabet_closed accented) as Hclosede by apply accented_invariant.
  assert (accepts accented "é" "final_state" = true) as He
    by (vm_compute; reflexivity).
  split; [exact Hab|]. split_and!.
  - exact (accepts_only_words_over_the_alphabet anb "ab" "final_state"
             Hclosed Hab).
  - exact He.
  - exact (accepts_only_words_over_the_alphabet accented "é" "final_state"
             Hclosede He).
Defined.

Lemma rename_state_and_back_witness :
  ∃ M', _rename_state "q0" "start" anb = Ok M' ∧
        _rename_state "start" "q0" M' = Ok anb.
Proof.
  assert (registry_ok anb) as Hreg by apply anb_invariant.
  assert (endpoints_registered anb) as Hend by apply anb_invariant.
  assert ("q0" ∈ states anb) as Hold by by_computation.
  assert ("start" ∉ states anb) as Hnew by by_computation.
  exact (rename_state_and_back "q0" "start" anb Hreg Hend Hold Hnew).
Defined.

Lemma rename_state_preserves_language_witness :
  ∃ M', _rename_state "q0" "start" anb = Ok M' ∧
        states M' = states anb ∖ {["q0"]} ∪ {["start"]} ∧
        size M' = size anb ∧
        (∀ word mode, accepts M' word mode = accepts anb word mode) ∧
        (builder_invariant anb → builder_invariant M').
Proof.
  assert (registry_ok anb) as Hreg by apply anb_invariant.
  assert (endpoints_registered anb) as Hend by apply anb_invariant.
  assert ("q0" ∈ states anb) as Hold by by_computation.
  assert ("start" ∉ states anb) as Hnew by by_computation.
  exact (rename_state_preserves_language "q0" "start" anb Hreg Hend Hold Hnew).
Defined.

Lemma rename_state_onto_a_state_merges_witness :
  ∃ M', _rename_state "q0" "q1" anb = Ok M' ∧
        states M' = states anb ∖ {["q0"]} ∧ size M' + 1 = size anb.
Proof.
  assert ("q0" ≠ "q1") as Hne by discriminate.
  assert ("q0" ∈ states anb) as Hold by by_computation.
  assert ("q1" ∈ states anb) as Hnew by by_computation.
  exact (rename_state_onto_a_state_merges "q0" "q1" anb Hne Hold Hnew).
Defined.

Lemma normalize_states_names_witness :
  ∃ M', normalize_states cycle = Some (Ok M') ∧
        size M' = size cycle ∧
        stdpp.base.size (final_states M') = stdpp.base.size (final_states cycle) ∧
        ∀ s, s ∈ states M' ↔
             ∃ i, s = Str (q_name i) ∧
                  first_index cycle ≤ i < first_index cycle + size cycle.
Proof.
  assert (registry_ok cycle) as Hreg
    by apply (build_invariant cycle_calls cycle cycle_built).
  assert (endpoints_registered cycle) as Hend
    by apply (build_invariant cycle_calls cycle cycle_built).
  exact (normalize_states_names cycle Hreg Hend).
Defined.

Lemma complement_of_the_complement_witness :
  ∃ C (D : AP (cstate (cstate string))),
    crear_automata_complemento anb = Ok C ∧ builder_invariant C ∧
    initial_state C = Some ("q0", final_index anb "q0") ∧
    crear_automata_complemento C = Ok D.
Proof.
  destruct anb_initial as [Hq0 Hin].
  assert (endpoints_registered anb) as Hend by apply anb_invariant.
  assert (deterministic anb) as Hdet by apply anb_invariant.
  exact (complement_of_the_complement anb "q0" Hend Hdet Hq0 Hin).
Defined.

Lemma complement_size_witness :
  crear_automata_complemento anb = Ok anb_complement ∧
  size anb_complement = 3 * size anb ∧
  stdpp.base.size (final_states anb_complement) = size anb.
Proof.
  split; [exact anb_complement_built|].
  exact (complement_size anb anb_complement anb_complement_built).
Defined.

Lemma complement_does_not_depend_on_iteration_order_witness :
  @crear_automata_complemento _ _ _ canonical_order anb = Ok anb_complement ∧
  @crear_automata_complemento _ _ _ reversed_order anb
  = Ok anb_complement_reversed ∧
  transitions anb_complement = transitions anb_complement_reversed ∧
  ∀ word mode, accepts anb_complement word mode
               = accepts anb_complement_reversed word mode.
Proof.
  assert (@crear_automata_complemento _ _ _ reversed_order anb
          = Ok anb_complement_reversed) as Hreversed.
  { unfold anb_complement_reversed. refine (unwrap_Ok _ _).
    vm_compute. reflexivity. }
  destruct (complement_does_not_depend_on_iteration_order
              canonical_order reversed_order anb anb_complement
              anb_complement_reversed anb_complement_built Hreversed)
    as (_ & _ & _ & _ & Htr & Hacc).
  split; [exact anb_complement_built|]. split; [exact Hreversed|].
  split; [exact Htr|exact Hacc].
Defined.

Lemma failed_call_changes_nothing_witness :
  (Heap.perform 0 (AddState (PyStr "q0") false) anb_heap).1
  = Raise (ValueError state_already_present) ∧
  (Heap.perform 0 (AddState (PyStr "q0") false) anb_heap).2 = anb_heap.
Proof.
  assert ((Heap.perform 0 (AddState (PyStr "q0") false) anb_heap).1
          = Raise (ValueError state_already_present)) as Hraise
    by (vm_compute; reflexivity).
  split; [exact Hraise|].
  apply (failed_call_changes_nothing 0 (AddState (PyStr "q0") false) anb_heap
           (ValueError state_already_present)).
  rewrite <-Hraise. apply surjective_pairing.
Defined.

Lemma builder_records_what_it_is_given_witness :
  (registry_ok anb ∧ endpoints_registered anb ∧ alphabet_closed anb ∧
   pushes_recorded anb) ∧
  (registry_ok accented ∧ endpoints_registered accented ∧
   alphabet_closed accented ∧ pushes_recorded accented) ∧
  elements (stack_alphabet accented) = [SpecialStackSymbol.EMPTY].
Proof.
  split; [exact (builder_records_what_it_is_given anb_calls anb anb_built)|].
  split; [|exact (proj2 accented_alphabets)].
  exact (builder_records_what_it_is_given accented_calls accented accented_built).
Defined.

Lemma run_stays_in_the_automaton_witness :
  run_steps anb 2 ("q0", "ab", ["Z"]) = Some ("q2", "", ["Z"; "A"]) ∧
  "q2" ∈ states anb ∧ ∀ X, X ∈ ["Z"; "A"] → X ∈ stack_alphabet anb.
Proof.
  assert (endpoints_registered anb) as Hend by apply anb_invariant.
  pose proof (build_pushes_recorded anb_calls anb anb_built) as Hrec.
  assert ("q0" ∈ states anb) as Hq by by_computation.
  assert (∀ X, X ∈ ["Z"] → X ∈ stack_alphabet anb) as Hstack.
  { intros X ->%list_elem_of_singleton. by_computation. }
  assert (run_steps anb 2 ("q0", "ab", ["Z"]) = Some ("q2", "", ["Z"; "A"]))
    as Hrun by (vm_compute; reflexivity).
  split; [exact Hrun|].
  exact (run_stays_in_the_automaton anb 2 "q0" "ab" ["Z"] "q2" "" ["Z"; "A"]
           Hend Hrec Hq Hstack Hrun).
Defined.

Lemma anb_complement_on_every_word_witness :
  word_over anb "aab" ∧
  accepts anb_complement "aab" "final_state"
  = negb (accepts anb "aab" "final_state").
Proof.
  assert (word_over anb "aab") as Hword.
  { intros a Ha. apply anb_alphabet. simpl in Ha.
    repeat (apply elem_of_cons in Ha as [->|Ha]; [tauto|]).
    by apply elem_of_nil in Ha. }
  split; [exact Hword|].
  exact (anb_complement_on_every_word canonical_order anb_complement "aab"
           anb_complement_built Hword).
Defined.

Lemma object_reading_agrees_witness :
  Heap.well_formed anb_heap 0 ∧
  match perform (AddState (PyStr "q3") true) (Heap.view anb_heap 0) with
  | Ok M' =>
      ∃ h', Heap.perform 0 (AddState (PyStr "q3") true) anb_heap = (Ok (), h') ∧
            Heap.view h' 0 = M' ∧ Heap.well_formed h' 0
  | Raise e =>
      Heap.perform 0 (AddState (PyStr "q3") true) anb_heap = (Raise e, anb_heap)
  end.
Proof.
  assert (Heap.well_formed anb_heap 0) as Hwf
    by (unfold Heap.well_formed, Heap.allocated; by_computation).
  split; [exact Hwf|].
  pose proof (@object_reading_agrees canonical_order 0
                (AddState (PyStr "q3") true) anb_heap Hwf) as Hagree.
  exact Hagree.
Defined.

End Witnesses.
